(** * deep-research: the research orchestration engine of package [agent]

    A shallow embedding of the Go package [agent] (context compression and
    chunking, the report retry ladder, URL normalisation, query expansion,
    planning and the exhaustive search executor), with the properties of its
    specification proved or refuted on the embedding, and further properties
    of the code, of the command line (cmd/main.go) and of package [search]
    proved besides.

    Conventions.
    - A Go [string] is a sequence of bytes: Rocq's [string] (a list of
      [ascii], one per byte); [len(s)] is [String.length s].
    - A Go [int] that counts bytes or loop rounds is a [nat]; the code never
      computes with values near 2^63.
    - [int(float64(n) * 0.5)], [* 0.6], [* 0.8] and [* 3.5] are written with
      integer arithmetic ([n / 2], [n * 3 / 5], [n * 4 / 5], [n * 7 / 2]):
      the float expression equals the floor of the exact product for every
      [n] below 2^50.
    - A Go [map[string]bool] that only ever stores [true] is a [gset string].
    - Calls that leave the process (the language model, the search provider)
      are oracles: functions passed to the embedded code. *)

From Stdlib Require Import Ascii String.
From stdpp Require Import base decidable option list strings sets gmap sorting pretty.
From Stdlib Require Import Lia ZArith QArith.

Local Open Scope nat_scope.
Set Warnings "-abstract-large-number".
Set Warnings "-notation-overridden".

(** ** Package [strings] of the Go standard library (the functions used) *)

Module GoStrings.

Abbreviation len := String.length.

(** The one-byte strings the code searches for. *)
Definition nl : string := String (ascii_of_nat 10) "".
Definition nlnl : string := nl +:+ nl.
Definition sp : string := " ".

(** [s[:n]]; the callers keep [n <= len s]. *)
Fixpoint slice_to (s : string) (n : nat) : string :=
  match n, s with
  | S n', String c s' => String c (slice_to s' n')
  | _, _ => ""
  end.

(** [s[n:]]; the callers keep [n <= len s]. *)
Fixpoint slice_from (s : string) (n : nat) : string :=
  match n, s with
  | S n', String c s' => slice_from s' n'
  | _, _ => s
  end.

(** [strings.HasPrefix]. *)
Fixpoint HasPrefix (s prefix : string) : bool :=
  match prefix, s with
  | "", _ => true
  | String p prefix', String c s' =>
      if decide (p = c) then HasPrefix s' prefix' else false
  | String _ _, "" => false
  end.

(** [strings.HasSuffix]. *)
Definition HasSuffix (s suffix : string) : bool :=
  if decide (len suffix <= len s)
  then bool_decide (slice_from s (len s - len suffix) = suffix)
  else false.

(** [strings.TrimSuffix]. *)
Definition TrimSuffix (s suffix : string) : string :=
  if HasSuffix s suffix then slice_to s (len s - len suffix) else s.

(** [strings.Index]: the first byte offset of [substr] in [s]; [None] is
    Go's [-1]. *)
Fixpoint Index (s substr : string) : option nat :=
  if HasPrefix s substr then Some 0
  else match s with
       | "" => None
       | String _ s' => S <$> Index s' substr
       end.

(** [strings.LastIndex]: the last byte offset of [substr] in [s]. *)
Fixpoint LastIndex (s substr : string) : option nat :=
  match s with
  | "" => if HasPrefix "" substr then Some 0 else None
  | String _ s' =>
      match LastIndex s' substr with
      | Some i => Some (S i)
      | None => if HasPrefix s substr then Some 0 else None
      end
  end.

(** [strings.Contains]. *)
Definition Contains (s substr : string) : bool :=
  bool_decide (is_Some (Index s substr)).

(** [strings.Join]. *)
Fixpoint Join (elems : list string) (sep : string) : string :=
  match elems with
  | [] => ""
  | [e] => e
  | e :: rest => e +:+ sep +:+ Join rest sep
  end.

(** Concatenation of a list of strings, in order. *)
Definition concatenation (l : list string) : string :=
  foldr String.append "" l.

End GoStrings.

Import GoStrings.

(** ** [Config] and the character budget *)

Record Config := {
  MaxLoops : nat;
  ParallelQuery : nat;
  DeepMode : bool;
  ResultLinks : bool;
  SimpleMode : bool;
  MinResults : nat;
  DelayMs : nat;
  MaxPages : nat;
  ContextLength : nat
}.

(** [Config.maxContextChars]: 3.5 characters per token, or the default for
    an unknown context length. *)
Definition maxContextChars (c : Config) : nat :=
  if decide (ContextLength c <= 0) then 32768 * 3
  else ContextLength c * 7 / 2.

(** ** [splitContextIntoChunks] *)

(** [int(float64(maxChunkSize) * 0.8)]. *)
Definition searchStartOf (maxChunkSize : nat) : nat := maxChunkSize * 4 / 5.

(** The break point chosen for one chunk [chunk = remaining[:maxChunkSize]]:
    after the last paragraph break in the last fifth, else after the last
    newline there, else after the last space there, else [maxChunkSize]. *)
Definition breakPointOf (chunk : string) (maxChunkSize : nat) : nat :=
  let searchStart := searchStartOf maxChunkSize in
  match LastIndex (slice_from chunk searchStart) nlnl with
  | Some idx => searchStart + idx + 2
  | None =>
      match LastIndex (slice_from chunk searchStart) nl with
      | Some idx => searchStart + idx + 1
      | None =>
          match LastIndex (slice_from chunk searchStart) sp with
          | Some idx => searchStart + idx + 1
          | None => maxChunkSize
          end
      end
  end.

(** The [for len(remaining) > 0] loop. Each unfolding of [fuel] is one
    iteration; [None] means the iterations ran out, which stands for a loop
    that does not end. *)
Fixpoint splitLoop (fuel : nat) (remaining : string) (maxChunkSize : nat)
    (chunks : list string) : option (list string) :=
  match fuel with
  | 0 => None
  | S fuel' =>
      if decide (0 < len remaining) then
        if decide (len remaining <= maxChunkSize) then
          Some (chunks ++ [remaining])
        else
          let chunk := slice_to remaining maxChunkSize in
          let breakPoint := breakPointOf chunk maxChunkSize in
          splitLoop fuel' (slice_from remaining breakPoint) maxChunkSize
            (chunks ++ [slice_to remaining breakPoint])
      else Some chunks
  end.

(** [splitContextIntoChunks]: at most [len text + 1] iterations are ever
    granted; the theorems below show that this is enough exactly when
    [maxChunkSize >= 1]. *)
Definition splitContextIntoChunks (text : string) (maxChunkSize : nat)
    : option (list string) :=
  if decide (len text <= maxChunkSize) then Some [text]
  else splitLoop (S (len text)) text maxChunkSize [].

(** ** The Unicode-aware functions of package [strings]

    [strings.ToLower] and [strings.TrimSpace] follow the Unicode tables, and
    [strings.ReplaceAll] with an empty pattern cuts its subject into UTF-8
    sequences. The tables are not part of this development: the three
    functions are the fields of a class, the embedded code is written over
    any instance, and [ascii_unicode] is the instance that is exact on
    strings of ASCII bytes. *)

Class Unicode := {
  ToLower : string → string;
  TrimSpace : string → string;
  explode : string → list string
}.

(** [s] holds only bytes below 0x80. *)
Fixpoint is_ascii (s : string) : bool :=
  match s with
  | "" => true
  | String c s' => bool_decide (nat_of_ascii c < 128) && is_ascii s'
  end.

Definition ascii_lower_byte (c : ascii) : ascii :=
  let n := nat_of_ascii c in
  if decide (65 <= n ∧ n <= 90) then ascii_of_nat (n + 32) else c.

Fixpoint ascii_ToLower (s : string) : string :=
  match s with
  | "" => ""
  | String c s' => String (ascii_lower_byte c) (ascii_ToLower s')
  end.

(** The ASCII white space of [strings.TrimSpace]: tab, newline, vertical
    tab, form feed, carriage return, space. *)
Definition ascii_is_space (c : ascii) : bool :=
  let n := nat_of_ascii c in
  bool_decide (n = 9 ∨ n = 10 ∨ n = 11 ∨ n = 12 ∨ n = 13 ∨ n = 32).

Fixpoint trim_left (s : string) : string :=
  match s with
  | String c s' => if ascii_is_space c then trim_left s' else s
  | "" => ""
  end.

Definition ascii_TrimSpace (s : string) : string :=
  String.rev (trim_left (String.rev (trim_left s))).

Fixpoint ascii_explode (s : string) : list string :=
  match s with
  | "" => []
  | String c s' => String c "" :: ascii_explode s'
  end.

Definition ascii_unicode : Unicode :=
  {| ToLower := ascii_ToLower; TrimSpace := ascii_TrimSpace;
     explode := ascii_explode |}.

(** [strings.ReplaceAll s old new] for a non-empty [old]: the leftmost
    occurrences, not overlapping. [fuel] bounds the bytes scanned. *)
Fixpoint replace_go (fuel : nat) (s old new : string) : string :=
  match fuel with
  | 0 => s
  | S fuel' =>
      if HasPrefix s old then
        new +:+ replace_go fuel' (slice_from s (len old)) old new
      else match s with
           | "" => ""
           | String c s' => String c (replace_go fuel' s' old new)
           end
  end.

(** [strings.ReplaceAll]. *)
Definition ReplaceAll `{U : !Unicode} (s old new : string) : string :=
  if decide (old = new) then s
  else if decide (old = "") then
    concatenation ((λ r, new +:+ r) <$> explode s) +:+ new
  else replace_go (S (len s)) s old new.

(** ** The language-model client

    [llmClient.Chat] is an oracle, like every call that leaves the process:
    the answer may depend on the messages sent and on [n], the number of
    outside calls (to the model, to the search provider) the run has made
    before this one. An answer is the text or the message of the error
    ([err.Error()]). *)

Inductive result (A : Type) : Type :=
| Ok (a : A)
| Err (msg : string).
Arguments Ok {A} a.
Arguments Err {A} msg.

Record Message := { Role : string; Content : string }.

Definition ChatOracle : Type := nat → list Message → result string.

(** Computations that call the outside: the number of calls made so far
    goes in and comes out; [None] is a computation that does not end. *)
Definition LLM (A : Type) : Type := nat → option (A * nat).

#[global] Instance LLM_ret : MRet LLM := λ A a n, Some (a, n).
#[global] Instance LLM_bind : MBind LLM := λ A B f m n,
  match m n with
  | Some (a, n') => f a n'
  | None => None
  end.

Definition diverge {A : Type} : LLM A := λ _, None.

Definition Chat (chat : ChatOracle) (messages : list Message)
    : LLM (result string) :=
  λ n, Some (chat n messages, S n).

(** A Go [(string, error)] pair: the string and, when there is one, the
    error's message. *)
Definition str_err : Type := string * option string.

(** ** [stripThinkTags] *)

Definition stripThinkTags `{U : !Unicode} (s : string) : string :=
  let s :=
    match Index s "<think>" with
    | Some _ =>
        match Index s "</think>" with
        | Some e => slice_from s (e + 8)
        | None => s
        end
    | None => s
    end in
  TrimSpace s.

(** ** Context compression *)

(** The conversion [int(x)] of a float: truncation toward zero. Ratios are
    rationals here ([0.5 / float64(attempt)] is [1 / (2 * attempt)]). *)
Definition Qtrunc (x : Q) : Z := Z.quot (Qnum x) (Z.pos (Qden x)).

(** [int(float64(len(context)) * targetRatio)]. *)
Definition targetCharsOf (context : string) (targetRatio : Q) : Z :=
  Qtrunc (inject_Z (Z.of_nat (len context)) * targetRatio).

Definition compressPrompt (targetChars : Z) (context : string) : string :=
  "Compress this research context to ~" +:+ pretty targetChars +:+
  " characters. PRESERVE: URLs, prices, names, numbers, dates, specific facts. REMOVE: redundancy, verbose descriptions. Output ONLY compressed text:"
  +:+ nl +:+ nl +:+ context.

(** The two messages [compressContextDirect] sends. *)
Definition compressMessages (context : string) (targetRatio : Q)
    : list Message :=
  let targetChars := targetCharsOf context targetRatio in
  let prompt := compressPrompt targetChars context in
  [ {| Role := "system"; Content := "Compress text. Output only the result." |};
    {| Role := "user"; Content := prompt |} ].

(** [compressContextDirect]. *)
Definition compressContextDirect `{U : !Unicode} (chat : ChatOracle)
    (context : string) (targetRatio : Q) : LLM str_err :=
  r ← Chat chat (compressMessages context targetRatio);
  match r with
  | Err e => mret (context, Some ("compression failed: " +:+ e))
  | Ok resp =>
      let compressed := stripThinkTags resp in
      let compressed := TrimSpace compressed in
      if decide (len compressed < 200) then
        mret (context,
              Some ("compression produced too small output (" +:+
                    pretty (len compressed) +:+ " chars)"))
      else mret (compressed, None)
  end.

(** The [for i, chunk := range chunks] loop of [compressContextChunked]. *)
Fixpoint compressChunks `{U : !Unicode} (chat : ChatOracle) (chunks : list string)
    (chunkSize : nat) (targetRatio : Q) (compressedParts : list string)
    : LLM (list string) :=
  match chunks with
  | [] => mret compressedParts
  | chunk :: rest =>
      r ← compressContextDirect chat chunk targetRatio;
      match r with
      | (_, Some _) =>
          let truncated :=
            if decide (chunkSize / 4 < len chunk) then
              slice_to chunk (chunkSize / 4) +:+ nl +:+ "[...truncated...]" +:+ nl
            else chunk in
          compressChunks chat rest chunkSize targetRatio
            (compressedParts ++ [truncated])
      | (compressed, None) =>
          compressChunks chat rest chunkSize targetRatio
            (compressedParts ++ [compressed])
      end
  end.

(** [compressContextChunked]; [compressContext] is the function it calls
    when the joined parts are still too large. *)
Definition compressContextChunked `{U : !Unicode} (cfg : Config) (chat : ChatOracle)
    (compressContext : string → Q → LLM str_err)
    (context : string) (targetRatio : Q) : LLM str_err :=
  let maxChars := maxContextChars cfg in
  let chunkSize := maxChars / 2 in
  let chunkSize := if decide (chunkSize < 2000) then 2000 else chunkSize in
  match splitContextIntoChunks context chunkSize with
  | None => diverge
  | Some chunks =>
      compressedParts ← compressChunks chat chunks chunkSize targetRatio [];
      let result := Join compressedParts (nl +:+ nl +:+ "---" +:+ nl +:+ nl) in
      let maxTarget := maxChars * 3 / 5 in
      if decide (maxTarget < len result) then compressContext result targetRatio
      else mret (result, None)
  end.

(** [compressContext]. The source recurses through [compressContextChunked]
    with no bound on the depth; [fuel] is the depth granted here. *)
Fixpoint compressContext `{U : !Unicode} (cfg : Config) (chat : ChatOracle)
    (fuel : nat) (context : string) (targetRatio : Q) : LLM str_err :=
  let maxChars := maxContextChars cfg in
  let maxInputChars := maxChars * 3 / 5 in
  if decide (len context <= maxInputChars) then
    compressContextDirect chat context targetRatio
  else
    match fuel with
    | 0 => diverge
    | S fuel' =>
        compressContextChunked cfg chat (compressContext cfg chat fuel')
          context targetRatio
    end.

(** ** [writeReport] and its retry ladder *)

(** What one pass of the retry loop did. The record is an observation added
    to the embedding, not data of the program: the number of the pass, the
    value of the local [maxContextChars] (the ceiling) and of
    [currentContext] when the pass began, the ratio handed to
    [compressContext] and whether that call returned an error (when the call
    was made), the [currentContext] placed in the prompt, the number of the
    outside call that carried the prompt, and its answer. *)
Record attempt_record := {
  at_attempt : nat;
  at_ceiling : nat;
  at_context_in : string;
  at_compress : option (Q * bool);
  at_context : string;
  at_call : nat;
  at_outcome : result string
}.

Definition maxRetries : nat := 3.

Definition reportPrompt (cfg : Config) (topic currentContext : string) : string :=
  let linkEmphasis :=
    if ResultLinks cfg then
      nl +:+ nl +:+
      "CRITICAL: Include direct clickable links [Title](URL) for each item."
    else "" in
  "Write a research report for: " +:+ topic +:+ nl +:+ nl +:+
  "Data:" +:+ nl +:+ currentContext +:+ nl +:+ nl +:+
  "Format with Markdown. Include source URLs." +:+ linkEmphasis.

(** The single message that asks for the report. *)
Definition reportMessages (cfg : Config) (topic currentContext : string)
    : list Message :=
  [ {| Role := "user"; Content := reportPrompt cfg topic currentContext |} ].

(** The error of a failed generation looks budget-related. *)
Definition budget_looking (e : string) : bool :=
  Contains e "context" || Contains e "token".

(** The number of the next outside call. *)
Definition calls_so_far : LLM nat := λ n, Some (n, n).

(** The loop [for attempt := 1; attempt <= maxRetries; attempt++]:
    [iterations] is [maxRetries + 1 - attempt], the passes still allowed;
    [limit] is the local variable [maxContextChars]. *)
Fixpoint writeReportLoop `{U : !Unicode} (cfg : Config) (chat : ChatOracle)
    (fuel : nat) (topic : string) (iterations attempt limit : nat)
    (currentContext : string) (trace : list attempt_record)
    : LLM (result string * list attempt_record) :=
  match iterations with
  | 0 =>
      mret (Err ("failed to generate report after " +:+ pretty maxRetries +:+
                 " attempts"), trace)
  | S iterations' =>
      prepared ←
        (if decide (limit < len currentContext) then
           let targetRatio := ((1 # 2) / inject_Z (Z.of_nat attempt))%Q in
           r ← compressContext cfg chat fuel currentContext targetRatio;
           match r with
           | (_, Some _) =>
               mret (if decide (limit < len currentContext)
                     then slice_to currentContext limit
                     else currentContext,
                     Some (targetRatio, true))
           | (compressed, None) => mret (compressed, Some (targetRatio, false))
           end
         else mret (currentContext, None));
      let prompted : string := prepared.1 in
      call ← calls_so_far;
      resp ← Chat chat (reportMessages cfg topic prompted);
      let record :=
        {| at_attempt := attempt; at_ceiling := limit;
           at_context_in := currentContext; at_compress := prepared.2;
           at_context := prompted; at_call := call; at_outcome := resp |} in
      match resp with
      | Err e =>
          if bool_decide (attempt < maxRetries) && budget_looking e then
            writeReportLoop cfg chat fuel topic iterations' (S attempt)
              (limit / 2) prompted (trace ++ [record])
          else
            mret (Err ("report generation failed after " +:+ pretty attempt +:+
                       " attempts: " +:+ e), trace ++ [record])
      | Ok resp => mret (Ok (stripThinkTags resp), trace ++ [record])
      end
  end.

(** [writeReport], with the passes it made. *)
Definition writeReport `{U : !Unicode} (cfg : Config) (chat : ChatOracle)
    (fuel : nat) (topic context : string)
    : LLM (result string * list attempt_record) :=
  let maxChars := maxContextChars cfg in
  writeReportLoop cfg chat fuel topic maxRetries 1 (maxChars / 2) context [].

(** A record [r] describes a pass of the loop that began as pass [attempt]
    with ceiling [limit] and context [ctx]: either the context already fit
    and went into the prompt as it was, or [compressContext] was called with
    the ratio [0.5 / attempt], and the prompt got the hard-truncated context
    when that call returned an error and its output when it did not. The
    answer recorded is the oracle's answer to the prompt built from
    [at_context r]. *)
Definition pass_record `{U : !Unicode} (cfg : Config) (chat : ChatOracle)
    (fuel : nat) (topic : string) (attempt limit : nat) (ctx : string)
    (r : attempt_record) : Prop :=
  at_attempt r = attempt ∧ at_ceiling r = limit ∧ at_context_in r = ctx
  ∧ at_outcome r = chat (at_call r) (reportMessages cfg topic (at_context r))
  ∧ match at_compress r with
    | None => len ctx <= limit ∧ at_context r = ctx
    | Some (ratio, failed) =>
        limit < len ctx
        ∧ ratio = ((1 # 2) / inject_Z (Z.of_nat attempt))%Q
        ∧ ∃ n0 out err,
            compressContext cfg chat fuel ctx ratio n0
              = Some ((out, err), at_call r)
            ∧ failed = bool_decide (is_Some err)
            ∧ at_context r = if failed then slice_to ctx limit else out
    end.

(** What [writeReport] returns after a pass whose record is [r] ended the
    loop. *)
Definition final_answer `{U : !Unicode} (r : attempt_record) : result string :=
  match at_outcome r with
  | Ok resp => Ok (stripThinkTags resp)
  | Err e =>
      Err ("report generation failed after " +:+ pretty (at_attempt r) +:+
           " attempts: " +:+ e)
  end.

(** The pass recorded in [r] is followed by another one: it failed, before
    the last attempt, with an error that looks budget-related. *)
Definition retried (r : attempt_record) : Prop :=
  at_attempt r < maxRetries
  ∧ ∃ e, at_outcome r = Err e ∧ budget_looking e = true.

(** The passes of one run of the loop, from pass [attempt] on: a last pass
    that is not retried and gives the answer, or a retried pass followed by
    the passes that begin with the ceiling halved and the context that pass
    had put in its prompt. *)
Inductive ladder `{U : !Unicode} (cfg : Config) (chat : ChatOracle) (fuel : nat)
    (topic : string)
    : nat → nat → string → list attempt_record → result string → Prop :=
| ladder_last attempt limit ctx r :
    pass_record cfg chat fuel topic attempt limit ctx r →
    ¬ retried r →
    ladder cfg chat fuel topic attempt limit ctx [r] (final_answer r)
| ladder_retry attempt limit ctx r rest res :
    pass_record cfg chat fuel topic attempt limit ctx r →
    retried r →
    ladder cfg chat fuel topic (S attempt) (limit / 2) (at_context r) rest res →
    ladder cfg chat fuel topic attempt limit ctx (r :: rest) res.

(** ** Test doubles: small configurations and oracles for the examples *)

Fixpoint repeat_byte (c : ascii) (n : nat) : string :=
  match n with
  | 0 => ""
  | S n' => String c (repeat_byte c n')
  end.

(** A model with a context of 100 tokens: a budget of 350 bytes, a report
    ceiling of 175 and a direct-compression limit of 210. *)
Definition cfg_small : Config :=
  {| MaxLoops := 3; ParallelQuery := 2; DeepMode := false;
     ResultLinks := false; SimpleMode := false; MinResults := 12;
     DelayMs := 0; MaxPages := 2; ContextLength := 100 |}.

(** A client whose every call fails with a message about the context. *)
Definition chat_overflow : ChatOracle :=
  λ _ _, Err "context length exceeded".

(** A client that is unreachable. *)
Definition chat_down : ChatOracle := λ _ _, Err "connection refused".

(** A client that answers a compression request (the one with a system
    message) with 200 bytes of text and any other request with a short
    report. *)
Definition chat_verbose : ChatOracle :=
  λ _ messages,
    match messages with
    | [_; _] => Ok (repeat_byte "b" 200)
    | _ => Ok "# Report"
    end.

(** ** Package [net/url] of the Go standard library

    [url.Values] with [ParseQuery], [Del] and [Encode], and the escaping of
    query components, are embedded in full. [url.Parse] and [URL.String]
    are embedded for plain absolute URLs, [scheme://host/path?query] with
    a host of letters, digits, dots and hyphens and a path of bytes that
    need no escaping, and for the strings [url.Parse] rejects at its first
    check (a control byte before any [#]); every other string is
    [Unmodelled]. *)

Module url.

Definition byte_in (lo hi : nat) (c : ascii) : bool :=
  bool_decide (lo <= nat_of_ascii c ∧ nat_of_ascii c <= hi).

Definition is_letter (c : ascii) : bool := byte_in 97 122 c || byte_in 65 90 c.
Definition is_digit (c : ascii) : bool := byte_in 48 57 c.

Fixpoint all_bytes (P : ascii → bool) (s : string) : bool :=
  match s with
  | "" => true
  | String c s' => P c && all_bytes P s'
  end.

(** [strings.Cut]. *)
Definition Cut (s sep : string) : string * string * bool :=
  match Index s sep with
  | Some i => (slice_to s i, slice_from s (i + len sep), true)
  | None => (s, "", false)
  end.

(** [strings.Count] for a one-byte [substr]. *)
Fixpoint Count (s substr : string) : nat :=
  match s with
  | "" => 0
  | String c s' =>
      (if bool_decide (String c "" = substr) then 1 else 0) + Count s' substr
  end.

(** *** Escaping of query components *)

(** [shouldEscape(c, encodeQueryComponent)]: only letters, digits and
    [- _ . ~] stay as they are. *)
Definition shouldEscape_query (c : ascii) : bool :=
  negb (is_letter c || is_digit c
        || bool_decide (c ∈ ["-"; "_"; "."; "~"]%char)).

Definition upperhex : string := "0123456789ABCDEF".

Definition hex_digit (n : nat) : ascii :=
  match String.get n upperhex with Some c => c | None => "0"%char end.

(** [url.QueryEscape]. *)
Fixpoint QueryEscape (s : string) : string :=
  match s with
  | "" => ""
  | String c s' =>
      if shouldEscape_query c then
        if bool_decide (c = " "%char) then String "+" (QueryEscape s')
        else
          String "%" (String (hex_digit (nat_of_ascii c / 16))
                        (String (hex_digit (nat_of_ascii c `mod` 16))
                           (QueryEscape s')))
      else String c (QueryEscape s')
  end.

(** [unhex], with [None] where [ishex] is false. *)
Definition unhex (c : ascii) : option nat :=
  let n := nat_of_ascii c in
  if byte_in 48 57 c then Some (n - 48)
  else if byte_in 97 102 c then Some (n - 97 + 10)
  else if byte_in 65 70 c then Some (n - 65 + 10)
  else None.

(** [url.QueryUnescape]; [None] is an [EscapeError]. *)
Fixpoint QueryUnescape (s : string) : option string :=
  match s with
  | "" => Some ""
  | String "%" (String h (String l rest)) =>
      match unhex h, unhex l with
      | Some a, Some b => String (ascii_of_nat (16 * a + b)) <$> QueryUnescape rest
      | _, _ => None
      end
  | String "%" _ => None
  | String "+" rest => String " " <$> QueryUnescape rest
  | String c rest => String c <$> QueryUnescape rest
  end.

(** *** [url.Values] *)

(** A [map[string][]string]: the keys are distinct; the order of the
    entries is of no consequence, [Encode] sorts them. *)
Definition Values : Type := list (string * list string).

(** [m[key] = append(m[key], value)]. *)
Fixpoint values_add (m : Values) (key value : string) : Values :=
  match m with
  | [] => [(key, [value])]
  | (k, vs) :: m' =>
      if decide (k = key) then (k, vs ++ [value]) :: m'
      else (k, vs) :: values_add m' key value
  end.

(** The loop of [parseQuery]; [fuel] bounds the number of [&]-separated
    pieces, of which [query] has at most [len query]. *)
Fixpoint parseQuery (fuel : nat) (m : Values) (query : string) : Values :=
  match fuel with
  | 0 => m
  | S fuel' =>
      if decide (query = "") then m
      else
        let '(key, query', _) := Cut query "&" in
        if Contains key ";" then parseQuery fuel' m query'
        else if decide (key = "") then parseQuery fuel' m query'
        else
          let '(key, value, _) := Cut key "=" in
          match QueryUnescape key with
          | None => parseQuery fuel' m query'
          | Some key =>
              match QueryUnescape value with
              | None => parseQuery fuel' m query'
              | Some value => parseQuery fuel' (values_add m key value) query'
              end
          end
  end.

(** [url.ParseQuery], its error dropped as [URL.Query] drops it. *)
Definition ParseQuery (query : string) : Values :=
  parseQuery (S (len query)) [] query.

(** [Values.Del]. *)
Definition Del (v : Values) (key : string) : Values :=
  filter (λ kv, kv.1 ≠ key) v.

(** [v[key]], [nil] for a key that is absent. *)
Fixpoint values_get (v : Values) (key : string) : list string :=
  match v with
  | [] => []
  | (k, vs) :: v' => if decide (k = key) then vs else values_get v' key
  end.

(** [Values.Encode]: keys in byte order, each with its values in order. *)
Definition Encode (v : Values) : string :=
  let keys := merge_sort String.le (fst <$> v) in
  foldl (λ buf k,
      let vs := values_get v k in
      let keyEscaped := QueryEscape k in
      foldl (λ buf value,
          (if decide (0 < len buf) then buf +:+ "&" else buf)
          +:+ keyEscaped +:+ "=" +:+ QueryEscape value) buf vs)
    "" keys.

(** *** [url.URL] *)

(** The fields of [url.URL] that a plain absolute URL sets; [Opaque],
    [User], [RawPath], [OmitHost], [Fragment] and [RawFragment] keep their
    zero values. *)
Record URL := {
  Scheme : string;
  Host : string;
  Path : string;
  ForceQuery : bool;
  RawQuery : string
}.

Inductive parse_result :=
| Parsed (u : URL)
| ParseError
| Unmodelled.

(** [stringContainsCTLByte]. *)
Definition stringContainsCTLByte (s : string) : bool :=
  negb (all_bytes (λ c, negb (bool_decide (nat_of_ascii c < 32
                                          ∨ nat_of_ascii c = 127))) s).

(** [getScheme]: [Some (scheme, rest)], or [None] for the error
    "missing protocol scheme". [i] is the offset of [s] in [rawURL]. *)
Fixpoint getScheme_from (i : nat) (s rawURL : string)
    : option (string * string) :=
  match s with
  | "" => Some ("", rawURL)
  | String c s' =>
      if is_letter c then getScheme_from (S i) s' rawURL
      else if is_digit c || bool_decide (c ∈ ["+"; "-"; "."]%char) then
        if decide (i = 0) then Some ("", rawURL)
        else getScheme_from (S i) s' rawURL
      else if bool_decide (c = ":"%char) then
        if decide (i = 0) then None
        else Some (slice_to rawURL i, slice_from rawURL (S i))
      else Some ("", rawURL)
  end.

Definition getScheme (rawURL : string) : option (string * string) :=
  getScheme_from 0 rawURL rawURL.

(** Host bytes that [parseHost] takes as they are and [String] writes as
    they are. *)
Definition plain_host_byte (c : ascii) : bool :=
  is_letter c || is_digit c || bool_decide (c ∈ ["."; "-"]%char).

(** Path bytes that [unescape] and [escape] leave as they are in a path. *)
Definition plain_path_byte (c : ascii) : bool :=
  is_letter c || is_digit c
  || bool_decide (c ∈ ["-"; "_"; "."; "~"; "$"; "&"; "+"; ","; "/"; ":"; ";";
                       "="; "@"]%char).

(** [url.Parse]. *)
Definition Parse (rawURL : string) : parse_result :=
  let '(u, frag, hasFrag) := Cut rawURL "#" in
  if stringContainsCTLByte u then ParseError
  else if hasFrag then Unmodelled
  else
    match getScheme u with
    | None => ParseError
    | Some (scheme, rest) =>
        let scheme := ascii_ToLower scheme in
        let '(rest, forceQuery, rawQuery) :=
          if HasSuffix rest "?" && bool_decide (Count rest "?" = 1)
          then (slice_to rest (len rest - 1), true, "")
          else let '(rest, rawQuery, _) := Cut rest "?" in
               (rest, false, rawQuery) in
        if negb (bool_decide (scheme ≠ "") && HasPrefix rest "//")
        then Unmodelled
        else
          let authority := slice_from rest 2 in
          let '(authority, rest) :=
            match Index authority "/" with
            | Some i => (slice_to authority i, slice_from authority i)
            | None => (authority, "")
            end in
          if bool_decide (authority ≠ "")
             && all_bytes plain_host_byte authority
             && all_bytes plain_path_byte rest
          then Parsed {| Scheme := scheme; Host := authority; Path := rest;
                         ForceQuery := forceQuery; RawQuery := rawQuery |}
          else Unmodelled
    end.

(** [URL.Query]. *)
Definition Query (u : URL) : Values := ParseQuery (RawQuery u).

(** [URL.String], for a URL with a scheme and a plain host and path. *)
Definition URL_String (u : URL) : string :=
  let buf := Scheme u +:+ ":" in
  let buf :=
    if bool_decide (Host u ≠ "" ∨ Path u ≠ "") then buf +:+ "//" else buf in
  let buf := buf +:+ Host u in
  let path := Path u in
  let buf :=
    if bool_decide (path ≠ "") && negb (HasPrefix path "/")
       && bool_decide (Host u ≠ "")
    then buf +:+ "/" else buf in
  let buf := buf +:+ path in
  if ForceQuery u || bool_decide (RawQuery u ≠ "")
  then buf +:+ "?" +:+ RawQuery u
  else buf.

End url.

(** ** [normalizeURL] *)

Definition trackingParams : list string :=
  ["utm_source"; "utm_medium"; "utm_campaign"; "utm_content"; "utm_term";
   "fbclid"; "gclid"; "ref"; "source"].

(** [normalizeURL]. [beyond] gives its value on the strings that the
    embedding of [net/url] leaves unmodelled; everything proved below holds
    whatever [beyond] is. *)
Definition normalizeURL (beyond : string → string) (rawURL : string) : string :=
  match url.Parse rawURL with
  | url.ParseError => TrimSuffix rawURL "/"
  | url.Unmodelled => beyond rawURL
  | url.Parsed u =>
      let q := url.Query u in
      let q := foldl url.Del q trackingParams in
      let u := {| url.Scheme := url.Scheme u; url.Host := url.Host u;
                  url.Path := url.Path u; url.ForceQuery := url.ForceQuery u;
                  url.RawQuery := url.Encode q |} in
      let u := {| url.Scheme := url.Scheme u; url.Host := url.Host u;
                  url.Path := TrimSuffix (url.Path u) "/";
                  url.ForceQuery := url.ForceQuery u;
                  url.RawQuery := url.RawQuery u |} in
      url.URL_String u
  end.

(** ** The search provider (package [search]) *)

Module search.

Record Result := {
  Title : string;
  URL : string;
  Content : string;
  FullContent : string
}.

(** The provider behind the [Searcher] interface, as oracles: the answer to
    a call may depend on the number of calls the run has made to the outside
    so far. [FetchPageContent] is present when the provider also implements
    [ContentFetcher]. *)
Record Searcher := {
  Search : nat → string → result (list Result);
  SearchWithPage : nat → string → nat → result (list Result);
  FetchPageContent : option (nat → string → nat → result string)
}.

End search.

(** A call that leaves the process: it is the next call of the run. *)
Definition external {A : Type} (f : nat → A) : LLM A := λ n, Some (f n, S n).

(** ** The agent's run state *)

Record Source := { Title : string; URL : string }.

(** The fields of [DeepResearcher] that a run mutates. The mutex [mu]
    guards them; [searchWithPagination] runs its queries one after the
    other, so every access is already sequential. *)
Record Agent := {
  sources : list Source;
  seenURLs : gset string
}.

(** [summarizePage]. *)
Definition summarizePage `{U : !Unicode} (chat : ChatOracle)
    (url title content : string) : LLM string :=
  if decide (len content < 100) then mret content
  else
    let prompt :=
      "Summarize this webpage content in 2-3 sentences. Extract ONLY specific facts, prices, addresses, dates, or key data points. Be extremely concise."
      +:+ nl +:+ nl +:+ "Title: " +:+ title +:+ nl +:+ "URL: " +:+ url +:+ nl
      +:+ "Content:" +:+ nl +:+ content +:+ nl +:+ nl
      +:+ "Summary (2-3 sentences, facts only):" in
    r ← Chat chat [ {| Role := "user"; Content := prompt |} ];
    match r with
    | Err _ => mret (slice_to content (len content `min` 300))
    | Ok resp => mret (stripThinkTags resp)
    end.

(** ** [searchWithPagination] *)

(** The locals of [searchWithPagination] together with the agent it
    mutates. [acc_seen] is an observation added to the embedding: the
    results the inner loop has gone through, in order. *)
Record SearchAcc := {
  acc_agent : Agent;
  acc_results : string;
  acc_newURLs : nat;
  acc_duplicates : nat;
  acc_seen : list search.Result
}.

(** [a.searcher.(paginatedSearcher)]: the static type [search.Searcher]
    already has the method [SearchWithPage], so the assertion holds. *)
Definition canPaginate (s : search.Searcher) : bool := true.

Definition snippetEntry (r : search.Result) : string :=
  "- " +:+ search.Title r +:+ nl +:+ "  URL: " +:+ search.URL r +:+ nl
  +:+ "  Snippet: " +:+ search.Content r +:+ nl +:+ nl.

Definition listingEntry (r : search.Result) (summary : string) : string :=
  "- LISTING: " +:+ search.Title r +:+ nl +:+ "  URL: " +:+ search.URL r +:+ nl
  +:+ "  Details: " +:+ summary +:+ nl +:+ nl.

(** The text written for a first-seen result. *)
Definition resultEntry `{U : !Unicode} (cfg : Config) (chat : ChatOracle)
    (searcher : search.Searcher) (r : search.Result) : LLM string :=
  match search.FetchPageContent searcher with
  | Some fetch =>
      if DeepMode cfg then
        content ← external (λ n, fetch n (search.URL r) 6000);
        match content with
        | Ok content =>
            if decide (50 < len content) then
              summary ← summarizePage chat (search.URL r) (search.Title r)
                          content;
              mret (listingEntry r summary)
            else mret (snippetEntry r)
        | Err _ => mret (snippetEntry r)
        end
      else mret (snippetEntry r)
  | None => mret (snippetEntry r)
  end.

(** The loop [for _, r := range searchResults]. *)
Fixpoint processResults `{U : !Unicode} (cfg : Config) (beyond : string → string)
    (chat : ChatOracle) (searcher : search.Searcher)
    (searchResults : list search.Result) (acc : SearchAcc) : LLM SearchAcc :=
  match searchResults with
  | [] => mret acc
  | r :: rest =>
      let normalizedURL := normalizeURL beyond (search.URL r) in
      let a := acc_agent acc in
      if decide (normalizedURL ∈ seenURLs a) then
        processResults cfg beyond chat searcher rest
          {| acc_agent := a; acc_results := acc_results acc;
             acc_newURLs := acc_newURLs acc;
             acc_duplicates := acc_duplicates acc + 1;
             acc_seen := acc_seen acc ++ [r] |}
      else
        let a := {| sources := sources a;
                    seenURLs := {[normalizedURL]} ∪ seenURLs a |} in
        entry ← resultEntry cfg chat searcher r;
        let a := {| sources := sources a ++
                      [{| Title := search.Title r; URL := search.URL r |}];
                    seenURLs := seenURLs a |} in
        processResults cfg beyond chat searcher rest
          {| acc_agent := a; acc_results := acc_results acc +:+ entry;
             acc_newURLs := acc_newURLs acc + 1;
             acc_duplicates := acc_duplicates acc;
             acc_seen := acc_seen acc ++ [r] |}
  end.

(** The loop [for page := 1; page <= maxPages; page++] of one query;
    [pagesLeft] is [maxPages + 1 - page]. *)
Fixpoint pageLoop `{U : !Unicode} (cfg : Config) (beyond : string → string)
    (chat : ChatOracle) (searcher : search.Searcher) (query : string)
    (pagesLeft page : nat) (acc : SearchAcc) : LLM SearchAcc :=
  match pagesLeft with
  | 0 => mret acc
  | S pagesLeft' =>
      let continue (answer : result (list search.Result)) : LLM SearchAcc :=
        match answer with
        | Err _ => mret acc
        | Ok [] => mret acc
        | Ok searchResults =>
            acc' ← processResults cfg beyond chat searcher searchResults acc;
            pageLoop cfg beyond chat searcher query pagesLeft' (S page) acc'
        end in
      if canPaginate searcher then
        answer ← external (λ n, search.SearchWithPage searcher n query page);
        continue answer
      else if decide (page = 1) then
        answer ← external (λ n, search.Search searcher n query);
        continue answer
      else mret acc
  end.

(** The loop [for _, query := range queries]. *)
Fixpoint queryLoop `{U : !Unicode} (cfg : Config) (beyond : string → string)
    (chat : ChatOracle) (searcher : search.Searcher) (queries : list string)
    (acc : SearchAcc) : LLM SearchAcc :=
  match queries with
  | [] => mret acc
  | query :: rest =>
      let maxPages := MaxPages cfg in
      let maxPages := if decide (maxPages = 0) then 100 else maxPages in
      acc' ← pageLoop cfg beyond chat searcher query maxPages 1 acc;
      queryLoop cfg beyond chat searcher rest acc'
  end.

(** [searchWithPagination]: the agent after the call and what the call
    returns ([results.String()], [newURLs], [duplicates]), with the results
    it went through. *)
Definition searchWithPagination `{U : !Unicode} (cfg : Config)
    (beyond : string → string) (chat : ChatOracle) (searcher : search.Searcher)
    (a : Agent) (queries : list string) : LLM SearchAcc :=
  queryLoop cfg beyond chat searcher queries
    {| acc_agent := a; acc_results := ""; acc_newURLs := 0;
       acc_duplicates := 0; acc_seen := [] |}.

(** The agent as [RunExhaustive] resets it at the start of a run. *)
Definition fresh_agent : Agent := {| sources := []; seenURLs := ∅ |}.

(** Successive calls of [searchWithPagination] on one agent, one per batch
    of queries, as the round loop of a run makes them; the outcome of each
    call is kept. *)
Fixpoint feed `{U : !Unicode} (cfg : Config) (beyond : string → string)
    (chat : ChatOracle) (searcher : search.Searcher) (a : Agent)
    (batches : list (list string)) : LLM (Agent * list SearchAcc) :=
  match batches with
  | [] => mret (a, [])
  | queries :: rest =>
      out ← searchWithPagination cfg beyond chat searcher a queries;
      r ← feed cfg beyond chat searcher (acc_agent out) rest;
      mret (r.1, out :: r.2)
  end.

(** The deduplication invariant of an agent: [seenURLs] is the set of the
    normalized URLs of [sources], and no two sources share one. *)
Definition agent_consistent (beyond : string → string) (a : Agent) : Prop :=
  seenURLs a = list_to_set (normalizeURL beyond ∘ URL <$> sources a)
  ∧ NoDup (normalizeURL beyond ∘ URL <$> sources a).

(** A provider whose first page for any query holds one page under two
    URLs, with and without a tracking parameter, and whose further pages are
    empty; it does not fetch content. *)
Definition tracked_result : search.Result :=
  {| search.Title := "A"; search.URL := "http://x.com/a?utm_source=y";
     search.Content := "from a campaign"; search.FullContent := "" |}.

Definition plain_result : search.Result :=
  {| search.Title := "A"; search.URL := "http://x.com/a";
     search.Content := "direct"; search.FullContent := "" |}.

Definition searcher_two_urls : search.Searcher :=
  {| search.Search := λ _ _, Ok [tracked_result; plain_result];
     search.SearchWithPage := λ _ _ page,
       if decide (page = 1) then Ok [tracked_result; plain_result] else Ok [];
     search.FetchPageContent := None |}.

(** ** Query expansion *)

(** [QueryExpansion]. [Synonyms] lists the entries of the Go map in the
    order a [range] over it visits them; nothing below depends on that
    order. *)
Record QueryExpansion := {
  Synonyms : list (string * list string);
  Platforms : list string
}.

Definition maxQueries : nat := 150.

(** The order in which a [range] over a [map[string]bool] visits its keys.
    Go leaves it unspecified and varies it from one loop to the next: it is
    an oracle, [fair] when it visits every key once. One value of this type
    is the order of one execution of the loop; two executions, even over the
    same keys, are two values. *)
Definition MapRange : Type := gset string → list string.

Definition fair (range : MapRange) : Prop := ∀ m, range m ≡ₚ elements m.

(** Step 1: the base queries of at most 60 bytes. *)
Definition addBaseQueries (baseQueries : list string) (expanded : gset string)
    : gset string :=
  foldl (λ expanded q,
      if decide (len q <= 60) then {[q]} ∪ expanded else expanded)
    expanded baseQueries.

(** Step 2: each base query of at most 40 bytes behind each non-empty
    platform prefix. *)
Definition addPlatformQueries (baseQueries platforms : list string)
    (expanded : gset string) : gset string :=
  foldl (λ expanded q,
      if decide (40 < len q) then expanded
      else
        foldl (λ expanded platform,
            if decide (platform ≠ "") then
              let newQuery := platform +:+ " " +:+ q in
              {[newQuery]} ∪ expanded
            else expanded)
          expanded platforms)
    expanded baseQueries.

(** Step 3: the synonym variants, without platform prefix. *)
Definition synonymVariants `{U : !Unicode} (baseQueries : list string)
    (synonyms : list (string * list string)) : gset string :=
  foldl (λ synonymQueries q,
      if decide (50 < len q) then synonymQueries
      else
        let lowerQ := ToLower q in
        foldl (λ synonymQueries entry,
            let '(word, syns) := entry in
            let wordLower := ToLower word in
            if Contains lowerQ wordLower then
              foldl (λ synonymQueries syn,
                  if decide (ToLower syn ≠ wordLower) then
                    let newQuery := ReplaceAll lowerQ wordLower (ToLower syn) in
                    if decide (len newQuery <= 60)
                    then {[newQuery]} ∪ synonymQueries
                    else synonymQueries
                  else synonymQueries)
                synonymQueries syns
            else synonymQueries)
          synonymQueries synonyms)
    ∅ baseQueries.

(** The map [expanded] when the cap is applied. *)
Definition expandedQueries `{U : !Unicode} (baseQueries : list string)
    (expansion : QueryExpansion) : gset string :=
  let expanded := addBaseQueries baseQueries ∅ in
  let expanded :=
    addPlatformQueries baseQueries (Platforms expansion) expanded in
  let synonymQueries := synonymVariants baseQueries (Synonyms expansion) in
  synonymQueries ∪ expanded.

(** Step 4, the loop [for q := range expanded] with its cap, over the keys
    in the order they are visited. *)
Fixpoint capLoop (keys : list string) (result : list string) : list string :=
  match keys with
  | [] => result
  | q :: rest =>
      let result := result ++ [q] in
      if decide (maxQueries <= length result) then result
      else capLoop rest result
  end.

(** [expandQueriesWithLLM]. *)
Definition expandQueriesWithLLM `{U : !Unicode} (range : MapRange)
    (baseQueries : list string) (expansion : QueryExpansion) : list string :=
  capLoop (range (expandedQueries baseQueries expansion)) [].

(** Test doubles for the expansion: a platform prefix of 70 bytes, and 151
    distinct short seed queries. *)
Definition long_platform : string := "site:" +:+ repeat_byte "w" 61 +:+ ".com".

Definition many_seeds : list string :=
  (λ i, "q" +:+ pretty i) <$> seq 0 151.

(** A plan of the size the planning prompt asks for, 25 short seed queries,
    with six platforms; and an order that visits the keys with a [site:]
    prefix before the others. *)
Definition plan_seeds : list string :=
  (λ i, "q" +:+ pretty i) <$> seq 0 25.

Definition six_platforms : list string :=
  (λ i, "site:p" +:+ pretty i +:+ ".com") <$> seq 0 6.

Definition prefixed_first : MapRange :=
  λ m, filter (λ q, HasPrefix q "site:" = true) (elements m)
       ++ filter (λ q, ¬ (HasPrefix q "site:" = true)) (elements m).

(** ** [RunExhaustive] *)

Record ResearchPlan := {
  ClarifyingQuestions : list string;
  UnderstandingSummary : string;
  ResearchSteps : list string;
  ExpectedOutcome : string;
  SearchQueries : list string
}.

Record ResearchResult := {
  Report : string;
  Sources : list Source
}.

(** The context a run starts from. *)
Definition initialContext (topic : string) (plan : ResearchPlan) : string :=
  "User Query: " +:+ topic +:+ nl +:+ nl +:+ "Research Plan:" +:+ nl
  +:+ "- Understanding: " +:+ UnderstandingSummary plan +:+ nl
  +:+ "- Expected Outcome: " +:+ ExpectedOutcome plan +:+ nl +:+ nl
  +:+ "Knowledge gathered:" +:+ nl.

(** The locals of the round loop together with the agent. *)
Record RoundState := {
  rs_agent : Agent;
  rs_context : string;
  rs_queryIndex : nat;
  rs_totalURLsFound : nat;
  rs_totalDuplicates : nat
}.

(** [plan.SearchQueries[queryIndex:endIndex]] for the next round. *)
Definition roundQueriesOf (cfg : Config) (queries : list string)
    (queryIndex : nat) : list string * nat :=
  let queriesPerRound := ParallelQuery cfg in
  let totalQueries := length queries in
  let endIndex := queryIndex + queriesPerRound in
  let endIndex := if decide (totalQueries < endIndex) then totalQueries
                  else endIndex in
  (take (endIndex - queryIndex) (drop queryIndex queries), endIndex).

(** [researchContext] with the findings of a round appended. *)
Definition appendRound (researchContext : string) (round : nat)
    (roundResults : string) : string :=
  if decide (roundResults ≠ "") then
    researchContext +:+ nl +:+ "--- Round " +:+ pretty (round + 1)
    +:+ " Results ---" +:+ nl +:+ roundResults
  else researchContext.

(** The compression check at the end of a round: on a failure the round
    goes on with the context as it was. *)
Definition compressIfLarge `{U : !Unicode} (cfg : Config) (chat : ChatOracle)
    (fuel : nat) (researchContext : string) : LLM string :=
  let maxChars := maxContextChars cfg in
  let compressionThreshold := maxChars / 2 in
  if decide (compressionThreshold < len researchContext) then
    r ← compressContext cfg chat fuel researchContext (1 # 2);
    match r with
    | (_, Some _) => mret researchContext
    | (compressed, None) => mret compressed
    end
  else mret researchContext.

(** The loop [for round := 0; round < MaxLoops && queryIndex < totalQueries;
    round++]; [roundsLeft] is [MaxLoops - round]. *)
Fixpoint roundLoop `{U : !Unicode} (cfg : Config) (beyond : string → string)
    (chat : ChatOracle) (searcher : search.Searcher) (fuel : nat)
    (queries : list string) (roundsLeft round : nat) (st : RoundState)
    : LLM RoundState :=
  match roundsLeft with
  | 0 => mret st
  | S roundsLeft' =>
      if decide (rs_queryIndex st < length queries) then
        let '(roundQueries, queryIndex) :=
          roundQueriesOf cfg queries (rs_queryIndex st) in
        out ← searchWithPagination cfg beyond chat searcher (rs_agent st)
                roundQueries;
        let researchContext :=
          appendRound (rs_context st) round (acc_results out) in
        researchContext ← compressIfLarge cfg chat fuel researchContext;
        let st' :=
          {| rs_agent := acc_agent out; rs_context := researchContext;
             rs_queryIndex := queryIndex;
             rs_totalURLsFound := rs_totalURLsFound st + acc_newURLs out;
             rs_totalDuplicates :=
               rs_totalDuplicates st + acc_duplicates out |} in
        let currentUniqueCount := length (sources (acc_agent out)) in
        if decide (MinResults cfg <= currentUniqueCount) then mret st'
        else roundLoop cfg beyond chat searcher fuel queries roundsLeft'
               (S round) st'
      else mret st
  end.

(** [RunExhaustive]. *)
Definition RunExhaustive `{U : !Unicode} (cfg : Config)
    (beyond : string → string) (chat : ChatOracle)
    (searcher : search.Searcher) (fuel : nat) (topic : string)
    (plan : ResearchPlan) : LLM (result ResearchResult) :=
  if decide (length (SearchQueries plan) = 0) then
    mret (Err "no search queries in plan - use CreatePlanExhaustive")
  else
    st ← roundLoop cfg beyond chat searcher fuel (SearchQueries plan)
           (MaxLoops cfg) 0
           {| rs_agent := fresh_agent;
              rs_context := initialContext topic plan;
              rs_queryIndex := 0; rs_totalURLsFound := 0;
              rs_totalDuplicates := 0 |};
    r ← writeReport cfg chat fuel topic (rs_context st);
    match r.1 with
    | Err e => mret (Err e)
    | Ok report =>
        mret (Ok {| Report := report; Sources := sources (rs_agent st) |})
    end.

(** ** Cancellation: [RunExhaustiveWithContext]

    The server starts a run through [RunExhaustiveWithContext(ctx, topic,
    plan)]; the file that defines it is not among the sources. The
    definitions of this part follow the specification: they are
    [searchWithPagination] and [RunExhaustive] as embedded above, with the
    cancellation token polled before every page and before every round.
    A poll is a call to the outside like any other: the token answers the
    [n]-th call of the run. *)

Definition CancelToken : Type := nat → bool.

(** What a run did, in order: polls of the token with their answers, rounds
    started, pages requested, and the report generation. An observation
    added to the embedding. *)
Inductive event :=
| EvPoll (cancelled : bool)
| EvRound (round : nat)
| EvPage (query : string) (page : nat)
| EvReport.

#[global] Instance event_eq_dec : EqDecision event.
Proof. solve_decision. Defined.

Record CtxAcc := {
  cx_acc : SearchAcc;
  cx_log : list event;
  cx_cancelled : bool
}.

(** Modelled from the spec: the per-page loop of the executor of
    [RunExhaustiveWithContext], absent from src/. It is [pageLoop] with the
    token checked at page granularity: once cancellation is observed no new
    page is started. *)
Fixpoint pageLoopCtx `{U : !Unicode} (cfg : Config) (beyond : string → string)
    (chat : ChatOracle) (searcher : search.Searcher) (token : CancelToken)
    (query : string) (pagesLeft page : nat) (cx : CtxAcc) : LLM CtxAcc :=
  match pagesLeft with
  | 0 => mret cx
  | S pagesLeft' =>
      cancelled ← external token;
      let log := cx_log cx ++ [EvPoll cancelled] in
      if cancelled then
        mret {| cx_acc := cx_acc cx; cx_log := log; cx_cancelled := true |}
      else
        answer ← external (λ n, search.SearchWithPage searcher n query page);
        let log := log ++ [EvPage query page] in
        match answer with
        | Err _ | Ok [] =>
            mret {| cx_acc := cx_acc cx; cx_log := log;
                    cx_cancelled := false |}
        | Ok searchResults =>
            acc' ← processResults cfg beyond chat searcher searchResults
                     (cx_acc cx);
            pageLoopCtx cfg beyond chat searcher token query pagesLeft'
              (S page)
              {| cx_acc := acc'; cx_log := log; cx_cancelled := false |}
        end
  end.

(** Modelled from the spec: the per-query loop of the executor of
    [RunExhaustiveWithContext], absent from src/. It is [queryLoop]; a
    cancellation observed in a query ends the loop. *)
Fixpoint queryLoopCtx `{U : !Unicode} (cfg : Config) (beyond : string → string)
    (chat : ChatOracle) (searcher : search.Searcher) (token : CancelToken)
    (queries : list string) (cx : CtxAcc) : LLM CtxAcc :=
  match queries with
  | [] => mret cx
  | query :: rest =>
      let maxPages := MaxPages cfg in
      let maxPages := if decide (maxPages = 0) then 100 else maxPages in
      cx' ← pageLoopCtx cfg beyond chat searcher token query maxPages 1 cx;
      if cx_cancelled cx' then mret cx'
      else queryLoopCtx cfg beyond chat searcher token rest cx'
  end.

(** The locals of the cancellable round loop. *)
Record RoundCtxState := {
  rc_state : RoundState;
  rc_log : list event;
  rc_cancelled : bool
}.

(** Modelled from the spec: the round loop of [RunExhaustiveWithContext],
    absent from src/. It is [roundLoop] with the token checked between
    rounds; a cancellation observed between rounds or inside the executor
    ends the loop with the context and sources accumulated so far, the
    findings of the interrupted round included. *)
Fixpoint roundLoopCtx `{U : !Unicode} (cfg : Config) (beyond : string → string)
    (chat : ChatOracle) (searcher : search.Searcher) (token : CancelToken)
    (fuel : nat) (queries : list string) (roundsLeft round : nat)
    (rc : RoundCtxState) : LLM RoundCtxState :=
  match roundsLeft with
  | 0 => mret rc
  | S roundsLeft' =>
      let st := rc_state rc in
      if decide (rs_queryIndex st < length queries) then
        cancelled ← external token;
        let log := rc_log rc ++ [EvPoll cancelled] in
        if cancelled then
          mret {| rc_state := st; rc_log := log; rc_cancelled := true |}
        else
          let '(roundQueries, queryIndex) :=
            roundQueriesOf cfg queries (rs_queryIndex st) in
          cx ← queryLoopCtx cfg beyond chat searcher token roundQueries
                 {| cx_acc := {| acc_agent := rs_agent st; acc_results := "";
                                 acc_newURLs := 0; acc_duplicates := 0;
                                 acc_seen := [] |};
                    cx_log := log ++ [EvRound round];
                    cx_cancelled := false |};
          let out := cx_acc cx in
          let researchContext :=
            appendRound (rs_context st) round (acc_results out) in
          let st' (researchContext : string) :=
            {| rs_agent := acc_agent out; rs_context := researchContext;
               rs_queryIndex := queryIndex;
               rs_totalURLsFound := rs_totalURLsFound st + acc_newURLs out;
               rs_totalDuplicates :=
                 rs_totalDuplicates st + acc_duplicates out |} in
          if cx_cancelled cx then
            mret {| rc_state := st' researchContext; rc_log := cx_log cx;
                    rc_cancelled := true |}
          else
            researchContext ← compressIfLarge cfg chat fuel researchContext;
            let currentUniqueCount := length (sources (acc_agent out)) in
            let rc' := {| rc_state := st' researchContext;
                          rc_log := cx_log cx; rc_cancelled := false |} in
            if decide (MinResults cfg <= currentUniqueCount) then mret rc'
            else roundLoopCtx cfg beyond chat searcher token fuel queries
                   roundsLeft' (S round) rc'
      else mret rc
  end.

(** What a cancellable run hands back: Go's pair of a result and an error
    ([None] for [nil]; the caller in cmd/server/main.go reads the result
    next to the error), together with the state the loop ended in, what the
    run did, and the passes of the report ladder. *)
Record RunOutcome := {
  ro_result : ResearchResult;
  ro_error : option string;
  ro_final : RoundCtxState;
  ro_attempts : list attempt_record
}.

(** The log of a run that found no query in its plan. *)
Definition no_rounds : RoundCtxState :=
  {| rc_state := {| rs_agent := fresh_agent; rs_context := "";
                    rs_queryIndex := 0; rs_totalURLsFound := 0;
                    rs_totalDuplicates := 0 |};
     rc_log := []; rc_cancelled := false |}.

(** Modelled from the spec: [RunExhaustiveWithContext], absent from src/
    (cmd/server/main.go calls it). It is [RunExhaustive] over the
    cancellable loops: after the round loop, cancelled or not, report
    generation is attempted once, through [writeReport], over the context
    accumulated. A run that was not cancelled ends as [RunExhaustive] does:
    a failed report generation is the error of the run, returned with the
    zero result. A cancelled run is never a failure: it returns no error and
    a result with the sources collected so far and the report that was
    generated; when the generation fails the report is left empty, which the
    spec does not settle. *)
Definition RunExhaustiveWithContext `{U : !Unicode} (cfg : Config)
    (beyond : string → string) (chat : ChatOracle)
    (searcher : search.Searcher) (token : CancelToken) (fuel : nat)
    (topic : string) (plan : ResearchPlan) : LLM RunOutcome :=
  if decide (length (SearchQueries plan) = 0) then
    mret {| ro_result := {| Report := ""; Sources := [] |};
            ro_error :=
              Some "no search queries in plan - use CreatePlanExhaustive";
            ro_final := no_rounds; ro_attempts := [] |}
  else
    rc ← roundLoopCtx cfg beyond chat searcher token fuel (SearchQueries plan)
           (MaxLoops cfg) 0
           {| rc_state :=
                {| rs_agent := fresh_agent;
                   rs_context := initialContext topic plan;
                   rs_queryIndex := 0; rs_totalURLsFound := 0;
                   rs_totalDuplicates := 0 |};
              rc_log := []; rc_cancelled := false |};
    let rc := {| rc_state := rc_state rc; rc_log := rc_log rc ++ [EvReport];
                 rc_cancelled := rc_cancelled rc |} in
    r ← writeReport cfg chat fuel topic (rs_context (rc_state rc));
    match r.1 with
    | Err e =>
        if rc_cancelled rc then
          mret {| ro_result :=
                    {| Report := "";
                       Sources := sources (rs_agent (rc_state rc)) |};
                  ro_error := None; ro_final := rc; ro_attempts := r.2 |}
        else
          mret {| ro_result := {| Report := ""; Sources := [] |};
                  ro_error := Some e; ro_final := rc; ro_attempts := r.2 |}
    | Ok report =>
        mret {| ro_result :=
                  {| Report := report;
                     Sources := sources (rs_agent (rc_state rc)) |};
                ro_error := None; ro_final := rc; ro_attempts := r.2 |}
    end.

(** Test doubles for a cancelled run: a model with the default context of
    32768 tokens, a provider with twelve results on every page, a token
    cancelled from the fourth outside call on (after the first page of the
    first query has been requested), and a plan with two queries. *)
Definition cfg_default : Config :=
  {| MaxLoops := 5; ParallelQuery := 2; DeepMode := false;
     ResultLinks := false; SimpleMode := false; MinResults := 50;
     DelayMs := 0; MaxPages := 0; ContextLength := 32768 |}.

Definition twelve_results (query : string) (page : nat) : list search.Result :=
  (λ i, {| search.Title := "Listing " +:+ pretty i;
           search.URL := "http://x.com/" +:+ query +:+ "/" +:+ pretty page
                         +:+ "/" +:+ pretty i;
           search.Content := "two rooms"; search.FullContent := "" |})
  <$> seq 0 12.

Definition searcher_twelve : search.Searcher :=
  {| search.Search := λ _ query, Ok (twelve_results query 1);
     search.SearchWithPage := λ _ query page, Ok (twelve_results query page);
     search.FetchPageContent := None |}.

Definition token_after_first_page : CancelToken := λ n, bool_decide (3 <= n).

(** A model that answers with its reasoning and nothing after it. *)
Definition chat_think_only : ChatOracle :=
  λ _ _, Ok "<think>nothing to add</think>".

Definition plan_flats : ResearchPlan :=
  {| ClarifyingQuestions := []; UnderstandingSummary := "flats to rent";
     ResearchSteps := []; ExpectedOutcome := "a list of flats";
     SearchQueries := ["flats"; "rooms"] |}.

(** A log and the flag that goes with it agree: the report generation is not
    in the log yet, and the token was seen cancelled exactly when the flag is
    set, in which case that poll is the last event. *)
Definition log_ok (log : list event) (cancelled : bool) : Prop :=
  EvReport ∉ log
  ∧ if cancelled
    then ∃ log0, log = log0 ++ [EvPoll true] ∧ EvPoll true ∉ log0
    else EvPoll true ∉ log.

(** ** Observations on the chunks of [splitContextIntoChunks] *)

(** The chunks the loop cuts from [remaining]: none when nothing remains,
    the remainder itself when it fits, and otherwise the slice up to the
    break point of the window [remaining[:maxChunkSize]] followed by the
    chunks of what is left. *)
Inductive chunk_chain (maxChunkSize : nat) : string → list string → Prop :=
| chain_empty : chunk_chain maxChunkSize "" []
| chain_last remaining :
    0 < len remaining → len remaining <= maxChunkSize →
    chunk_chain maxChunkSize remaining [remaining]
| chain_cut remaining rest :
    maxChunkSize < len remaining →
    chunk_chain maxChunkSize
      (slice_from remaining
         (breakPointOf (slice_to remaining maxChunkSize) maxChunkSize)) rest →
    chunk_chain maxChunkSize remaining
      (slice_to remaining
         (breakPointOf (slice_to remaining maxChunkSize) maxChunkSize) :: rest).

(** ** More test doubles *)

(** A client that answers every request with a text longer than all it was
    sent: 200 bytes more than the messages hold together. *)
Definition chat_longer : ChatOracle :=
  λ _ messages,
    Ok (repeat_byte "x" (200 + list_sum (len ∘ Content <$> messages))).

(** ** Observations on [searchWithPagination] *)

(** The source recorded for a first-seen result. *)
Definition source_of (r : search.Result) : Source :=
  {| Title := search.Title r; URL := search.URL r |}.

(** [useDeepMode] is false: every first-seen result is written with its
    snippet. *)
Definition fast_mode (cfg : Config) (searcher : search.Searcher) : Prop :=
  DeepMode cfg = false ∨ search.FetchPageContent searcher = None.

(** The first occurrences among the results [rs] that come after the
    results [earlier]: a result is kept when its normalized URL is neither
    in [seen] nor the normalized URL of a result before it, in [earlier] or
    in [rs]. The results kept stay in the order they came. *)
Fixpoint first_occurrences_from (beyond : string → string) (seen : gset string)
    (earlier rs : list search.Result) : list search.Result :=
  match rs with
  | [] => []
  | r :: rest =>
      let u := normalizeURL beyond (search.URL r) in
      (if bool_decide
            (u ∉ seen ∧ u ∉ (normalizeURL beyond ∘ search.URL <$> earlier))
       then [r] else [])
      ++ first_occurrences_from beyond seen (earlier ++ [r]) rest
  end.

Definition first_occurrences (beyond : string → string) (seen : gset string)
    (rs : list search.Result) : list search.Result :=
  first_occurrences_from beyond seen [] rs.

(** [acc'] is [acc] after the inner loop went through the results [extra],
    of which [news], in the same order, were first seen: one source was
    appended and counted for each of them, the others were counted as
    duplicates, and in fast mode the text grew by the snippet entries of
    [news]; and [news] are the first occurrences among [extra] of the
    normalized URLs that [acc] had not seen. *)
Definition grew (cfg : Config) (beyond : string → string)
    (searcher : search.Searcher) (acc acc' : SearchAcc)
    (extra news : list search.Result) : Prop :=
  acc_seen acc' = acc_seen acc ++ extra
  ∧ sublist news extra
  ∧ sources (acc_agent acc') = sources (acc_agent acc) ++ (source_of <$> news)
  ∧ acc_newURLs acc' = acc_newURLs acc + length news
  ∧ acc_duplicates acc' + length news = acc_duplicates acc + length extra
  ∧ seenURLs (acc_agent acc')
      = seenURLs (acc_agent acc)
        ∪ list_to_set (normalizeURL beyond ∘ search.URL <$> news)
  ∧ NoDup (normalizeURL beyond ∘ search.URL <$> news)
  ∧ (∀ r, r ∈ news →
       normalizeURL beyond (search.URL r) ∉ seenURLs (acc_agent acc))
  ∧ (∀ r, r ∈ extra →
       normalizeURL beyond (search.URL r) ∈ seenURLs (acc_agent acc'))
  ∧ (fast_mode cfg searcher →
     acc_results acc'
     = acc_results acc +:+ concatenation (snippetEntry <$> news))
  ∧ news = first_occurrences beyond (seenURLs (acc_agent acc)) extra.

(** A provider that is unreachable. *)
Definition searcher_down : search.Searcher :=
  {| search.Search := λ _ _, Err "connection refused";
     search.SearchWithPage := λ _ _ _, Err "connection refused";
     search.FetchPageContent := None |}.

(** A plan with seven queries, and the same plan cut to six. *)
Definition plan_seven : ResearchPlan :=
  {| ClarifyingQuestions := []; UnderstandingSummary := "flats to rent";
     ResearchSteps := []; ExpectedOutcome := "a list of flats";
     SearchQueries := ["q1"; "q2"; "q3"; "q4"; "q5"; "q6"; "q7"] |}.

(** [plan] with its queries replaced. *)
Definition with_queries (plan : ResearchPlan) (queries : list string)
    : ResearchPlan :=
  {| ClarifyingQuestions := ClarifyingQuestions plan;
     UnderstandingSummary := UnderstandingSummary plan;
     ResearchSteps := ResearchSteps plan;
     ExpectedOutcome := ExpectedOutcome plan;
     SearchQueries := queries |}.

(** ** Observations on the query expansion *)

(** [x] is a candidate of the expansion: a base query of at most 60 bytes;
    or a base query of at most 40 bytes behind a non-empty platform and a
    space; or, for a base query of at most 50 bytes whose lower-case form
    contains the lower-case form of a word with synonyms, that form with the
    word replaced by the lower-case form of one of its synonyms (one that
    differs from the word), when the outcome has at most 60 bytes. *)
Definition candidate `{U : !Unicode} (baseQueries : list string)
    (expansion : QueryExpansion) (x : string) : Prop :=
  (x ∈ baseQueries ∧ len x <= 60)
  ∨ (∃ q p, q ∈ baseQueries ∧ len q <= 40 ∧ p ∈ Platforms expansion
            ∧ p ≠ "" ∧ x = p +:+ " " +:+ q)
  ∨ (∃ q word syns syn,
       q ∈ baseQueries ∧ len q <= 50 ∧ (word, syns) ∈ Synonyms expansion
       ∧ Contains (ToLower q) (ToLower word) = true
       ∧ syn ∈ syns ∧ ToLower syn ≠ ToLower word
       ∧ x = ReplaceAll (ToLower q) (ToLower word) (ToLower syn)
       ∧ len x <= 60).

(** A configuration whose rounds take no query. *)
Definition cfg_no_batch : Config :=
  {| MaxLoops := 3; ParallelQuery := 0; DeepMode := false;
     ResultLinks := false; SimpleMode := false; MinResults := 12;
     DelayMs := 0; MaxPages := 2; ContextLength := 100 |}.

(** ** [truncateQuery] *)

(** [truncateQuery]. [None] is the panic of [q[:maxLen-3]] for a [maxLen]
    below 3. *)
Definition truncateQuery (q : string) (maxLen : nat) : option string :=
  if decide (len q <= maxLen) then Some q
  else if decide (maxLen < 3) then None
  else Some (slice_to q (maxLen - 3) +:+ "...").

(** ** The command line (cmd/main.go) *)

(** The bytes the class [[a-zA-Z0-9_-]] holds. *)
Definition safe_byte (c : ascii) : bool :=
  url.is_letter c || url.is_digit c || bool_decide (c ∈ ["_"; "-"]%char).

(** [regexp.MustCompile(`[^a-zA-Z0-9_-]`).ReplaceAllString(s, "")]: every
    character outside the class goes. A character of more than one byte is
    outside the class, and so is a byte that is not valid UTF-8 (it is read
    as U+FFFD): the bytes that stay are the bytes of the class. *)
Fixpoint remove_unsafe (s : string) : string :=
  match s with
  | "" => ""
  | String c s' =>
      if safe_byte c then String c (remove_unsafe s') else remove_unsafe s'
  end.

(** [sanitizeFilename]. *)
Definition sanitizeFilename `{U : !Unicode} (s : string) : string :=
  let s := ReplaceAll s " " "_" in
  let s := remove_unsafe s in
  ToLower s.

(** One line of the bibliography, [fmt.Sprintf("%d. [%s](%s)\n", i+1,
    src.Title, src.URL)]. *)
Definition bibliographyEntry (i : nat) (src : Source) : string :=
  pretty (i + 1) +:+ ". [" +:+ Title src +:+ "](" +:+ URL src +:+ ")" +:+ nl.

(** The loop [for i, src := range result.Sources] of [main], with its map
    [seen]. *)
Fixpoint bibliographyLoop (sources : list Source) (i : nat)
    (seen : gset string) (finalOutput : string) : string :=
  match sources with
  | [] => finalOutput
  | src :: rest =>
      if decide (URL src ∈ seen) then
        bibliographyLoop rest (S i) seen finalOutput
      else
        bibliographyLoop rest (S i) ({[URL src]} ∪ seen)
          (finalOutput +:+ bibliographyEntry i src)
  end.

(** Step 7 of [main]: the report followed by the bibliography. *)
Definition finalOutputOf (result : ResearchResult) : string :=
  let finalOutput := Report result in
  let finalOutput :=
    finalOutput +:+ nl +:+ nl +:+ "---" +:+ nl +:+ nl +:+ "## Bibliography"
    +:+ nl +:+ nl in
  bibliographyLoop (Sources result) 0 ∅ finalOutput.

(** ** Observations on [normalizeURL] *)

(** A byte that is none of [#] and [?] and no control byte: the bytes of a
    URL without query and fragment. *)
Definition quiet_byte (c : ascii) : bool :=
  negb (bool_decide (c ∈ ["#"; "?"]%char))
  && negb (bool_decide (nat_of_ascii c < 32 ∨ nat_of_ascii c = 127)).

(** [c] is not the byte [d]. *)
Definition other_byte (d c : ascii) : bool := negb (bool_decide (c = d)).

(** ** Package [search]: telling category pages from item pages *)

Definition categoryIndicators : list string :=
  ["/category/"; "/categories/"; "/tag/"; "/tags/";
   "/search"; "/results"; "/browse"; "/list";
   "/page/"; "/p="; "page="; "pagina=";
   "/filter"; "/sort"; "/order";
   "/login"; "/register"; "/signup"; "/account";
   "/contact"; "/about"; "/help"; "/faq";
   "/terms"; "/privacy"; "/cookie"].

(** [isLikelyCategoryPage]: the loop over the indicators returns at the
    first one found. *)
Definition isLikelyCategoryPage `{U : !Unicode} (urlStr : string) : bool :=
  let lowerURL := ToLower urlStr in
  if existsb (λ indicator, Contains lowerURL indicator) categoryIndicators
  then true
  else if decide (2 < url.Count urlStr "&") then true
  else false.

(** ** Plans for the exhaustive mode *)

(** The double quote. *)
Definition dq : string := String (ascii_of_nat 34) "".

(** [strings.TrimPrefix]. *)
Definition TrimPrefix (s prefix : string) : string :=
  if HasPrefix s prefix then slice_from s (len prefix) else s.

(** [fmt]'s [%v] of a [[]string]: the elements between brackets, a space
    between any two. *)
Definition format_list (l : list string) : string :=
  "[" +:+ Join l " " +:+ "]".

(** [json.Unmarshal] into a [ResearchPlan] and into a [QueryExpansion]:
    functions of the bytes decoded, given from outside like the other
    libraries that are not embedded; an error carries its message. *)
Record JSON := {
  unmarshal_plan : string → result ResearchPlan;
  unmarshal_expansion : string → result QueryExpansion
}.

(** What both planning functions do to an answer before decoding it. *)
Definition cleanJSON `{U : !Unicode} (resp : string) : string :=
  let resp := stripThinkTags resp in
  let resp := TrimPrefix resp "```json" in
  let resp := TrimPrefix resp "```" in
  let resp := TrimSuffix resp "```" in
  TrimSpace resp.

(** The prompt of [generateQueryExpansions]. *)
Definition expansionPrompt (topic : string) (baseQueries : list string)
    : string :=
  "Analyze this research topic and base queries to generate search expansion data." +:+ nl
    +:+ nl
    +:+ "Topic: " +:+ dq +:+ topic +:+ dq +:+ nl
    +:+ "Base queries: " +:+ format_list baseQueries +:+ nl
    +:+ nl
    +:+ "Generate a JSON object with:" +:+ nl
    +:+ "1. " +:+ dq +:+ "synonyms" +:+ dq +:+ ": A map of key terms found in the queries to their synonyms/alternatives. Include:" +:+ nl
    +:+ "   - Different words meaning the same thing" +:+ nl
    +:+ "   - Abbreviations and full forms" +:+ nl
    +:+ "   - Singular/plural forms if relevant" +:+ nl
    +:+ "   - Industry-specific jargon alternatives" +:+ nl
    +:+ "   - Translations if multiple languages are relevant" +:+ nl
    +:+ nl
    +:+ "2. " +:+ dq +:+ "platforms" +:+ dq +:+ ": A list of relevant " +:+ dq +:+ "site:" +:+ dq +:+ " prefixes for websites that would have this type of information. Think about:" +:+ nl
    +:+ "   - What websites specialize in this topic?" +:+ nl
    +:+ "   - What marketplaces, directories, or databases cover this?" +:+ nl
    +:+ "   - What country/language-specific sites are relevant?" +:+ nl
    +:+ "   - Include general platforms like social media if relevant" +:+ nl
    +:+ nl
    +:+ "Examples:" +:+ nl
    +:+ "- For real estate: platforms might be [" +:+ dq +:+ "site:zillow.com" +:+ dq +:+ ", " +:+ dq +:+ "site:realtor.com" +:+ dq +:+ ", " +:+ dq +:+ "site:redfin.com" +:+ dq +:+ "]" +:+ nl
    +:+ "- For tech products: platforms might be [" +:+ dq +:+ "site:amazon.com" +:+ dq +:+ ", " +:+ dq +:+ "site:newegg.com" +:+ dq +:+ ", " +:+ dq +:+ "site:bestbuy.com" +:+ dq +:+ "]" +:+ nl
    +:+ "- For academic research: platforms might be [" +:+ dq +:+ "site:scholar.google.com" +:+ dq +:+ ", " +:+ dq +:+ "site:arxiv.org" +:+ dq +:+ ", " +:+ dq +:+ "site:researchgate.net" +:+ dq +:+ "]" +:+ nl
    +:+ "- For jobs: platforms might be [" +:+ dq +:+ "site:linkedin.com" +:+ dq +:+ ", " +:+ dq +:+ "site:indeed.com" +:+ dq +:+ ", " +:+ dq +:+ "site:glassdoor.com" +:+ dq +:+ "]" +:+ nl
    +:+ nl
    +:+ "Respond ONLY with valid JSON:" +:+ nl
    +:+ "{" +:+ nl
    +:+ "  " +:+ dq +:+ "synonyms" +:+ dq +:+ ": {" +:+ nl
    +:+ "    " +:+ dq +:+ "word1" +:+ dq +:+ ": [" +:+ dq +:+ "alt1" +:+ dq +:+ ", " +:+ dq +:+ "alt2" +:+ dq +:+ ", " +:+ dq +:+ "alt3" +:+ dq +:+ "]," +:+ nl
    +:+ "    " +:+ dq +:+ "word2" +:+ dq +:+ ": [" +:+ dq +:+ "alt1" +:+ dq +:+ ", " +:+ dq +:+ "alt2" +:+ dq +:+ "]" +:+ nl
    +:+ "  }," +:+ nl
    +:+ "  " +:+ dq +:+ "platforms" +:+ dq +:+ ": [" +:+ dq +:+ "site:example1.com" +:+ dq +:+ ", " +:+ dq +:+ "site:example2.com" +:+ dq +:+ "]" +:+ nl
    +:+ "}".

Definition expansionMessages (topic : string) (baseQueries : list string)
    : list Message :=
  [ {| Role := "system";
       Content := "You are a search optimization expert. Output only valid JSON. Be comprehensive with synonyms and platforms relevant to the specific topic and language." |};
    {| Role := "user"; Content := expansionPrompt topic baseQueries |} ].

(** [generateQueryExpansions]: an answer that does not decode gives the
    empty expansion, not an error. *)
Definition generateQueryExpansions `{U : !Unicode} (json : JSON)
    (chat : ChatOracle) (topic : string) (baseQueries : list string)
    : LLM (result QueryExpansion) :=
  r ← Chat chat (expansionMessages topic baseQueries);
  match r with
  | Err e => mret (Err e)
  | Ok resp =>
      let resp := cleanJSON resp in
      match unmarshal_expansion json resp with
      | Err _ => mret (Ok {| Synonyms := []; Platforms := [] |})
      | Ok expansion => mret (Ok expansion)
      end
  end.

(** The prompt of [CreatePlanExhaustive]. *)
Definition planPrompt (topic additionalContext : string) : string :=
  let contextInfo :=
    if decide (additionalContext ≠ "") then
      nl +:+ nl +:+ "Additional context from user:" +:+ nl
      +:+ additionalContext
    else "" in
  "You are a Deep Research AI planning an EXHAUSTIVE data collection task." +:+ nl
    +:+ nl
    +:+ "User's research request: " +:+ dq +:+ topic +:+ dq +:+ contextInfo +:+ nl
    +:+ nl
    +:+ "Your goal is to find AS MANY results as possible. Generate a research plan focused on comprehensive coverage." +:+ nl
    +:+ nl
    +:+ "Output a JSON object with:" +:+ nl
    +:+ "1. " +:+ dq +:+ "clarifying_questions" +:+ dq +:+ ": List of 2-3 questions about the search criteria" +:+ nl
    +:+ "2. " +:+ dq +:+ "understanding_summary" +:+ dq +:+ ": A 1-2 sentence summary of what data to collect" +:+ nl
    +:+ "3. " +:+ dq +:+ "research_steps" +:+ dq +:+ ": A list of 3-5 specific research steps" +:+ nl
    +:+ "4. " +:+ dq +:+ "expected_outcome" +:+ dq +:+ ": What the final data collection will contain" +:+ nl
    +:+ "5. " +:+ dq +:+ "search_queries" +:+ dq +:+ ": A list of 15-25 SHORT, SIMPLE search queries. CRITICAL RULES:" +:+ nl
    +:+ "   - Each query must be 2-5 words MAXIMUM" +:+ nl
    +:+ "   - Use simple keyword combinations, NOT full sentences" +:+ nl
    +:+ "   - DO NOT include numbers, prices, sizes, or complex filters" +:+ nl
    +:+ "   - DO NOT include " +:+ dq +:+ "site:" +:+ dq +:+ " prefixes" +:+ nl
    +:+ "   - Include variations: different word orders, singular/plural, abbreviations" +:+ nl
    +:+ "   - Use the language appropriate for the topic" +:+ nl
    +:+ nl
    +:+ "Respond ONLY with valid JSON:" +:+ nl
    +:+ "{" +:+ nl
    +:+ "  " +:+ dq +:+ "clarifying_questions" +:+ dq +:+ ": [" +:+ dq +:+ "question1" +:+ dq +:+ ", " +:+ dq +:+ "question2" +:+ dq +:+ "]," +:+ nl
    +:+ "  " +:+ dq +:+ "understanding_summary" +:+ dq +:+ ": " +:+ dq +:+ "..." +:+ dq +:+ "," +:+ nl
    +:+ "  " +:+ dq +:+ "research_steps" +:+ dq +:+ ": [" +:+ dq +:+ "step1" +:+ dq +:+ ", " +:+ dq +:+ "step2" +:+ dq +:+ ", " +:+ dq +:+ "step3" +:+ dq +:+ "]," +:+ nl
    +:+ "  " +:+ dq +:+ "expected_outcome" +:+ dq +:+ ": " +:+ dq +:+ "..." +:+ dq +:+ "," +:+ nl
    +:+ "  " +:+ dq +:+ "search_queries" +:+ dq +:+ ": [" +:+ dq +:+ "short query 1" +:+ dq +:+ ", " +:+ dq +:+ "short query 2" +:+ dq +:+ ", ...]" +:+ nl
    +:+ "}".

Definition planMessages (topic additionalContext : string) : list Message :=
  [ {| Role := "system";
       Content := "You are a research planning assistant. Output only valid JSON. Focus on generating diverse, comprehensive search queries without site: prefixes." |};
    {| Role := "user"; Content := planPrompt topic additionalContext |} ].

(** [CreatePlanExhaustive]. *)
Definition CreatePlanExhaustive `{U : !Unicode} (range : MapRange)
    (json : JSON) (chat : ChatOracle) (topic additionalContext : string)
    : LLM (result ResearchPlan) :=
  r ← Chat chat (planMessages topic additionalContext);
  match r with
  | Err e => mret (Err e)
  | Ok resp =>
      let resp := cleanJSON resp in
      match unmarshal_plan json resp with
      | Err e =>
          mret (Err ("failed to parse research plan: " +:+ e +:+
                     ". Response: " +:+ resp))
      | Ok plan =>
          if decide (0 < length (SearchQueries plan)) then
            x ← generateQueryExpansions json chat topic (SearchQueries plan);
            match x with
            | Err _ => mret (Ok plan)
            | Ok expansion =>
                mret (Ok (with_queries plan
                            (expandQueriesWithLLM range (SearchQueries plan)
                               expansion)))
            end
          else mret (Ok plan)
      end
  end.

(** Test doubles for planning: a decoder that finds one query of 70 bytes
    in any plan and cannot read any expansion. *)
Definition plan_long_query : ResearchPlan :=
  {| ClarifyingQuestions := []; UnderstandingSummary := "flats to rent";
     ResearchSteps := []; ExpectedOutcome := "a list of flats";
     SearchQueries := [repeat_byte "q" 70] |}.

Definition json_long_query : JSON :=
  {| unmarshal_plan := λ _, Ok plan_long_query;
     unmarshal_expansion := λ _, Err "unexpected end of JSON input" |}.

(** * Lemmas and theorems *)

(** ** Byte strings *)

Lemma app_cons (c : ascii) (s t : string) :
  String c s +:+ t = String c (s +:+ t).
Proof. reflexivity. Qed.

Lemma app_empty_l (t : string) : "" +:+ t = t.
Proof. reflexivity. Qed.

Lemma len_app (s t : string) : len (s +:+ t) = len s + len t.
Proof.
  induction s as [|c s IH]; [done|]. rewrite app_cons. simpl. by rewrite IH.
Qed.

Lemma app_empty_r (s : string) : s +:+ "" = s.
Proof. induction s as [|c s IH]; [done|]. by rewrite app_cons, IH. Qed.

Lemma app_assoc_str (s t u : string) : (s +:+ t) +:+ u = s +:+ t +:+ u.
Proof. induction s as [|c s IH]; [done|]. by rewrite !app_cons, IH. Qed.

Lemma len_zero_empty (s : string) : len s = 0 → s = "".
Proof. by destruct s. Qed.

Lemma len_slice_to (s : string) (n : nat) : len (slice_to s n) = n `min` len s.
Proof.
  revert s; induction n as [|n IH]; intros [|c s]; simpl; try done.
  by rewrite IH.
Qed.

Lemma len_slice_from (s : string) (n : nat) : len (slice_from s n) = len s - n.
Proof.
  revert s; induction n as [|n IH]; intros [|c s]; simpl; try done.
Qed.

Lemma slice_to_from (s : string) (n : nat) : slice_to s n +:+ slice_from s n = s.
Proof.
  revert s; induction n as [|n IH]; intros [|c s]; simpl; try done.
  by rewrite app_cons, IH.
Qed.

Lemma HasPrefix_len (s p : string) : HasPrefix s p = true → len p <= len s.
Proof.
  revert s; induction p as [|a p IH]; intros [|c s]; simpl; try done; try lia.
  case_decide; [|done]. intros Hp. apply IH in Hp. lia.
Qed.

Lemma LastIndex_bound (s sub : string) (i : nat) :
  LastIndex s sub = Some i → i + len sub <= len s.
Proof.
  revert i; induction s as [|c s IH]; intros i.
  - destruct sub; simpl; [|done]. intros [= <-]. lia.
  - cbn [LastIndex]. destruct (LastIndex s sub) as [j|] eqn:E.
    + intros [= <-]. specialize (IH j eq_refl). simpl. lia.
    + destruct (HasPrefix (String c s) sub) eqn:P; [|done].
      intros [= <-]. apply HasPrefix_len in P. lia.
Qed.

Lemma concat_app_str (l1 l2 : list string) :
  concatenation (l1 ++ l2) = concatenation l1 +:+ concatenation l2.
Proof.
  induction l1 as [|x l1 IH]; simpl; [done|].
  by rewrite IH, app_assoc_str.
Qed.

(** ** Chunking *)

Lemma searchStartOf_le (m : nat) : searchStartOf m <= m.
Proof. unfold searchStartOf. apply Nat.Div0.div_le_upper_bound. lia. Qed.

(** The break point of a full chunk lies in [1 .. maxChunkSize]. *)
Lemma breakPointOf_range (chunk : string) (m : nat) :
  1 <= m → len chunk = m → 1 <= breakPointOf chunk m <= m.
Proof.
  intros Hm Hlen. unfold breakPointOf.
  pose proof (searchStartOf_le m) as Hss.
  pose proof (len_slice_from chunk (searchStartOf m)) as Htail.
  repeat match goal with
  | |- context [LastIndex ?t ?sep] =>
      let E := fresh "E" in
      destruct (LastIndex t sep) eqn:E;
      [apply LastIndex_bound in E; simpl in E; lia|]
  end.
  lia.
Qed.

(** The loop, started with more fuel than bytes remain, ends; what it
    appends reassembles to [remaining], fits the size, and has no empty
    chunk. *)
Lemma splitLoop_spec (m : nat) (Hm : 1 <= m) (fuel : nat) :
  ∀ (remaining : string) (chunks : list string),
    len remaining < fuel →
    ∃ out, splitLoop fuel remaining m chunks = Some (chunks ++ out)
      ∧ concatenation out = remaining
      ∧ Forall (λ c, len c <= m) out
      ∧ Forall (λ c, c ≠ "") out.
Proof.
  induction fuel as [|fuel IH]; intros remaining chunks Hfuel; [lia|].
  simpl. case_decide as Hpos.
  - case_decide as Hfit.
    + exists [remaining]. simpl. rewrite app_empty_r.
      repeat split; try done.
      * by constructor.
      * constructor; [|done]. intros ->. simpl in Hpos. lia.
    + set (bp := breakPointOf (slice_to remaining m) m).
      assert (1 <= bp <= m) as Hbp.
      { apply breakPointOf_range; [done|]. rewrite len_slice_to. lia. }
      destruct (IH (slice_from remaining bp) (chunks ++ [slice_to remaining bp]))
        as (out & Hrun & Hcat & Hsz & Hne).
      { rewrite len_slice_from. lia. }
      exists (slice_to remaining bp :: out).
      rewrite Hrun, <- app_assoc. simpl. rewrite Hcat, slice_to_from.
      repeat split; try done.
      * constructor; [|done]. rewrite len_slice_to. lia.
      * constructor; [|done]. intros E.
        assert (len (slice_to remaining bp) = 0) as E0 by by rewrite E.
        rewrite len_slice_to in E0. lia.
  - exists []. rewrite app_nil_r. repeat split; try done.
    symmetry. apply len_zero_empty. lia.
Qed.

(** C4: for every text and every chunk size [S >= 1],
    [splitContextIntoChunks] returns chunks whose concatenation, in order,
    is the text, and none of which is longer than [S]. *)
Theorem splitContextIntoChunks_reconstructs (text : string) (S : nat) :
  1 <= S →
  ∃ chunks, splitContextIntoChunks text S = Some chunks
    ∧ concatenation chunks = text
    ∧ Forall (λ c, len c <= S) chunks.
Proof.
  intros HS. unfold splitContextIntoChunks. case_decide as Hfit.
  - exists [text]. simpl. rewrite app_empty_r. repeat split; try done.
    by constructor.
  - destruct (splitLoop_spec S HS (Datatypes.S (len text)) text [])
      as (out & Hrun & Hcat & Hsz & _); [lia|].
    exists out. by rewrite Hrun.
Qed.

Lemma splitContextIntoChunks_reconstructs_witness :
  1 <= 4 ∧ ∃ chunks, splitContextIntoChunks "ab cd efgh" 4 = Some chunks
    ∧ concatenation chunks = "ab cd efgh"
    ∧ Forall (λ c, len c <= 4) chunks.
Proof.
  split; [lia|]. apply (splitContextIntoChunks_reconstructs "ab cd efgh" 4). lia.
Defined.

(** More fuel never changes an answer already reached. *)
Lemma splitLoop_fuel_mono (m fuel : nat) :
  ∀ (fuel' : nat) (remaining : string) (chunks out : list string),
    fuel <= fuel' →
    splitLoop fuel remaining m chunks = Some out →
    splitLoop fuel' remaining m chunks = Some out.
Proof.
  induction fuel as [|fuel IH]; intros fuel' remaining chunks out Hle; [done|].
  destruct fuel' as [|fuel']; [lia|]. simpl.
  repeat case_decide; try done. apply IH. lia.
Qed.

(** With a chunk size of 0 the loop makes no progress on a non-empty text:
    no amount of fuel yields a result. *)
Lemma splitLoop_zero_diverges (fuel : nat) :
  ∀ (remaining : string) (chunks : list string),
    0 < len remaining → splitLoop fuel remaining 0 chunks = None.
Proof.
  induction fuel as [|fuel IH]; intros remaining chunks Hpos; [done|].
  simpl. case_decide; [|lia]. case_decide; [lia|].
  apply IH. by destruct remaining.
Qed.

(** C10 as stated fails on the empty text: the early return hands back the
    text itself as the only chunk, and that chunk is empty. *)
Lemma splitContextIntoChunks_empty_text_empty_chunk :
  ¬ (∀ chunks, splitContextIntoChunks "" 1 = Some chunks →
               Forall (λ c, c ≠ "") chunks).
Proof.
  intros H. specialize (H [""] eq_refl).
  by apply Forall_cons_1 in H as [Hne _].
Qed.

(** C10 (amended): for every text and every [maxChunkSize >= 1] the
    function returns (the loop ends whatever fuel beyond the text length it
    is given), every iteration's break point is strictly positive and so
    strictly shortens the remaining text, and for a non-empty text every
    chunk returned is non-empty. *)
Theorem splitContextIntoChunks_terminates (text : string) (maxChunkSize : nat) :
  1 <= maxChunkSize →
  (∃ chunks, splitContextIntoChunks text maxChunkSize = Some chunks
     ∧ (∀ fuel, len text < fuel → maxChunkSize < len text →
          splitLoop fuel text maxChunkSize [] = Some chunks)
     ∧ (text ≠ "" → Forall (λ c, c ≠ "") chunks))
  ∧ (∀ remaining, maxChunkSize < len remaining →
       let breakPoint :=
         breakPointOf (slice_to remaining maxChunkSize) maxChunkSize in
       0 < breakPoint
       ∧ len (slice_from remaining breakPoint) < len remaining).
Proof.
  intros Hm. split.
  - unfold splitContextIntoChunks. case_decide as Hfit.
    + exists [text]. repeat split; [lia|].
      intros Hne. by constructor.
    + destruct (splitLoop_spec maxChunkSize Hm (S (len text)) text [])
        as (out & Hrun & _ & _ & Hne); [lia|].
      exists out. rewrite Hrun. repeat split; [|done].
      intros fuel Hfuel _.
      apply (splitLoop_fuel_mono maxChunkSize (S (len text))); [lia|done].
  - intros remaining Hlong breakPoint.
    assert (1 <= breakPoint <= maxChunkSize) as Hbp.
    { apply breakPointOf_range; [done|]. rewrite len_slice_to. lia. }
    rewrite len_slice_from. lia.
Qed.

Lemma splitContextIntoChunks_terminates_witness :
  1 <= 3 ∧
  ((∃ chunks, splitContextIntoChunks "one two three" 3 = Some chunks
     ∧ (∀ fuel, len "one two three" < fuel → 3 < len "one two three" →
          splitLoop fuel "one two three" 3 [] = Some chunks)
     ∧ ("one two three" ≠ "" → Forall (λ c, c ≠ "") chunks))
  ∧ (∀ remaining, 3 < len remaining →
       let breakPoint := breakPointOf (slice_to remaining 3) 3 in
       0 < breakPoint
       ∧ len (slice_from remaining breakPoint) < len remaining)).
Proof.
  split; [lia|]. apply (splitContextIntoChunks_terminates "one two three" 3). lia.
Defined.


(** ** Direct compression *)

Ltac llm_unfold :=
  unfold mbind, mret, LLM_bind, LLM_ret, Chat, calls_so_far, diverge in *.

(** C9: [compressContextDirect] makes one [Chat] call and always returns;
    it returns an error exactly when that call fails or the cleaned answer
    is shorter than 200 bytes, and with an error it returns the input
    context unchanged. *)
Theorem compressContextDirect_error_iff `{U : !Unicode} (chat : ChatOracle)
    (context : string) (targetRatio : Q) (n : nat) :
  ∃ (text : string) (err : option string),
    compressContextDirect chat context targetRatio n = Some ((text, err), S n)
    ∧ (is_Some err ↔
         (∃ e, chat n (compressMessages context targetRatio) = Err e)
         ∨ (∃ resp, chat n (compressMessages context targetRatio) = Ok resp
                    ∧ len (TrimSpace (stripThinkTags resp)) < 200))
    ∧ (is_Some err → text = context).
Proof.
  unfold compressContextDirect. llm_unfold.
  destruct (chat n (compressMessages context targetRatio)) as [resp|e] eqn:E.
  - case_decide as Hsmall.
    + eexists _, _. split; [done|]. split; [|done].
      split; [|by eauto]. intros _. right. by exists resp.
    + eexists _, _. split; [done|]. split; [|by intros [? [=]]].
      split; [by intros [? [=]]|].
      intros [[e [=]]|[resp' [[= <-] Hlt]]]. lia.
  - eexists _, _. split; [done|]. split; [|done].
    split; [|by eauto]. intros _. left. by exists e.
Qed.


(** ** The retry ladder of [writeReport] *)

(** One pass of the loop: it records the pass and either ends the loop with
    the final answer or goes round again with the ceiling halved and the
    context it had put in the prompt. *)
Lemma writeReportLoop_step `{U : !Unicode} (cfg : Config) (chat : ChatOracle)
    (fuel : nat) (topic : string) (iterations attempt limit : nat)
    (ctx : string) (trace : list attempt_record) (n n' : nat)
    (res : result string) (trace' : list attempt_record) :
  writeReportLoop cfg chat fuel topic (S iterations) attempt limit ctx trace n
    = Some ((res, trace'), n') →
  ∃ r, pass_record cfg chat fuel topic attempt limit ctx r
    ∧ ((¬ retried r ∧ res = final_answer r ∧ trace' = trace ++ [r])
       ∨ (retried r ∧
          writeReportLoop cfg chat fuel topic iterations (S attempt)
            (limit / 2) (at_context r) (trace ++ [r]) (S (at_call r))
            = Some ((res, trace'), n'))).
Proof.
  cbn [writeReportLoop]. llm_unfold.
  assert (∀ e, bool_decide (attempt < maxRetries) && budget_looking e = false →
     ∀ r, at_attempt r = attempt → at_outcome r = Err e → ¬ retried r) as Hno.
  { intros e Hb r Ha Ho [Hlt (e2 & He2 & Hb2)].
    rewrite Ho in He2. injection He2 as <-.
    rewrite Hb2, andb_true_r in Hb. apply bool_decide_eq_false in Hb.
    rewrite Ha in Hlt. done. }
  assert (∀ e, bool_decide (attempt < maxRetries) && budget_looking e = true →
     ∀ r, at_attempt r = attempt → at_outcome r = Err e → retried r) as Hyes.
  { intros e Hb r Ha Ho. apply andb_prop in Hb as [Hlt Hb].
    apply bool_decide_eq_true in Hlt. split; [by rewrite Ha|]. by exists e. }
  assert (∀ resp r, at_outcome r = Ok resp → ¬ retried r) as Hok.
  { intros resp r Ho [_ (e & He & _)]. congruence. }
  destruct (decide (limit < len ctx)) as [Hlong|Hlong].
  - destruct (compressContext cfg chat fuel ctx _ n)
      as [[[out err] n1]|] eqn:Hc; [|done].
    assert (∃ n0 out' err',
      compressContext cfg chat fuel ctx
        ((1 # 2) / inject_Z (Z.of_nat attempt))%Q n0 = Some ((out', err'), n1)
      ∧ bool_decide (is_Some err) = bool_decide (is_Some err')
      ∧ out = out') as Hcall by (by exists n, out, err).
    clear Hc.
    destruct err as [e|]; cbn [fst snd];
      (destruct (chat n1 _) as [resp|e'] eqn:Hchat;
       [|destruct (bool_decide (attempt < maxRetries) && budget_looking e')
           eqn:Hb];
       intros Hrun;
       lazymatch type of Hrun with context [_ ++ [?r]] => exists r end;
       (split;
        [ repeat split; cbn; try done;
          destruct Hcall as (n0 & out' & err' & Hc & Hf & ->);
          exists n0, out', err'; by rewrite Hc, <- Hf
        | ]);
       [ left; injection Hrun as <- <- <-; split; [by eapply Hok|done]
       | right; split; [by eapply Hyes|done]
       | left; injection Hrun as <- <- <-; split; [by eapply Hno|done] ]).
  - cbn [fst snd].
    destruct (chat n _) as [resp|e'] eqn:Hchat;
      [|destruct (bool_decide (attempt < maxRetries) && budget_looking e')
          eqn:Hb];
      intros Hrun;
      lazymatch type of Hrun with context [_ ++ [?r]] => exists r end;
      (split; [ repeat split; cbn; try done; lia | ]);
      [ left; injection Hrun as <- <- <-; split; [by eapply Hok|done]
      | right; split; [by eapply Hyes|done]
      | left; injection Hrun as <- <- <-; split; [by eapply Hno|done] ].
Qed.


(** Every run of the loop that returns has gone through the ladder. *)
Lemma writeReportLoop_ladder `{U : !Unicode} (cfg : Config) (chat : ChatOracle)
    (fuel : nat) (topic : string) (iterations : nat) :
  ∀ (attempt limit : nat) (ctx : string) (trace : list attempt_record)
    (n n' : nat) (res : result string) (trace' : list attempt_record),
    attempt + iterations = S maxRetries → 1 <= iterations →
    writeReportLoop cfg chat fuel topic iterations attempt limit ctx trace n
      = Some ((res, trace'), n') →
    ∃ new, trace' = trace ++ new
      ∧ ladder cfg chat fuel topic attempt limit ctx new res.
Proof.
  induction iterations as [|iterations IH];
    intros attempt limit ctx trace n n' res trace' Hsum Hpos Hrun; [lia|].
  apply writeReportLoop_step in Hrun as (r & Hr & [(Hnr & -> & ->)|[Hre Hrun]]).
  - exists [r]. split; [done|]. by constructor.
  - assert (1 <= iterations) as Hpos'.
    { destruct Hre as [Hlt _]. destruct Hr as (Ha & _). rewrite Ha in Hlt.
      unfold maxRetries in *. lia. }
    apply IH in Hrun as (new & -> & Hl); [|lia|done].
    exists (r :: new). rewrite <- app_assoc. split; [done|].
    by eapply ladder_retry.
Qed.

Section ladder_facts.
Context `{U : !Unicode} (cfg : Config) (chat : ChatOracle) (fuel : nat)
  (topic : string).

Lemma ladder_length attempt limit ctx new res :
  ladder cfg chat fuel topic attempt limit ctx new res →
  attempt <= maxRetries →
  1 <= length new ∧ attempt + length new <= S maxRetries.
Proof.
  induction 1 as [attempt limit ctx r Hr Hnr
                 |attempt limit ctx r rest res Hr Hre _ IH]; intros Hle; simpl.
  - lia.
  - destruct Hre as [Hlt _]. destruct Hr as (Ha & _). rewrite Ha in Hlt.
    specialize (IH ltac:(lia)). lia.
Qed.

(** The [i]-th pass on the ladder is pass number [attempt + i], and it is a
    pass of the loop for the ceiling and context it records. *)
Lemma ladder_lookup attempt limit ctx new res i r :
  ladder cfg chat fuel topic attempt limit ctx new res →
  new !! i = Some r →
  at_attempt r = attempt + i
  ∧ pass_record cfg chat fuel topic (attempt + i) (at_ceiling r)
      (at_context_in r) r.
Proof.
  intros Hl. revert i.
  induction Hl as [attempt limit ctx r0 Hr Hnr
                  |attempt limit ctx r0 rest res Hr Hre _ IH]; intros [|i] Hi;
    simplify_eq/=.
  - rewrite Nat.add_0_r. destruct Hr as (Ha & Hc & Hx & Hrest).
    split; [done|]. unfold pass_record. by rewrite Hc, Hx.
  - rewrite Nat.add_0_r. destruct Hr as (Ha & Hc & Hx & Hrest).
    split; [done|]. unfold pass_record. by rewrite Hc, Hx.
  - apply IH in Hi. by rewrite <- Nat.add_succ_comm.
Qed.

(** The first pass starts from the ceiling and context the ladder starts
    from. *)
Lemma ladder_first attempt limit ctx new res r :
  ladder cfg chat fuel topic attempt limit ctx new res →
  new !! 0 = Some r →
  at_ceiling r = limit ∧ at_context_in r = ctx.
Proof.
  intros Hl Hi. destruct Hl as [? ? ? r0 Hr ?|? ? ? r0 ? ? Hr ? ?];
    simplify_eq/=; by destruct Hr as (_ & ? & ? & _).
Qed.

(** A pass that has a successor was retried, and the successor starts with
    the ceiling halved and the context this pass had put in its prompt. *)
Lemma ladder_next attempt limit ctx new res i r r' :
  ladder cfg chat fuel topic attempt limit ctx new res →
  new !! i = Some r → new !! S i = Some r' →
  retried r ∧ at_ceiling r' = at_ceiling r / 2 ∧ at_context_in r' = at_context r.
Proof.
  intros Hl. revert i.
  induction Hl as [attempt limit ctx r0 Hr Hnr
                  |attempt limit ctx r0 rest res Hr Hre Hrest IH];
    intros [|i] Hi Hi'; simplify_eq/=.
  - split; [done|]. destruct (ladder_first _ _ _ _ _ _ Hrest Hi') as [-> ->].
    by destruct Hr as (_ & -> & _).
  - by eapply IH.
Qed.

(** A pass without a successor was not retried and gave the answer. *)
Lemma ladder_final attempt limit ctx new res i r :
  ladder cfg chat fuel topic attempt limit ctx new res →
  new !! i = Some r → new !! S i = None →
  ¬ retried r ∧ res = final_answer r.
Proof.
  intros Hl. revert i.
  induction Hl as [attempt limit ctx r0 Hr Hnr
                  |attempt limit ctx r0 rest res Hr Hre Hrest IH];
    intros [|i] Hi Hi'; simplify_eq/=.
  - done.
  - destruct (ladder_length _ _ _ _ _ Hrest) as [Hlen _].
    { destruct Hre as [Hlt _]. destruct Hr as (Ha & _). rewrite Ha in Hlt.
      unfold maxRetries in *. lia. }
    destruct rest; simpl in *; [lia|done].
  - by eapply IH.
Qed.

(** A retried pass has a successor. *)
Lemma ladder_retried_next attempt limit ctx new res i r :
  ladder cfg chat fuel topic attempt limit ctx new res →
  new !! i = Some r → retried r → is_Some (new !! S i).
Proof.
  intros Hl Hi Hre. destruct (new !! S i) as [r'|] eqn:Hn; [by eexists|].
  by destruct (ladder_final _ _ _ _ _ _ _ Hl Hi Hn).
Qed.

End ladder_facts.


(** The ratio [0.5 / attempt] on the three rungs. *)
Lemma ladder_ratio_values :
  ((1 # 2) / inject_Z (Z.of_nat 1) == 1 # 2)%Q
  ∧ ((1 # 2) / inject_Z (Z.of_nat 2) == 1 # 4)%Q
  ∧ ((1 # 2) / inject_Z (Z.of_nat 3) == 1 # 6)%Q.
Proof. repeat split. Qed.

(** C5: the reporting retry ladder. In every run of [writeReport] that
    returns there are between one and three report attempts, numbered 1, 2,
    3; the first starts with the context given and a ceiling of half the
    budget. An attempt whose context is longer than its ceiling calls
    [compressContext] on it, with target ratio 1/2, 1/4, 1/6 on attempt 1,
    2, 3, and puts in the prompt the output of that call, or, when the call
    returns an error, the context hard-truncated to the current ceiling; an
    attempt whose context is within its ceiling puts it in the prompt as it
    is. In every case the attempt goes on to ask for the report with the
    context it has. When the generation fails with an error whose message
    mentions context or token, and the attempt is not the third, the next
    attempt starts with the ceiling halved and the very context that was in
    the prompt. The attempt without a successor gives the result, and a
    third attempt that fails gives a terminal error. *)
Theorem writeReport_retry_ladder `{U : !Unicode} (cfg : Config) (chat : ChatOracle)
    (fuel : nat) (topic context : string) (n n' : nat)
    (res : result string) (trace : list attempt_record) :
  writeReport cfg chat fuel topic context n = Some ((res, trace), n') →
  1 <= length trace <= 3
  ∧ (∀ i r, trace !! i = Some r →
       at_attempt r = S i
       ∧ (∀ ratio failed, at_compress r = Some (ratio, failed) →
            (∃ q, [1 # 2; 1 # 4; 1 # 6] !! i = Some q ∧ (ratio == q)%Q)
            ∧ (failed = true →
               at_context r = slice_to (at_context_in r) (at_ceiling r)))
       ∧ at_outcome r
           = chat (at_call r) (reportMessages cfg topic (at_context r))
       ∧ (∀ e, at_outcome r = Err e → budget_looking e = true → i < 2 →
            ∃ r', trace !! S i = Some r'
              ∧ at_ceiling r' = at_ceiling r / 2
              ∧ at_context_in r' = at_context r)
       ∧ (trace !! S i = None → res = final_answer r)
       ∧ (at_ceiling r < len (at_context_in r) →
            ∃ ratio failed n0 out err,
              at_compress r = Some (ratio, failed)
              ∧ ratio = ((1 # 2) / inject_Z (Z.of_nat (S i)))%Q
              ∧ compressContext cfg chat fuel (at_context_in r) ratio n0
                  = Some ((out, err), at_call r)
              ∧ failed = bool_decide (is_Some err)
              ∧ at_context r
                  = if failed
                    then slice_to (at_context_in r) (at_ceiling r)
                    else out)
       ∧ (len (at_context_in r) <= at_ceiling r →
            at_compress r = None ∧ at_context r = at_context_in r))
  ∧ (∀ r e, trace !! 2 = Some r → at_outcome r = Err e →
       res = Err ("report generation failed after 3 attempts: " +:+ e))
  ∧ (∀ r, trace !! 0 = Some r →
       at_ceiling r = maxContextChars cfg / 2 ∧ at_context_in r = context).
Proof.
  unfold writeReport. intros Hrun.
  apply writeReportLoop_ladder in Hrun as (new & -> & Hl);
    [|done|unfold maxRetries; lia].
  rewrite app_nil_l.
  destruct (ladder_length _ _ _ _ _ _ _ _ _ Hl) as [Hlen1 Hlen3];
    [unfold maxRetries; lia|].
  unfold maxRetries in Hlen3.
  assert (∀ i r, new !! i = Some r → i < 3) as Hi3.
  { intros i r Hi. apply lookup_lt_Some in Hi. lia. }
  split; [lia|]. split; [|split].
  - intros i r Hi.
    destruct (ladder_lookup _ _ _ _ _ _ _ _ _ _ _ Hl Hi)
      as (Ha & _ & _ & _ & Hout & Hcomp).
    split; [done|]. split; [|split; [done|split; [|split; [|split]]]].
    + intros ratio failed Hc. rewrite Hc in Hcomp.
      destruct Hcomp as (_ & -> & n0 & out & err & _ & -> & Hctx).
      split.
      * specialize (Hi3 _ _ Hi).
        destruct i as [|[|[|i]]]; [by eexists..|lia].
      * intros Hf. by rewrite Hf in Hctx.
    + intros e He Hb Hi2.
      assert (retried r) as Hre.
      { split; [rewrite Ha; unfold maxRetries; lia|by exists e]. }
      destruct (ladder_retried_next _ _ _ _ _ _ _ _ _ _ _ Hl Hi Hre)
        as [r' Hr'].
      exists r'. split; [done|].
      by destruct (ladder_next _ _ _ _ _ _ _ _ _ _ _ _ Hl Hi Hr') as (_ & ? & ?).
    + intros Hn. by destruct (ladder_final _ _ _ _ _ _ _ _ _ _ _ Hl Hi Hn).
    + intros Hlong. destruct (at_compress r) as [[ratio failed]|].
      * destruct Hcomp as (_ & Hratio & n0 & out & err & Hc & Hf & Hctx).
        by exists ratio, failed, n0, out, err.
      * destruct Hcomp as [Hfit _]. lia.
    + intros Hfit. destruct (at_compress r) as [[ratio failed]|].
      * destruct Hcomp as (Hlong & _). lia.
      * by destruct Hcomp as [_ Hctx].
  - intros r e Hi He.
    assert (new !! 3 = None) as Hn by (apply lookup_ge_None; lia).
    destruct (ladder_final _ _ _ _ _ _ _ _ _ _ _ Hl Hi Hn) as [_ ->].
    destruct (ladder_lookup _ _ _ _ _ _ _ _ _ _ _ Hl Hi) as (Ha & _).
    unfold final_answer. by rewrite He, Ha.
  - intros r Hi. by eapply ladder_first.
Qed.


Lemma writeReport_retry_ladder_witness :
  ∃ res trace n',
    writeReport (U := ascii_unicode) cfg_small chat_overflow 0 "topic"
      (repeat_byte "a" 200) 0 = Some ((res, trace), n')
    ∧ 1 <= length trace <= 3
    ∧ (∀ r e, trace !! 2 = Some r → at_outcome r = Err e →
         res = Err ("report generation failed after 3 attempts: " +:+ e))
    ∧ (∀ r, trace !! 0 = Some r →
         at_ceiling r = maxContextChars cfg_small / 2
         ∧ at_context_in r = repeat_byte "a" 200).
Proof.
  eexists _, _, _. split; [vm_compute; reflexivity|].
  pose proof (writeReport_retry_ladder (U := ascii_unicode) cfg_small
    chat_overflow 0 "topic" (repeat_byte "a" 200) 0 _ _ _ eq_refl)
    as (Hlen & _ & Hlast & Hfirst).
  split; [exact Hlen|]. split; [exact Hlast|exact Hfirst].
Defined.

(** *** When the ladder is sure to return

    [writeReport] can only fail to return inside [compressContext], whose
    chunked branch recurses without bound. A context within the limit of a
    direct compression never takes that branch; if also every answer of the
    model, once cleaned, is within that limit, then the context stays within
    it from attempt to attempt and [writeReport] returns whatever the
    fuel. *)

Lemma compressContext_direct `{U : !Unicode} (cfg : Config) (chat : ChatOracle)
    (fuel : nat) (ctx : string) (ratio : Q) (n : nat) :
  len ctx <= maxContextChars cfg * 3 / 5 →
  compressContext cfg chat fuel ctx ratio n
  = compressContextDirect chat ctx ratio n.
Proof. intros Hfit. destruct fuel; simpl; by case_decide. Qed.

Lemma writeReportLoop_returns `{U : !Unicode} (cfg : Config)
    (chat : ChatOracle) (fuel : nat) (topic : string) (iterations : nat) :
  (∀ n msgs resp, chat n msgs = Ok resp →
     len (TrimSpace (stripThinkTags resp)) <= maxContextChars cfg * 3 / 5) →
  ∀ attempt limit ctx trace n,
    len ctx <= maxContextChars cfg * 3 / 5 →
    is_Some (writeReportLoop cfg chat fuel topic iterations attempt limit ctx
               trace n).
Proof.
  intros Hfits. induction iterations as [|iterations IH];
    intros attempt limit ctx trace n Hctx; [by eexists|].
  cbn [writeReportLoop]. llm_unfold.
  destruct (decide (limit < len ctx)) as [Hlong|Hshort].
  - rewrite compressContext_direct by done.
    unfold compressContextDirect. llm_unfold.
    destruct (chat n _) as [resp|e] eqn:Hc; [case_decide|]; cbn [fst snd];
      (destruct (chat (S n) _) as [resp'|e'];
       [by eexists
       |destruct (bool_decide (attempt < maxRetries) && budget_looking e');
        [apply IH|by eexists]]).
    + rewrite len_slice_to. lia.
    + by eapply Hfits.
    + rewrite len_slice_to. lia.
  - cbn [fst snd]. destruct (chat n _) as [resp'|e'];
      [by eexists
      |destruct (bool_decide (attempt < maxRetries) && budget_looking e');
       [by apply IH|by eexists]].
Qed.

Lemma writeReport_returns `{U : !Unicode} (cfg : Config) (chat : ChatOracle)
    (fuel : nat) (topic context : string) (n : nat) :
  (∀ n msgs resp, chat n msgs = Ok resp →
     len (TrimSpace (stripThinkTags resp)) <= maxContextChars cfg * 3 / 5) →
  len context <= maxContextChars cfg * 3 / 5 →
  ∃ res trace n',
    writeReport cfg chat fuel topic context n = Some ((res, trace), n').
Proof.
  intros Hfits Hctx.
  destruct (writeReportLoop_returns cfg chat fuel topic maxRetries Hfits 1
              (maxContextChars cfg / 2) context [] n Hctx) as [[[res trace] n'] H].
  by exists res, trace, n'.
Qed.

(** ** The ceiling before report generation *)

(** C6 as stated fails: a compression that succeeds is taken as it is. With
    a ceiling of 175 bytes, a 200-byte context is sent to the model for
    compression, the model answers with 200 bytes, and those 200 bytes go
    into the report prompt. *)
Lemma writeReport_ceiling_exceeded :
  ¬ (∀ res trace n' r,
       writeReport (U := ascii_unicode) cfg_small chat_verbose 0 "topic"
         (repeat_byte "a" 200) 0 = Some ((res, trace), n') →
       r ∈ trace → len (at_context r) <= at_ceiling r).
Proof.
  intros H.
  specialize (H _ _ _ _ eq_refl (list_elem_of_here _ _)).
  vm_compute in H. lia.
Qed.

(** C6 (amended): on every report attempt of a run that returns, the ceiling
    is 50% of the budget halved once per earlier attempt, the context
    recorded is the one in the prompt, and that context is no longer than
    the ceiling when it already fitted or when the compression of that
    attempt returned an error and it was hard-truncated; when the
    compression succeeded the context is the compressor's output, whatever
    its length. So if no compression of the run succeeds, every prompt
    respects its ceiling. *)
Theorem writeReport_ceiling `{U : !Unicode} (cfg : Config) (chat : ChatOracle)
    (fuel : nat) (topic context : string) (n n' : nat)
    (res : result string) (trace : list attempt_record) :
  writeReport cfg chat fuel topic context n = Some ((res, trace), n') →
  (∀ i r, trace !! i = Some r →
     at_ceiling r = maxContextChars cfg / 2 / 2 ^ i
     ∧ at_outcome r
         = chat (at_call r) (reportMessages cfg topic (at_context r))
     ∧ match at_compress r with
       | None => len (at_context r) <= at_ceiling r
       | Some (_, true) => len (at_context r) <= at_ceiling r
       | Some (ratio, false) =>
           ∃ n0, compressContext cfg chat fuel (at_context_in r) ratio n0
                   = Some ((at_context r, None), at_call r)
       end)
  ∧ ((∀ r ratio, r ∈ trace → at_compress r ≠ Some (ratio, false)) →
     ∀ r, r ∈ trace → len (at_context r) <= at_ceiling r).
Proof.
  unfold writeReport. intros Hrun.
  apply writeReportLoop_ladder in Hrun as (new & -> & Hl);
    [|done|unfold maxRetries; lia].
  rewrite app_nil_l.
  assert (∀ i r, new !! i = Some r →
     at_outcome r = chat (at_call r) (reportMessages cfg topic (at_context r))
     ∧ match at_compress r with
       | None => len (at_context r) <= at_ceiling r
       | Some (_, true) => len (at_context r) <= at_ceiling r
       | Some (ratio, false) =>
           ∃ n0, compressContext cfg chat fuel (at_context_in r) ratio n0
                   = Some ((at_context r, None), at_call r)
       end) as Hpass.
  { intros i r Hi.
    destruct (ladder_lookup _ _ _ _ _ _ _ _ _ _ _ Hl Hi)
      as (_ & _ & _ & _ & Hout & Hcomp).
    split; [done|].
    destruct (at_compress r) as [[ratio failed]|].
    - destruct Hcomp as (Hlong & _ & n0 & out & err & Hc & -> & Hctx).
      destruct err as [e|]; cbn in *.
      + rewrite Hctx, len_slice_to. lia.
      + exists n0. by rewrite Hctx.
    - destruct Hcomp as [Hfit ->]. done. }
  split.
  - intros i r Hi. split; [|by eapply Hpass].
    revert r Hi. induction i as [|i IH]; intros r Hi.
    + destruct (ladder_first _ _ _ _ _ _ _ _ _ _ Hl Hi) as [-> _].
      by rewrite Nat.pow_0_r, Nat.div_1_r.
    + destruct (new !! i) as [r0|] eqn:Hi0.
      * destruct (ladder_next _ _ _ _ _ _ _ _ _ _ _ _ Hl Hi0 Hi) as (_ & -> & _).
        rewrite (IH r0 eq_refl), Nat.Div0.div_div, Nat.pow_succ_r'.
        f_equal. lia.
      * apply lookup_ge_None in Hi0. apply lookup_lt_Some in Hi. lia.
  - intros Hnone r Hr. apply list_elem_of_lookup in Hr as [i Hi].
    destruct (Hpass i r Hi) as [_ Hc].
    destruct (at_compress r) as [[ratio [|]]|] eqn:E; try done.
    exfalso. eapply Hnone; [|exact E]. by eapply list_elem_of_lookup_2.
Qed.

Lemma writeReport_ceiling_witness :
  ∃ res trace n',
    writeReport (U := ascii_unicode) cfg_small chat_down 0 "topic"
      (repeat_byte "a" 200) 0 = Some ((res, trace), n')
    ∧ ((∀ r ratio, r ∈ trace → at_compress r ≠ Some (ratio, false)) →
       ∀ r, r ∈ trace → len (at_context r) <= at_ceiling r).
Proof.
  eexists _, _, _. split; [vm_compute; reflexivity|].
  exact (proj2 (writeReport_ceiling (U := ascii_unicode) cfg_small
    chat_down 0 "topic" (repeat_byte "a" 200) 0 _ _ _ eq_refl)).
Defined.


(** ** URL normalisation *)

(** C8, evaluated where it fails: [normalizeURL] strips one trailing slash
    ([strings.TrimSuffix]), so a path that ends in two slashes needs two
    passes. Both inputs are plain URLs, or strings [url.Parse] rejects for a
    control byte, so the values do not depend on [beyond]. *)
Theorem normalizeURL_twice_differs (beyond : string → string) :
  normalizeURL beyond "http://x.com/a//" = "http://x.com/a/"
  ∧ normalizeURL beyond (normalizeURL beyond "http://x.com/a//")
      = "http://x.com/a"
  ∧ normalizeURL beyond (nl +:+ "//") = nl +:+ "/"
  ∧ normalizeURL beyond (normalizeURL beyond (nl +:+ "//")) = nl.
Proof.
  assert (normalizeURL beyond "http://x.com/a//" = "http://x.com/a/") as E1
    by (vm_compute; reflexivity).
  assert (normalizeURL beyond (nl +:+ "//") = nl +:+ "/") as E2
    by (vm_compute; reflexivity).
  rewrite E1, E2. repeat split; vm_compute; reflexivity.
Qed.

(** ** Deduplication in the search executor *)

Section dedup.
Context `{U : !Unicode} (cfg : Config) (beyond : string → string)
  (chat : ChatOracle) (searcher : search.Searcher).

Let norm (r : search.Result) : string := normalizeURL beyond (search.URL r).

(** [acc'] is [acc] after the results [extra] went through the inner loop:
    every one of them was counted once, as new or as duplicate; the seen set
    grew by their normalized URLs; one source was appended per new URL; and
    the agent stayed consistent. *)
Definition advanced (acc acc' : SearchAcc) (extra : list search.Result) : Prop :=
  acc_seen acc' = acc_seen acc ++ extra
  ∧ acc_newURLs acc' + acc_duplicates acc'
      = acc_newURLs acc + acc_duplicates acc + length extra
  ∧ acc_newURLs acc <= acc_newURLs acc'
  ∧ seenURLs (acc_agent acc')
      = seenURLs (acc_agent acc) ∪ list_to_set (norm <$> extra)
  ∧ length (sources (acc_agent acc'))
      = length (sources (acc_agent acc)) + (acc_newURLs acc' - acc_newURLs acc)
  ∧ (agent_consistent beyond (acc_agent acc) →
     agent_consistent beyond (acc_agent acc')).

Lemma advanced_refl acc : advanced acc acc [].
Proof.
  unfold advanced. rewrite app_nil_r. simpl.
  split_and!; [done|lia|lia|set_solver|lia|done].
Qed.

Lemma advanced_trans acc1 acc2 acc3 e1 e2 :
  advanced acc1 acc2 e1 → advanced acc2 acc3 e2 →
  advanced acc1 acc3 (e1 ++ e2).
Proof.
  intros (Hs1 & Hc1 & Hn1 & Hu1 & Hl1 & Hi1) (Hs2 & Hc2 & Hn2 & Hu2 & Hl2 & Hi2).
  unfold advanced. rewrite Hs2, Hs1, Hu2, Hu1, Hl2, Hl1, length_app, fmap_app.
  split_and!; try lia.
  - by rewrite app_assoc.
  - set_solver.
  - auto.
Qed.

Lemma resultEntry_returns r n :
  ∃ entry n', resultEntry cfg chat searcher r n = Some (entry, n').
Proof.
  unfold resultEntry, summarizePage, external. llm_unfold.
  repeat (first [done | by eauto | case_match | case_decide]).
Qed.

Lemma processResults_advances searchResults :
  ∀ acc n, ∃ acc' n',
    processResults cfg beyond chat searcher searchResults acc n
      = Some (acc', n')
    ∧ advanced acc acc' searchResults.
Proof.
  induction searchResults as [|r rest IH]; intros acc n.
  - exists acc, n. split; [done|]. apply advanced_refl.
  - cbn [processResults]. fold (norm r).
    destruct (decide (norm r ∈ seenURLs (acc_agent acc))) as [Hdup|Hnew].
    + edestruct IH as (acc' & n' & -> & Ha). exists acc', n'. split; [done|].
      eapply (advanced_trans _ _ _ [r]); [|exact Ha].
      unfold advanced. simpl. split_and!; try done; try lia. set_solver.
    + llm_unfold.
      destruct (resultEntry_returns r n) as (entry & n1 & ->).
      edestruct IH as (acc' & n' & -> & Ha). exists acc', n'. split; [done|].
      eapply (advanced_trans _ _ _ [r]); [|exact Ha].
      unfold advanced. simpl. rewrite length_app. simpl.
      split_and!; try done; try lia.
      * set_solver.
      * intros [Hset Hnd]. unfold agent_consistent. simpl.
        rewrite fmap_app, list_to_set_app_L. simpl. fold (norm r).
        split; [rewrite <- Hset; set_solver|].
        apply NoDup_app. repeat split; [done| |apply NoDup_singleton].
        intros x Hx ->%list_elem_of_singleton. apply Hnew.
        rewrite Hset. by apply elem_of_list_to_set.
Qed.

Lemma pageLoop_advances query pagesLeft :
  ∀ page acc n, ∃ acc' n' extra,
    pageLoop cfg beyond chat searcher query pagesLeft page acc n
      = Some (acc', n')
    ∧ advanced acc acc' extra.
Proof.
  induction pagesLeft as [|pagesLeft IH]; intros page acc n.
  - exists acc, n, []. split; [done|]. apply advanced_refl.
  - cbn [pageLoop]. unfold canPaginate, external. llm_unfold.
    destruct (search.SearchWithPage searcher n query page) as [[|r rs]|e].
    + exists acc, (S n), []. split; [done|]. apply advanced_refl.
    + destruct (processResults_advances (r :: rs) acc (S n))
        as (acc1 & n1 & -> & Ha1).
      destruct (IH (S page) acc1 n1) as (acc' & n' & extra & -> & Ha).
      exists acc', n', ((r :: rs) ++ extra). split; [done|].
      by eapply advanced_trans.
    + exists acc, (S n), []. split; [done|]. apply advanced_refl.
Qed.

Lemma queryLoop_advances queries :
  ∀ acc n, ∃ acc' n' extra,
    queryLoop cfg beyond chat searcher queries acc n = Some (acc', n')
    ∧ advanced acc acc' extra.
Proof.
  induction queries as [|query rest IH]; intros acc n.
  - exists acc, n, []. split; [done|]. apply advanced_refl.
  - cbn [queryLoop]. llm_unfold.
    destruct (pageLoop_advances query
      (if decide (MaxPages cfg = 0) then 100 else MaxPages cfg) 1 acc n)
      as (acc1 & n1 & e1 & -> & Ha1).
    destruct (IH acc1 n1) as (acc' & n' & e2 & -> & Ha2).
    exists acc', n', (e1 ++ e2). split; [done|]. by eapply advanced_trans.
Qed.

(** One call: it returns, its two counts add up to the number of results it
    went through, the seen set grew by their normalized URLs, and a
    consistent agent stays consistent. *)
Lemma searchWithPagination_counts a queries n :
  ∃ out n',
    searchWithPagination cfg beyond chat searcher a queries n = Some (out, n')
    ∧ acc_newURLs out + acc_duplicates out = length (acc_seen out)
    ∧ seenURLs (acc_agent out)
        = seenURLs a ∪ list_to_set (norm <$> acc_seen out)
    ∧ (agent_consistent beyond a → agent_consistent beyond (acc_agent out)).
Proof.
  unfold searchWithPagination.
  edestruct queryLoop_advances as (out & n' & extra & -> & Ha).
  exists out, n'. split; [done|].
  destruct Ha as (Hs & Hc & _ & Hu & _ & Hi). simpl in *. subst extra.
  split_and!; [lia|done|done].
Qed.

Lemma feed_spec batches :
  ∀ a n, ∃ a' outs n',
    feed cfg beyond chat searcher a batches n = Some ((a', outs), n')
    ∧ Forall (λ out, acc_newURLs out + acc_duplicates out
                     = length (acc_seen out)) outs
    ∧ seenURLs a'
        = seenURLs a ∪ list_to_set (norm <$> concat (acc_seen <$> outs))
    ∧ (agent_consistent beyond a → agent_consistent beyond a').
Proof.
  induction batches as [|queries rest IH]; intros a n.
  - exists a, [], n. split; [done|]. split; [done|]. split; [set_solver|done].
  - cbn [feed]. llm_unfold.
    destruct (searchWithPagination_counts a queries n)
      as (out & n1 & -> & Hc & Hu & Hi).
    destruct (IH (acc_agent out) n1) as (a' & outs & n' & -> & Hcs & Hus & His).
    exists a', (out :: outs), n'. split; [done|].
    split; [by constructor|]. split; [|by auto].
    rewrite Hus, Hu. simpl. rewrite fmap_app, list_to_set_app_L. set_solver.
Qed.

End dedup.




(** ** Query expansion *)

(** The cap loop keeps the keys visited first, up to [maxQueries] of them. *)
Lemma capLoop_take (keys : list string) :
  ∀ result, length result < maxQueries →
    capLoop keys result = result ++ take (maxQueries - length result) keys.
Proof.
  induction keys as [|q rest IH]; intros result Hlt; simpl.
  - by rewrite take_nil, app_nil_r.
  - case_decide as Hfull; rewrite length_app in Hfull; simpl in Hfull.
    + by replace (maxQueries - length result) with 1 by lia.
    + rewrite IH by (rewrite length_app; simpl; lia).
      rewrite length_app. simpl. rewrite <- app_assoc. simpl.
      replace (maxQueries - length result)
        with (S (maxQueries - (length result + 1))) by lia.
      done.
Qed.

Lemma foldl_invariant {A B : Type} (P : A → Prop) (f : A → B → A)
    (l : list B) (a : A) :
  P a → (∀ a b, b ∈ l → P a → P (f a b)) → P (foldl f a l).
Proof.
  revert a. induction l as [|b l IH]; intros a Ha Hf; simpl; [done|].
  apply IH.
  - apply Hf; [left|done].
  - intros a' b' Hb'. apply Hf. by right.
Qed.

Lemma elem_of_addBaseQueries (baseQueries : list string) :
  ∀ (expanded : gset string) (x : string),
    x ∈ addBaseQueries baseQueries expanded
    ↔ x ∈ expanded ∨ (x ∈ baseQueries ∧ len x <= 60).
Proof.
  unfold addBaseQueries.
  induction baseQueries as [|q rest IH]; intros expanded x; simpl.
  - set_solver.
  - rewrite IH. case_decide; set_solver.
Qed.

Lemma elem_of_platform_loop (q : string) (platforms : list string) :
  ∀ (expanded : gset string) (x : string),
    x ∈ foldl (λ expanded platform,
                 if decide (platform ≠ "")
                 then {[platform +:+ " " +:+ q]} ∪ expanded else expanded)
              expanded platforms
    ↔ x ∈ expanded
      ∨ ∃ p, p ∈ platforms ∧ p ≠ "" ∧ x = p +:+ " " +:+ q.
Proof.
  induction platforms as [|p rest IH]; intros expanded x; simpl.
  - set_solver.
  - rewrite IH. case_decide; set_solver.
Qed.

Lemma elem_of_addPlatformQueries (baseQueries platforms : list string) :
  ∀ (expanded : gset string) (x : string),
    x ∈ addPlatformQueries baseQueries platforms expanded
    ↔ x ∈ expanded
      ∨ ∃ q p, q ∈ baseQueries ∧ len q <= 40 ∧ p ∈ platforms ∧ p ≠ ""
               ∧ x = p +:+ " " +:+ q.
Proof.
  unfold addPlatformQueries.
  induction baseQueries as [|q rest IH]; intros expanded x; simpl.
  - set_solver.
  - rewrite IH. case_decide as Hlong.
    + split; [intros [?|(q' & p & Hq & ?)]; [by left|right; exists q', p; set_solver]|].
      intros [?|(q' & p & Hq & Hlen & Hrest)]; [by left|].
      apply elem_of_cons in Hq as [->|Hq]; [lia|].
      right. by exists q', p.
    + rewrite elem_of_platform_loop. split.
      * intros [[?|(p & ? & ? & ?)]|(q' & p & Hq & ?)]; [by left|..].
        -- right. exists q, p. split_and!; try done; [left|lia].
        -- right. exists q', p. set_solver.
      * intros [?|(q' & p & Hq & Hlen & Hp & Hne & Hx)]; [by left; left|].
        apply elem_of_cons in Hq as [->|Hq].
        -- left. right. by exists p.
        -- right. by exists q', p.
Qed.

(** Every synonym variant kept has at most 60 bytes. *)
Lemma synonymVariants_short `{U : !Unicode} (baseQueries : list string)
    (synonyms : list (string * list string)) (x : string) :
  x ∈ synonymVariants baseQueries synonyms → len x <= 60.
Proof.
  unfold synonymVariants. revert x.
  apply (foldl_invariant (λ s : gset string, ∀ x, x ∈ s → len x <= 60));
    [set_solver|].
  intros s q _ Hs. case_decide; [done|].
  apply (foldl_invariant (λ s : gset string, ∀ x, x ∈ s → len x <= 60));
    [done|].
  intros s' [word syns] _ Hs'. case_match; [|done].
  apply (foldl_invariant (λ s : gset string, ∀ x, x ∈ s → len x <= 60));
    [done|].
  intros s'' syn _ Hs''. repeat case_decide; try done.
  intros x [->%elem_of_singleton|?]%elem_of_union; [done|by apply Hs''].
Qed.

(** What the expansion holds: short base queries, platform-prefixed base
    queries, and short synonym variants. *)
Lemma elem_of_expandedQueries `{U : !Unicode} (baseQueries : list string)
    (expansion : QueryExpansion) (x : string) :
  x ∈ expandedQueries baseQueries expansion →
  len x <= 60
  ∨ ∃ q p, q ∈ baseQueries ∧ len q <= 40 ∧ p ∈ Platforms expansion
           ∧ p ≠ "" ∧ x = p +:+ " " +:+ q.
Proof.
  unfold expandedQueries. rewrite elem_of_union, elem_of_addPlatformQueries,
    elem_of_addBaseQueries.
  intros [Hs|[[Hx|[_ ?]]|?]]; [|set_solver|by left|by right].
  left. by eapply synonymVariants_short.
Qed.

Lemma expandQueriesWithLLM_take `{U : !Unicode} (range : MapRange)
    (baseQueries : list string) (expansion : QueryExpansion) :
  expandQueriesWithLLM range baseQueries expansion
  = take maxQueries (range (expandedQueries baseQueries expansion)).
Proof.
  unfold expandQueriesWithLLM.
  by rewrite capLoop_take by (unfold maxQueries; simpl; lia).
Qed.

Lemma expandQueriesWithLLM_length `{U : !Unicode} (range : MapRange)
    (baseQueries : list string) (expansion : QueryExpansion) :
  length (expandQueriesWithLLM range baseQueries expansion) <= maxQueries.
Proof. rewrite expandQueriesWithLLM_take, length_take. lia. Qed.

(** C3 as stated fails: a platform prefix has no length check. With the
    single seed [a] and a platform scope of 70 bytes the expansion is the
    seed and the prefixed seed, 72 bytes long, and both are returned in
    whatever order the map is visited. *)
Lemma expandQueriesWithLLM_long_query :
  ¬ (∀ range : MapRange, fair range →
       ∀ q, q ∈ expandQueriesWithLLM (U := ascii_unicode) range ["a"]
                  {| Synonyms := []; Platforms := [long_platform] |} →
            len q <= 60).
Proof.
  intros H.
  specialize (H elements (λ m, reflexivity _) (long_platform +:+ " a")).
  assert (len (long_platform +:+ " a") = 72) as Hlen by (vm_compute; reflexivity).
  rewrite Hlen in H. enough (72 <= 60) by lia. apply H.
  vm_compute. left.
Qed.

(** C3 (amended): for every list of seed queries and every expansion,
    whatever the order in which the map is visited, [expandQueriesWithLLM]
    returns at most 150 queries, no query twice, and every query returned
    has at most 60 bytes or is a seed query of at most 40 bytes behind a
    non-empty platform scope and a space (so at most 41 bytes longer than
    the scope). *)
Theorem expandQueriesWithLLM_cap `{U : !Unicode} (range : MapRange)
    (baseQueries : list string) (expansion : QueryExpansion) :
  fair range →
  let result := expandQueriesWithLLM range baseQueries expansion in
  length result <= 150
  ∧ NoDup result
  ∧ ∀ x, x ∈ result →
      len x <= 60
      ∨ ∃ q p, q ∈ baseQueries ∧ len q <= 40 ∧ p ∈ Platforms expansion
               ∧ p ≠ "" ∧ x = p +:+ " " +:+ q ∧ len x <= len p + 41.
Proof.
  intros Hfair result. subst result. rewrite expandQueriesWithLLM_take.
  specialize (Hfair (expandedQueries baseQueries expansion)).
  split_and!.
  - rewrite <- expandQueriesWithLLM_take.
    apply (expandQueriesWithLLM_length range baseQueries expansion).
  - eapply sublist_NoDup; [|apply sublist_take].
    rewrite Hfair. apply NoDup_elements.
  - intros x Hx. apply (subseteq_take maxQueries) in Hx. rewrite Hfair in Hx.
    apply elem_of_elements, elem_of_expandedQueries in Hx
      as [?|(q & p & Hq & Hlen & Hp & Hne & ->)]; [by left|].
    right. exists q, p. split_and!; try done.
    rewrite !len_app. simpl. lia.
Qed.

Lemma expandQueriesWithLLM_cap_witness :
  fair elements
  ∧ let result := expandQueriesWithLLM (U := ascii_unicode) elements ["a"]
                    {| Synonyms := []; Platforms := [long_platform] |} in
    length result <= 150
    ∧ NoDup result
    ∧ ∀ x, x ∈ result →
        len x <= 60
        ∨ ∃ q p, q ∈ ["a"] ∧ len q <= 40 ∧ p ∈ [long_platform]
                 ∧ p ≠ "" ∧ x = p +:+ " " +:+ q ∧ len x <= len p + 41.
Proof.
  split; [intros m; reflexivity|].
  apply (expandQueriesWithLLM_cap (U := ascii_unicode) elements ["a"]
           {| Synonyms := []; Platforms := [long_platform] |}).
  intros m. reflexivity.
Defined.


(** When the expansion has at most [maxQueries] entries the cap drops
    nothing: the result holds exactly the expansion. *)
Lemma expandQueriesWithLLM_complete `{U : !Unicode} (range : MapRange)
    (baseQueries : list string) (expansion : QueryExpansion) (x : string) :
  fair range →
  size (expandedQueries baseQueries expansion) <= maxQueries →
  x ∈ expandQueriesWithLLM range baseQueries expansion
  ↔ x ∈ expandedQueries baseQueries expansion.
Proof.
  intros Hfair Hsize. rewrite expandQueriesWithLLM_take.
  specialize (Hfair (expandedQueries baseQueries expansion)).
  rewrite take_ge.
  - by rewrite Hfair, elem_of_elements.
  - by rewrite Hfair.
Qed.

Lemma base_query_expanded `{U : !Unicode} (baseQueries : list string)
    (expansion : QueryExpansion) (q : string) :
  q ∈ baseQueries → len q <= 60 → q ∈ expandedQueries baseQueries expansion.
Proof.
  intros Hq Hlen. unfold expandedQueries.
  rewrite elem_of_union, elem_of_addPlatformQueries, elem_of_addBaseQueries.
  right. left. by right.
Qed.

(** The cap of 150 wins over the seeds. Of 151 distinct seed queries of at
    most 4 bytes, with no platforms and no synonyms, at least one is missing
    from the result whatever the order in which the map is visited. *)
Lemma expandQueriesWithLLM_drops_seed :
  ¬ (∀ range : MapRange, fair range →
       ∀ q, q ∈ many_seeds → len q <= 60 →
            q ∈ expandQueriesWithLLM (U := ascii_unicode) range many_seeds
                  {| Synonyms := []; Platforms := [] |}).
Proof.
  intros H. specialize (H elements (λ m, reflexivity _)).
  assert (Forall (λ q, len q <= 60) many_seeds) as Hshort.
  { apply (bool_decide_unpack _). vm_compute. exact I. }
  assert (NoDup many_seeds) as Hnd.
  { apply (bool_decide_unpack _). vm_compute. exact I. }
  assert (length many_seeds = 151) as Hlen by (unfold many_seeds; by rewrite length_fmap, length_seq).
  pose proof (expandQueriesWithLLM_length (U := ascii_unicode) elements
    many_seeds {| Synonyms := []; Platforms := [] |}) as Hcap.
  unfold maxQueries in Hcap.
  assert (many_seeds ⊆+ expandQueriesWithLLM (U := ascii_unicode) elements
            many_seeds {| Synonyms := []; Platforms := [] |}) as Hsub.
  { apply NoDup_submseteq; [done|]. intros q Hq. apply H; [done|].
    by eapply (proj1 (Forall_forall _ _)) in Hshort. }
  apply submseteq_length in Hsub. lia.
Qed.

(** When the set of expanded queries has at most 150 entries the cap does
    not cut: whatever the order in which the map is visited, the result
    holds every seed query of at most 60 bytes unchanged; and for the seed
    [a flat for rent], no platforms and the synonym [flat -> apartment], the
    result holds both [a flat for rent] and [a apartment for rent]. The
    scenario lower-cases ASCII text, on which [strings.ToLower] is
    [ascii_ToLower]. *)
Theorem expandQueriesWithLLM_keeps_seeds `{U : !Unicode} (range : MapRange)
    (baseQueries : list string) (expansion : QueryExpansion) :
  fair range →
  (∀ s, is_ascii s = true → ToLower s = ascii_ToLower s) →
  (size (expandedQueries baseQueries expansion) <= 150 →
   ∀ q, q ∈ baseQueries → len q <= 60 →
        q ∈ expandQueriesWithLLM range baseQueries expansion)
  ∧ (let result :=
       expandQueriesWithLLM range ["a flat for rent"]
         {| Synonyms := [("flat", ["apartment"])]; Platforms := [] |} in
     "a flat for rent" ∈ result ∧ "a apartment for rent" ∈ result).
Proof.
  intros Hfair Hlower. split.
  - intros Hsize q Hq Hlen.
    apply expandQueriesWithLLM_complete; [done|done|].
    by apply base_query_expanded.
  - assert (expandedQueries ["a flat for rent"]
              {| Synonyms := [("flat", ["apartment"])]; Platforms := [] |}
            = {["a apartment for rent"; "a flat for rent"]}) as Hset.
    { unfold expandedQueries, synonymVariants. cbn [foldl Synonyms Platforms].
      rewrite !Hlower by reflexivity. vm_compute. reflexivity. }
    assert (size (expandedQueries ["a flat for rent"]
              {| Synonyms := [("flat", ["apartment"])]; Platforms := [] |})
            <= maxQueries) as Hsize.
    { rewrite Hset. vm_compute. lia. }
    cbv zeta. split; apply expandQueriesWithLLM_complete; try done;
      rewrite Hset; set_solver.
Qed.

Lemma expandQueriesWithLLM_keeps_seeds_witness :
  fair elements
  ∧ (∀ s, is_ascii s = true → ToLower (Unicode := ascii_unicode) s = ascii_ToLower s)
  ∧ size (expandedQueries (U := ascii_unicode) ["flat to let"; "rooms"]
            {| Synonyms := [("flat", ["apartment"])];
               Platforms := ["site:rent.example"] |}) <= 150
  ∧ "rooms" ∈ expandQueriesWithLLM (U := ascii_unicode) elements
                ["flat to let"; "rooms"]
                {| Synonyms := [("flat", ["apartment"])];
                   Platforms := ["site:rent.example"] |}.
Proof.
  assert (fair elements) as Hfair by (intros m; reflexivity).
  assert (∀ s, is_ascii s = true →
               ToLower (Unicode := ascii_unicode) s = ascii_ToLower s)
    as Hlower by (intros s _; reflexivity).
  assert (size (expandedQueries (U := ascii_unicode) ["flat to let"; "rooms"]
            {| Synonyms := [("flat", ["apartment"])];
               Platforms := ["site:rent.example"] |}) <= 150) as Hsize
    by (vm_compute; lia).
  split_and!; try done.
  apply (proj1 (expandQueriesWithLLM_keeps_seeds (U := ascii_unicode) elements
           ["flat to let"; "rooms"]
           {| Synonyms := [("flat", ["apartment"])];
              Platforms := ["site:rent.example"] |} Hfair Hlower)
         Hsize "rooms").
  - set_solver.
  - vm_compute. lia.
Defined.

(** C7: the code does not keep every seed query of at most 60 bytes. Step 1
    adds the base queries to the map first, but the cap of step 4 cuts the
    map in the order a [range] visits it, which has nothing to do with the
    order of insertion. With the 25 seed queries [q0] ... [q24], each of at
    most 3 bytes, and six platforms, the map has 175 keys; visited with the
    prefixed keys first, each key once, the result has 150 entries and not
    one of the seed queries. *)
Theorem expandQueriesWithLLM_seed_dropped :
  fair prefixed_first
  ∧ size (expandedQueries (U := ascii_unicode) plan_seeds
            {| Synonyms := []; Platforms := six_platforms |}) = 175
  ∧ let result :=
      expandQueriesWithLLM (U := ascii_unicode) prefixed_first plan_seeds
        {| Synonyms := []; Platforms := six_platforms |} in
    length result = 150
    ∧ Forall (λ q, len q <= 60 ∧ q ∉ result) plan_seeds.
Proof.
  split; [|split; [|split]].
  - intros m. unfold prefixed_first. apply filter_app_complement.
  - vm_compute. reflexivity.
  - vm_compute. reflexivity.
  - apply (bool_decide_unpack _). vm_compute. exact I.
Qed.


(** ** Cancellation *)

Section cancellation.
Context `{U : !Unicode} (cfg : Config) (beyond : string → string)
  (chat : ChatOracle) (searcher : search.Searcher) (token : CancelToken).

Lemma log_ok_snoc log e :
  log_ok log false → e ≠ EvReport → e ≠ EvPoll true → log_ok (log ++ [e]) false.
Proof.
  intros [Hr Hp] He1 He2. split; rewrite elem_of_app, list_elem_of_singleton;
    naive_solver.
Qed.

Lemma log_ok_cancel log :
  log_ok log false → log_ok (log ++ [EvPoll true]) true.
Proof.
  intros [Hr Hp]. split.
  - rewrite elem_of_app, list_elem_of_singleton. naive_solver.
  - by exists log.
Qed.

Lemma pageLoopCtx_ok query pagesLeft :
  ∀ page cx n cx' n',
    cx_cancelled cx = false →
    log_ok (cx_log cx) false →
    agent_consistent beyond (acc_agent (cx_acc cx)) →
    pageLoopCtx cfg beyond chat searcher token query pagesLeft page cx n
      = Some (cx', n') →
    log_ok (cx_log cx') (cx_cancelled cx')
    ∧ agent_consistent beyond (acc_agent (cx_acc cx')).
Proof.
  induction pagesLeft as [|pagesLeft IH];
    intros page cx n cx' n' Hc Hlog Hag Hrun.
  - injection Hrun as <- <-. by rewrite Hc.
  - cbn [pageLoopCtx] in Hrun. unfold external in Hrun. llm_unfold.
    destruct (token n).
    + injection Hrun as <- <-. simpl. split; [by apply log_ok_cancel|done].
    + assert (log_ok ((cx_log cx ++ [EvPoll false]) ++ [EvPage query page])
                false) as Hlog'.
      { apply log_ok_snoc; [by apply log_ok_snoc|done..]. }
      destruct (search.SearchWithPage searcher (S n) query page)
        as [[|r rs]|e].
      * by injection Hrun as <- <-.
      * destruct (processResults_advances cfg beyond chat searcher (r :: rs)
                    (cx_acc cx) (S (S n))) as (acc1 & n1 & Hp & Ha).
        rewrite Hp in Hrun. apply IH in Hrun; try done.
        simpl. destruct Ha as (_ & _ & _ & _ & _ & Hi). by apply Hi.
      * by injection Hrun as <- <-.
Qed.

Lemma queryLoopCtx_ok queries :
  ∀ cx n cx' n',
    cx_cancelled cx = false →
    log_ok (cx_log cx) false →
    agent_consistent beyond (acc_agent (cx_acc cx)) →
    queryLoopCtx cfg beyond chat searcher token queries cx n = Some (cx', n') →
    log_ok (cx_log cx') (cx_cancelled cx')
    ∧ agent_consistent beyond (acc_agent (cx_acc cx')).
Proof.
  induction queries as [|query rest IH]; intros cx n cx' n' Hc Hlog Hag Hrun.
  - injection Hrun as <- <-. by rewrite Hc.
  - cbn [queryLoopCtx] in Hrun. llm_unfold.
    destruct (pageLoopCtx cfg beyond chat searcher token query _ 1 cx n)
      as [[cx1 n1]|] eqn:Hpage; [|done].
    apply pageLoopCtx_ok in Hpage as [Hlog1 Hag1]; try done.
    destruct (cx_cancelled cx1) eqn:Hc1.
    + injection Hrun as <- <-. by rewrite Hc1.
    + by apply IH in Hrun.
Qed.

Lemma roundLoopCtx_ok fuel queries roundsLeft :
  ∀ round rc n rc' n',
    rc_cancelled rc = false →
    log_ok (rc_log rc) false →
    agent_consistent beyond (rs_agent (rc_state rc)) →
    roundLoopCtx cfg beyond chat searcher token fuel queries roundsLeft round
      rc n = Some (rc', n') →
    log_ok (rc_log rc') (rc_cancelled rc')
    ∧ agent_consistent beyond (rs_agent (rc_state rc')).
Proof.
  induction roundsLeft as [|roundsLeft IH];
    intros round rc n rc' n' Hc Hlog Hag Hrun.
  - injection Hrun as <- <-. by rewrite Hc.
  - cbn [roundLoopCtx] in Hrun. unfold external in Hrun. llm_unfold.
    case_decide; [|injection Hrun as <- <-; by rewrite Hc].
    destruct (token n).
    { injection Hrun as <- <-. simpl. split; [by apply log_ok_cancel|done]. }
    destruct (roundQueriesOf cfg queries (rs_queryIndex (rc_state rc)))
      as [roundQueries queryIndex].
    match type of Hrun with
    | context [queryLoopCtx _ _ _ _ _ _ ?cx0 ?n0] =>
        destruct (queryLoopCtx cfg beyond chat searcher token roundQueries
                    cx0 n0) as [[cx n1]|] eqn:Hq; [|done]
    end.
    apply queryLoopCtx_ok in Hq as [Hlog1 Hag1]; try done.
    2:{ simpl. apply log_ok_snoc; [by apply log_ok_snoc|done..]. }
    destruct (cx_cancelled cx) eqn:Hc1.
    + injection Hrun as <- <-. done.
    + destruct (compressIfLarge cfg chat fuel _ n1) as [[ctx n2]|]; [|done].
      case_decide.
      * injection Hrun as <- <-. done.
      * by apply IH in Hrun.
Qed.

End cancellation.






(** * Further properties of the code *)

(** ** More on byte strings *)

Lemma slice_from_slice_from (s : string) (a b : nat) :
  slice_from (slice_from s a) b = slice_from s (a + b).
Proof.
  revert s; induction a as [|a IH]; intros [|c s]; simpl; try done.
  by destruct b.
Qed.

Lemma slice_to_slice_to (s : string) (m n : nat) :
  m <= n → slice_to (slice_to s n) m = slice_to s m.
Proof.
  revert s n; induction m as [|m IH]; intros [|c s] [|n] Hle; simpl;
    try done; try lia.
  rewrite IH; [done|lia].
Qed.

Lemma slice_to_slice_from (s : string) (a k : nat) :
  slice_to (slice_from s a) k = slice_from (slice_to s (a + k)) a.
Proof.
  revert s; induction a as [|a IH]; intros [|c s]; simpl; try done;
    try (by destruct k).
Qed.

Lemma slice_to_all (s : string) (n : nat) : len s <= n → slice_to s n = s.
Proof.
  revert s; induction n as [|n IH]; intros [|c s] Hle; simpl in *;
    try done; try lia.
  rewrite IH; [done|lia].
Qed.

Lemma HasPrefix_slice (s p : string) :
  HasPrefix s p = true → slice_to s (len p) = p.
Proof.
  revert s; induction p as [|a p IH]; intros [|c s]; simpl; try done.
  case_decide as E; [|done]. subst. intros Hp. by rewrite IH.
Qed.

Lemma slice_HasPrefix (s p : string) :
  len p <= len s → slice_to s (len p) = p → HasPrefix s p = true.
Proof.
  revert s; induction p as [|a p IH]; intros [|c s]; simpl; try done; try lia.
  intros Hle [= -> Hs]. rewrite decide_True by done. apply IH; [lia|done].
Qed.

Lemma LastIndex_found (s sub : string) (i : nat) :
  LastIndex s sub = Some i → HasPrefix (slice_from s i) sub = true.
Proof.
  revert i; induction s as [|c s IH]; intros i.
  - simpl. destruct sub; [|done]. by intros [= <-].
  - cbn [LastIndex]. destruct (LastIndex s sub) as [j|] eqn:E.
    + intros [= <-]. simpl. by apply IH.
    + destruct (HasPrefix (String c s) sub) eqn:P; [|done]. by intros [= <-].
Qed.

Lemma Index_LastIndex (s sub : string) :
  is_Some (Index s sub) → is_Some (LastIndex s sub).
Proof.
  induction s as [|c s IH].
  - simpl. by destruct (HasPrefix "" sub).
  - cbn [Index LastIndex]. intros Hi.
    destruct (LastIndex s sub) as [j|] eqn:E; [by eexists|].
    destruct (HasPrefix (String c s) sub); [by eexists|].
    destruct (Index s sub) eqn:E'; [|by destruct Hi as [? [=]]].
    by destruct IH as [? [=]].
Qed.

(** An occurrence anywhere gives a first occurrence. *)
Lemma HasPrefix_Index (s sub : string) (i : nat) :
  HasPrefix (slice_from s i) sub = true → is_Some (Index s sub).
Proof.
  revert i; induction s as [|c s IH]; intros i Hp.
  - assert (slice_from "" i = "") as E by by destruct i.
    rewrite E in Hp. cbn [Index]. rewrite Hp. by eexists.
  - cbn [Index]. destruct (HasPrefix (String c s) sub) eqn:P; [by eexists|].
    destruct i as [|i].
    { change (slice_from (String c s) 0) with (String c s) in Hp. congruence. }
    change (slice_from (String c s) (S i)) with (slice_from s i) in Hp.
    destruct (IH i Hp) as [j ->]. by eexists.
Qed.

(** A paragraph break starts with a newline. *)
Lemma HasPrefix_nlnl_nl (s : string) :
  HasPrefix s nlnl = true → HasPrefix s nl = true.
Proof.
  destruct s as [|c s]; [done|]. unfold nlnl, nl.
  rewrite app_cons, app_empty_l. cbn [HasPrefix].
  destruct (decide (ascii_of_nat 10 = c)); [|done].
  intros _. by destruct s.
Qed.

Lemma slice_from_all (s : string) (n : nat) : len s <= n → slice_from s n = "".
Proof.
  intros Hle. apply len_zero_empty. rewrite len_slice_from. lia.
Qed.

Lemma HasSuffix_intro (s suffix : string) :
  len suffix <= len s → slice_from s (len s - len suffix) = suffix →
  HasSuffix s suffix = true.
Proof.
  intros Hle Hs. unfold HasSuffix. destruct (decide (len suffix <= len s));
    [by apply bool_decide_eq_true|lia].
Qed.

(** A string whose slice at [i] starts with [sep] ends with [sep] once cut
    right after it. *)
Lemma HasSuffix_cut (s sep : string) (i : nat) :
  HasPrefix (slice_from s i) sep = true →
  HasSuffix (slice_to s (i + len sep)) sep = true.
Proof.
  intros Hp. pose proof (HasPrefix_len _ _ Hp) as Hlen.
  rewrite len_slice_from in Hlen.
  apply HasPrefix_slice in Hp.
  destruct (decide (len sep = 0)) as [H0|Hpos].
  - apply len_zero_empty in H0. subst sep.
    apply HasSuffix_intro; [simpl; lia|]. simpl.
    apply slice_from_all. lia.
  - assert (i + len sep <= len s) by lia.
    apply HasSuffix_intro; rewrite len_slice_to; [lia|].
    rewrite Nat.min_l by done.
    replace (i + len sep - len sep) with i by lia.
    by rewrite <- slice_to_slice_from.
Qed.

(** ** More on chunking *)

(** C4 and C10 look at the chunks as a whole; the lemmas below follow the
    loop chunk by chunk. *)
Lemma splitLoop_chain (m : nat) (fuel : nat) :
  ∀ (remaining : string) (chunks out : list string),
    splitLoop fuel remaining m chunks = Some out →
    ∃ new, out = chunks ++ new ∧ chunk_chain m remaining new.
Proof.
  induction fuel as [|fuel IH]; intros remaining chunks out Hrun; [done|].
  simpl in Hrun. case_decide as Hpos.
  - case_decide as Hfit.
    + injection Hrun as <-. exists [remaining]. split; [done|].
      by apply chain_last.
    + apply IH in Hrun as (new & -> & Hc).
      eexists (_ :: new). rewrite <- app_assoc. split; [done|].
      apply chain_cut; [lia|done].
  - injection Hrun as <-. exists []. rewrite app_nil_r. split; [done|].
    replace remaining with "" by (symmetry; apply len_zero_empty; lia).
    constructor.
Qed.

Lemma splitContextIntoChunks_chain (text : string) (m : nat)
    (chunks : list string) :
  splitContextIntoChunks text m = Some chunks →
  chunks = [text] ∧ len text <= m
  ∨ m < len text ∧ chunk_chain m text chunks.
Proof.
  unfold splitContextIntoChunks. case_decide as Hfit.
  - intros [= <-]. by left.
  - intros (new & -> & Hc)%splitLoop_chain. right. split; [lia|done].
Qed.

Lemma slice_from_0 (s : string) : slice_from s 0 = s.
Proof. by destruct s. Qed.

Lemma Index_found (s sub : string) (i : nat) :
  Index s sub = Some i → HasPrefix (slice_from s i) sub = true.
Proof.
  revert i; induction s as [|c s IH]; intros i; cbn [Index].
  - destruct (HasPrefix "" sub) eqn:P; [|done]. by intros [= <-].
  - destruct (HasPrefix (String c s) sub) eqn:P; [by intros [= <-]|].
    destruct (Index s sub) as [j|] eqn:E; [|done].
    intros [= <-]. by apply IH.
Qed.

(** No occurrence starts after the last one. *)
Lemma LastIndex_last (s sub : string) (i j : nat) :
  LastIndex s sub = Some i → i < j → j <= len s →
  HasPrefix (slice_from s j) sub = false.
Proof.
  revert i j; induction s as [|c s IH]; intros i j.
  - simpl. intros _ ??. lia.
  - cbn [LastIndex]. destruct (LastIndex s sub) as [k|] eqn:E.
    + intros [= <-] Hlt Hle. destruct j as [|j]; [lia|].
      change (slice_from (String c s) (S j)) with (slice_from s j).
      apply (IH k); [done|lia|simpl in Hle; lia].
    + intros _ Hlt Hle. destruct j as [|j]; [lia|].
      change (slice_from (String c s) (S j)) with (slice_from s j).
      destruct (HasPrefix (slice_from s j) sub) eqn:P; [|done].
      apply HasPrefix_Index, Index_LastIndex in P. rewrite E in P.
      by destruct P.
Qed.

(** The shape of a chunk that is cut at a break point: where the cut falls,
    the separator the chunk ends with, and that the rest of the window holds
    no later separator of that kind. *)
Lemma breakPoint_shape (remaining : string) (m : nat) :
  1 <= m → m < len remaining →
  let window := slice_to remaining m in
  let tail := slice_from window (searchStartOf m) in
  let breakPoint := breakPointOf window m in
  let chunk := slice_to remaining breakPoint in
  let rest := slice_from window breakPoint in
  searchStartOf m < breakPoint ∧ breakPoint <= m ∧ len chunk = breakPoint
  ∧ (Contains tail nlnl = true →
     HasSuffix chunk nlnl = true ∧ Contains rest nlnl = false)
  ∧ (Contains tail nlnl = false → Contains tail nl = true →
     HasSuffix chunk nl = true ∧ Contains rest nl = false)
  ∧ (Contains tail nl = false → Contains tail sp = true →
     HasSuffix chunk sp = true ∧ Contains rest sp = false)
  ∧ (Contains tail nl = false → Contains tail sp = false → breakPoint = m).
Proof.
  intros Hm Hlong window tail breakPoint chunk rest.
  assert (len window = m) as Hw by (unfold window; rewrite len_slice_to; lia).
  pose proof (searchStartOf_le m) as Hss.
  assert (searchStartOf m < m) as Hss'.
  { unfold searchStartOf. apply Nat.Div0.div_lt_upper_bound. lia. }
  assert (len tail = m - searchStartOf m) as Htail
    by (unfold tail; rewrite len_slice_from; lia).
  assert (∀ sep idx, 1 <= len sep → LastIndex tail sep = Some idx →
     searchStartOf m + idx + len sep <= m
     ∧ HasSuffix (slice_to remaining (searchStartOf m + idx + len sep)) sep
       = true
     ∧ Contains (slice_from window (searchStartOf m + idx + len sep)) sep
       = false) as Hcut.
  { intros sep idx Hsep Hidx. pose proof (LastIndex_bound _ _ _ Hidx) as Hb.
    split; [lia|]. split.
    - apply LastIndex_found in Hidx.
      unfold tail in Hidx. rewrite slice_from_slice_from in Hidx.
      rewrite <- (slice_to_slice_to remaining _ m) by lia.
      by apply HasSuffix_cut.
    - apply bool_decide_eq_false. intros [j Hj]. apply Index_found in Hj.
      rewrite slice_from_slice_from in Hj.
      pose proof (HasPrefix_len _ _ Hj) as Hl. rewrite len_slice_from in Hl.
      replace (searchStartOf m + idx + len sep + j)
        with (searchStartOf m + (idx + len sep + j)) in Hj by lia.
      rewrite <- slice_from_slice_from in Hj. fold tail in Hj.
      rewrite (LastIndex_last tail sep idx) in Hj; [done|done|lia|lia]. }
  assert (∀ sep, Contains tail sep = true → is_Some (LastIndex tail sep))
    as Hfound.
  { intros sep Hc. apply Index_LastIndex. by apply bool_decide_eq_true in Hc. }
  assert (∀ sep, Contains tail sep = false → LastIndex tail sep = None)
    as Hnone.
  { intros sep Hc. destruct (LastIndex tail sep) as [i|] eqn:E; [|done].
    exfalso. apply bool_decide_eq_false in Hc. apply Hc.
    eapply HasPrefix_Index, LastIndex_found, E. }
  assert (Contains tail nl = false → LastIndex tail nlnl = None) as Hnn.
  { intros Hn. destruct (LastIndex tail nlnl) as [i|] eqn:E; [|done].
    exfalso. apply bool_decide_eq_false in Hn. apply Hn.
    eapply HasPrefix_Index, HasPrefix_nlnl_nl, LastIndex_found, E. }
  assert (len nlnl = 2 ∧ len nl = 1 ∧ len sp = 1) as (L2 & L1 & Ls) by done.
  assert (len chunk = breakPoint ∧ searchStartOf m < breakPoint
          ∧ breakPoint <= m) as (Hlen & Hlo & Hhi).
  { assert (searchStartOf m < breakPoint ∧ breakPoint <= m) as [??].
    { unfold breakPoint, breakPointOf. fold tail.
      repeat match goal with
      | |- context [LastIndex tail ?sep] =>
          let E := fresh "E" in
          destruct (LastIndex tail sep) eqn:E;
          [apply Hcut in E as [E _]; lia|]
      end. lia. }
    split; [|done]. unfold chunk. rewrite len_slice_to. lia. }
  split_and!; try done.
  - intros Hc. destruct (Hfound _ Hc) as [idx Hidx].
    unfold chunk, rest, breakPoint, breakPointOf. fold tail. rewrite Hidx.
    destruct (Hcut nlnl idx) as (_ & ? & ?); [lia|done|]. by rewrite L2 in *.
  - intros Hn Hc. destruct (Hfound _ Hc) as [idx Hidx].
    unfold chunk, rest, breakPoint, breakPointOf. fold tail.
    rewrite (Hnone _ Hn), Hidx.
    destruct (Hcut nl idx) as (_ & ? & ?); [lia|done|]. by rewrite L1 in *.
  - intros Hn Hc. destruct (Hfound _ Hc) as [idx Hidx].
    unfold chunk, rest, breakPoint, breakPointOf. fold tail.
    rewrite (Hnn Hn), (Hnone _ Hn), Hidx.
    destruct (Hcut sp idx) as (_ & ? & ?); [lia|done|]. by rewrite Ls in *.
  - intros Hn Hs. unfold breakPoint, breakPointOf. fold tail.
    by rewrite (Hnn Hn), (Hnone _ Hn), (Hnone _ Hs).
Qed.

(** The chunk at a position that is not the last one is the slice up to the
    break point of what the chunks before it leave of the text. *)
Lemma chunk_chain_lookup (m : nat) (remaining : string) (chunks : list string) :
  1 <= m → chunk_chain m remaining chunks →
  ∀ i c, chunks !! i = Some c → is_Some (chunks !! S i) →
    m < len (slice_from remaining (len (concatenation (take i chunks))))
    ∧ c = slice_to
            (slice_from remaining (len (concatenation (take i chunks))))
            (breakPointOf
               (slice_to
                  (slice_from remaining (len (concatenation (take i chunks))))
                  m) m).
Proof.
  intros Hm Hc.
  induction Hc as [|remaining Hpos Hfit|remaining rest Hlong Hc IH];
    intros i c Hi Hnext.
  - done.
  - destruct i; [by destruct Hnext|done].
  - destruct i as [|i].
    + injection Hi as <-. simpl. by rewrite slice_from_0.
    + destruct (IH i c Hi Hnext) as [H1 H2].
      pose proof (breakPoint_shape remaining m Hm Hlong) as (_ & _ & Hl & _).
      cbv zeta in Hl.
      change (take (S i) (?x :: rest)) with (x :: take i rest).
      change (concatenation (?x :: ?l)) with (x +:+ concatenation l).
      rewrite len_app, Hl, <- slice_from_slice_from. by split.
Qed.

(** All chunks but the last are longer than four fifths of the size, which
    bounds their number. *)
Lemma chunk_chain_count (m : nat) (remaining : string) (chunks : list string) :
  1 <= m → chunk_chain m remaining chunks → 0 < len remaining →
  1 <= length chunks
  ∧ (length chunks - 1) * (searchStartOf m + 1) + 1 <= len remaining.
Proof.
  intros Hm Hc.
  induction Hc as [|remaining Hpos Hfit|remaining rest Hlong Hc IH];
    intros Hne.
  - simpl in Hne. lia.
  - simpl. lia.
  - pose proof (breakPoint_shape remaining m Hm Hlong) as (Hlo & Hhi & _).
    cbv zeta in Hlo, Hhi.
    destruct IH as [H1 H2]; [rewrite len_slice_from; lia|].
    rewrite len_slice_from in H2. simpl. split; [lia|].
    rewrite Nat.sub_0_r. nia.
Qed.

(** X1: with a chunk size of zero a non-empty text is never chunked: the
    loop of [splitContextIntoChunks] cuts an empty chunk on every iteration
    and [remaining] stays as it is, however many iterations are granted. *)
Theorem splitContextIntoChunks_zero_size_loops (text : string) :
  text ≠ "" →
  splitContextIntoChunks text 0 = None
  ∧ ∀ fuel chunks, splitLoop fuel text 0 chunks = None.
Proof.
  intros Hne.
  assert (0 < len text) as Hpos by (destruct text; [done|simpl; lia]).
  split.
  - unfold splitContextIntoChunks. rewrite decide_False by lia.
    by apply splitLoop_zero_diverges.
  - intros fuel chunks. by apply splitLoop_zero_diverges.
Qed.

Lemma splitContextIntoChunks_zero_size_loops_witness :
  "a" ≠ ""
  ∧ splitContextIntoChunks "a" 0 = None
  ∧ ∀ fuel chunks, splitLoop fuel "a" 0 chunks = None.
Proof.
  split; [discriminate|].
  apply (splitContextIntoChunks_zero_size_loops "a"). discriminate.
Defined.

(** X2: every chunk of [splitContextIntoChunks] that is not the last one is
    cut from the text where the chunks before it end, is longer than four
    fifths of the size [S] and no longer than [S], and ends at the best break
    of its window (the next [S] bytes of the text): right after the last
    paragraph break that lies in the last fifth of the window when there is
    one, else right after the last newline there, else right after the last
    space there, and with exactly [S] bytes when the last fifth has none of
    them. *)
Theorem splitContextIntoChunks_break_preference (text : string) (S : nat)
    (chunks : list string) (i : nat) (c : string) :
  1 <= S →
  splitContextIntoChunks text S = Some chunks →
  chunks !! i = Some c → is_Some (chunks !! (i + 1)) →
  let start := len (concatenation (take i chunks)) in
  let window := slice_to (slice_from text start) S in
  let tail := slice_from window (searchStartOf S) in
  let rest := slice_from window (len c) in
  c = slice_to (slice_from text start) (len c)
  ∧ searchStartOf S < len c <= S
  ∧ (Contains tail nlnl = true →
     HasSuffix c nlnl = true ∧ Contains rest nlnl = false)
  ∧ (Contains tail nlnl = false → Contains tail nl = true →
     HasSuffix c nl = true ∧ Contains rest nl = false)
  ∧ (Contains tail nl = false → Contains tail sp = true →
     HasSuffix c sp = true ∧ Contains rest sp = false)
  ∧ (Contains tail nl = false → Contains tail sp = false → len c = S).
Proof.
  intros HS Hrun Hi Hnext start window tail rest.
  rewrite Nat.add_1_r in Hnext.
  destruct (splitContextIntoChunks_chain _ _ _ Hrun) as [[-> _]|[_ Hc]].
  { destruct i; [by destruct Hnext|done]. }
  destruct (chunk_chain_lookup S text chunks HS Hc i c Hi Hnext) as [Hlong Hcut].
  fold start in Hlong, Hcut.
  pose proof (breakPoint_shape (slice_from text start) S HS Hlong)
    as (Hlo & Hhi & Hlen & H1 & H2 & H3 & H4).
  cbv zeta in Hlo, Hhi, Hlen, H1, H2, H3, H4.
  fold window in Hcut, Hlo, Hhi, Hlen, H1, H2, H3, H4.
  fold tail in H1, H2, H3, H4.
  rewrite <- Hcut in Hlen, H1, H2, H3. rewrite <- Hlen in Hlo, Hhi, H1, H2, H3, H4.
  rewrite <- Hlen in Hcut.
  fold rest in H1, H2, H3.
  split_and!; try done.
Qed.

Lemma splitContextIntoChunks_break_preference_witness :
  ∃ chunks,
    splitContextIntoChunks "one two. three four" 10 = Some chunks
    ∧ chunks !! 0 = Some "one two. "
    ∧ HasSuffix "one two. " sp = true.
Proof.
  assert (splitContextIntoChunks "one two. three four" 10
          = Some ["one two. "; "three four"]) as Hrun by reflexivity.
  exists ["one two. "; "three four"]. split; [exact Hrun|]. split; [done|].
  assert (1 <= 10) as HS by lia.
  assert (is_Some (["one two. "; "three four"] !! (0 + 1))) as Hnext
    by by eexists.
  pose proof (splitContextIntoChunks_break_preference "one two. three four"
                10 _ 0 "one two. " HS Hrun eq_refl Hnext)
    as (_ & _ & _ & _ & H3 & _).
  by apply H3.
Defined.

(** X3: [splitContextIntoChunks] with a size [S >= 1] returns at least one
    chunk, and every chunk but the last covers more than four fifths of [S]:
    a text of [n] bytes gives at most [1 + n / (0.8 * S + 1)] chunks. *)
Theorem splitContextIntoChunks_count (text : string) (S : nat)
    (chunks : list string) :
  1 <= S →
  splitContextIntoChunks text S = Some chunks →
  1 <= length chunks
  ∧ (length chunks - 1) * (searchStartOf S + 1) <= len text
  ∧ ∀ i c, chunks !! i = Some c → is_Some (chunks !! (i + 1)) →
           searchStartOf S < len c.
Proof.
  intros HS Hrun.
  destruct (splitContextIntoChunks_chain _ _ _ Hrun)
    as [[-> Hfit]|[Hlong Hc]].
  { simpl. split; [lia|]. split; [lia|].
    intros i c Hi Hnext. rewrite Nat.add_1_r in Hnext.
    destruct i; [by destruct Hnext|done]. }
  destruct (chunk_chain_count S text chunks HS Hc) as [H1 H2]; [lia|].
  split; [done|]. split; [lia|].
  intros i c Hi Hnext. rewrite Nat.add_1_r in Hnext.
  destruct (chunk_chain_lookup S text chunks HS Hc i c Hi Hnext) as [Hl Hcut].
  pose proof (breakPoint_shape _ S HS Hl) as (Hlo & _ & Hlen & _).
  cbv zeta in Hlo, Hlen. rewrite <- Hcut in Hlen. lia.
Qed.

Lemma splitContextIntoChunks_count_witness :
  ∃ chunks,
    splitContextIntoChunks "one two. three four" 10 = Some chunks
    ∧ 1 <= length chunks
    ∧ (length chunks - 1) * (searchStartOf 10 + 1) <= len "one two. three four".
Proof.
  assert (splitContextIntoChunks "one two. three four" 10
          = Some ["one two. "; "three four"]) as Hrun by reflexivity.
  assert (1 <= 10) as HS by lia.
  exists ["one two. "; "three four"]. split; [exact Hrun|].
  destruct (splitContextIntoChunks_count _ _ _ HS Hrun) as (H1 & H2 & _).
  by split.
Defined.

(** ** More on context compression *)

(** X4: for a context above the limit of a direct compression (60% of the
    character budget), [compressContext] goes through chunks, and whenever
    it returns it returns no error and a text within that limit: the chunked
    branch ends only on a joined result that fits. *)
Theorem compressContext_oversized `{U : !Unicode} (cfg : Config)
    (chat : ChatOracle) (fuel : nat) (context : string) (targetRatio : Q)
    (n n' : nat) (out : string) (err : option string) :
  maxContextChars cfg * 3 / 5 < len context →
  compressContext cfg chat fuel context targetRatio n = Some ((out, err), n') →
  err = None ∧ len out <= maxContextChars cfg * 3 / 5.
Proof.
  revert context n. induction fuel as [|fuel IH]; intros context n Hbig Hrun.
  - cbn [compressContext] in Hrun. by rewrite decide_False in Hrun by lia.
  - cbn [compressContext] in Hrun. rewrite decide_False in Hrun by lia.
    unfold compressContextChunked in Hrun. cbv zeta in Hrun.
    destruct (splitContextIntoChunks _ _) as [chunks|]; [|done].
    unfold mbind, LLM_bind in Hrun.
    destruct (compressChunks chat chunks _ targetRatio [] n)
      as [[parts n1]|]; [|done].
    case_decide as Hres.
    + by eapply IH.
    + injection Hrun as <- <- <-. split; [done|lia].
Qed.

Lemma compressContext_oversized_witness :
  maxContextChars cfg_small * 3 / 5 < len (repeat_byte "a" 300)
  ∧ ∃ out n',
      compressContext (U := ascii_unicode) cfg_small chat_verbose 1
        (repeat_byte "a" 300) (1 # 2) 0 = Some ((out, None), n')
      ∧ len out <= maxContextChars cfg_small * 3 / 5.
Proof.
  assert (maxContextChars cfg_small * 3 / 5 < len (repeat_byte "a" 300))
    as Hbig by (vm_compute; lia).
  assert (compressContext (U := ascii_unicode) cfg_small chat_verbose 1
            (repeat_byte "a" 300) (1 # 2) 0
          = Some ((repeat_byte "b" 200, None), 1)) as Hrun
    by (vm_compute; reflexivity).
  split; [exact Hbig|]. exists (repeat_byte "b" 200), 1.
  split; [exact Hrun|].
  exact (proj2 (compressContext_oversized (U := ascii_unicode) cfg_small
    chat_verbose 1 _ _ 0 1 _ None Hbig Hrun)).
Defined.

(** X5: with a small budget [compressContext] can recurse for ever. A
    context above 60% of the budget but of at most 500 bytes is one chunk
    (the chunk size is never below 2000); when its compression fails, by an
    error of the client or by an answer of less than 200 bytes, the chunk is
    kept whole (only chunks above a quarter of the chunk size are truncated),
    the joined result is the context again, and [compressContext] is called
    on it again: no depth of recursion gives a result. *)
Theorem compressContext_small_budget_loops `{U : !Unicode} (cfg : Config)
    (chat : ChatOracle) (context : string) (targetRatio : Q) :
  (∀ n, match chat n (compressMessages context targetRatio) with
        | Err _ => True
        | Ok resp => len (TrimSpace (stripThinkTags resp)) < 200
        end) →
  maxContextChars cfg * 3 / 5 < len context → len context <= 500 →
  ∀ fuel n, compressContext cfg chat fuel context targetRatio n = None.
Proof.
  intros Hfail Hbig Hsmall fuel. induction fuel as [|fuel IH]; intros n.
  - cbn [compressContext]. by rewrite decide_False by lia.
  - cbn [compressContext]. rewrite decide_False by lia.
    unfold compressContextChunked. cbv zeta.
    assert (maxContextChars cfg / 2 < 2000) as Hc.
    { pose proof (Nat.div_mod_eq (maxContextChars cfg * 3) 5).
      pose proof (Nat.mod_upper_bound (maxContextChars cfg * 3) 5).
      assert (maxContextChars cfg / 2 <= maxContextChars cfg)
        by (apply Nat.Div0.div_le_upper_bound; lia).
      lia. }
    destruct (decide (maxContextChars cfg / 2 < 2000)); [|done].
    unfold splitContextIntoChunks. rewrite decide_True by lia.
    cbn [compressChunks]. unfold compressContextDirect. llm_unfold.
    specialize (Hfail n).
    destruct (chat n (compressMessages context targetRatio)) as [resp|e].
    + rewrite decide_True by done.
      rewrite (decide_False (P := 2000 / 4 < len context))
        by (change (2000 / 4) with 500; lia).
      cbn [app Join]. rewrite decide_True by lia. apply IH.
    + rewrite (decide_False (P := 2000 / 4 < len context))
        by (change (2000 / 4) with 500; lia).
      cbn [app Join]. rewrite decide_True by lia. apply IH.
Qed.

Lemma compressContext_small_budget_loops_witness :
  maxContextChars cfg_small * 3 / 5 < len (repeat_byte "a" 300)
  ∧ len (repeat_byte "a" 300) <= 500
  ∧ ∀ fuel n,
      compressContext (U := ascii_unicode) cfg_small chat_down fuel
        (repeat_byte "a" 300) (1 # 2) n = None.
Proof.
  assert (maxContextChars cfg_small * 3 / 5 < len (repeat_byte "a" 300))
    as Hbig by (vm_compute; lia).
  assert (len (repeat_byte "a" 300) <= 500) as Hsmall by (vm_compute; lia).
  split; [exact Hbig|]. split; [exact Hsmall|].
  apply (compressContext_small_budget_loops (U := ascii_unicode) cfg_small
    chat_down (repeat_byte "a" 300) (1 # 2)); [|exact Hbig|exact Hsmall].
  intros n. exact I.
Defined.

Lemma len_Join_ge (l : list string) (sep : string) :
  len (concatenation l) <= len (Join l sep).
Proof.
  induction l as [|x l IH]; [done|].
  change (concatenation (x :: l)) with (x +:+ concatenation l).
  destruct l as [|y l].
  - simpl. rewrite len_app. simpl. lia.
  - change (Join (x :: y :: l) sep) with (x +:+ sep +:+ Join (y :: l) sep).
    rewrite !len_app. lia.
Qed.

(** The chunks of a text reassemble to it. *)
Lemma splitContextIntoChunks_concat (text : string) (m : nat) :
  1 <= m →
  ∃ chunks, splitContextIntoChunks text m = Some chunks
    ∧ concatenation chunks = text.
Proof.
  intros Hm. unfold splitContextIntoChunks. case_decide.
  - exists [text]. split; [done|]. simpl. by rewrite app_empty_r.
  - destruct (splitLoop_spec m Hm (S (len text)) text []) as (out & Hr & Hc & _);
      [lia|].
    exists out. by split.
Qed.

Section never_shorter.
Context `{U : !Unicode} (chat : ChatOracle) (targetRatio : Q).
Hypothesis Hgrow : ∀ n chunk, ∃ resp,
  chat n (compressMessages chunk targetRatio) = Ok resp
  ∧ 200 <= len (TrimSpace (stripThinkTags resp))
  ∧ len chunk <= len (TrimSpace (stripThinkTags resp)).

Lemma compressChunks_never_shorter (chunkSize : nat) (chunks : list string) :
  ∀ parts n, ∃ out n',
    compressChunks chat chunks chunkSize targetRatio parts n = Some (out, n')
    ∧ len (concatenation parts) + len (concatenation chunks)
      <= len (concatenation out).
Proof.
  induction chunks as [|chunk rest IH]; intros parts n.
  - exists parts, n. split; [done|]. simpl. lia.
  - cbn [compressChunks]. unfold compressContextDirect. llm_unfold.
    destruct (Hgrow n chunk) as (resp & -> & H200 & Hlen).
    rewrite decide_False by lia.
    destruct (IH (parts ++ [TrimSpace (stripThinkTags resp)]) (S n))
      as (out & n' & -> & Hout).
    exists out, n'. split; [done|].
    rewrite concat_app_str, len_app in Hout.
    change (concatenation (chunk :: rest)) with (chunk +:+ concatenation rest).
    change (concatenation [?x]) with (x +:+ "") in Hout.
    rewrite len_app in *. simpl in Hout. lia.
Qed.

End never_shorter.

Lemma len_repeat_byte (c : ascii) (k : nat) : len (repeat_byte c k) = k.
Proof. induction k; simpl; congruence. Qed.

Lemma rev_repeat_byte (c : ascii) (k : nat) :
  String.rev (repeat_byte c k) = repeat_byte c k.
Proof.
  assert (∀ j s, repeat_byte c j +:+ String c s
                 = String c (repeat_byte c j +:+ s)) as Hsnoc.
  { intros j s. induction j as [|j IH]; [done|].
    simpl. by rewrite !app_cons, IH. }
  assert (∀ j s, String.rev_app (repeat_byte c j) s = repeat_byte c j +:+ s)
    as Hrev.
  { intros j. induction j as [|j IH]; intros s; [done|].
    simpl. by rewrite IH, Hsnoc, app_cons. }
  unfold String.rev. by rewrite Hrev, app_empty_r.
Qed.

(** A run of the byte [x] has no tag to strip and no space to trim. *)
Lemma strip_repeat_x (k : nat) :
  TrimSpace (Unicode := ascii_unicode)
    (stripThinkTags (U := ascii_unicode) (repeat_byte "x" k))
  = repeat_byte "x" k.
Proof.
  assert (Index (repeat_byte "x" k) "<think>" = None) as Hno.
  { induction k as [|k IH]; [done|]. simpl. by rewrite IH. }
  assert (ascii_TrimSpace (repeat_byte "x" k) = repeat_byte "x" k) as Htrim.
  { unfold ascii_TrimSpace.
    assert (trim_left (repeat_byte "x" k) = repeat_byte "x" k) as ->
      by by destruct k.
    rewrite rev_repeat_byte.
    assert (trim_left (repeat_byte "x" k) = repeat_byte "x" k) as ->
      by by destruct k.
    apply rev_repeat_byte. }
  unfold stripThinkTags. rewrite Hno. simpl. by rewrite !Htrim.
Qed.

(** X6: a model that never shortens makes [compressContext] recurse for
    ever. When every compression request is answered with a text of at least
    200 bytes that is no shorter than the chunk it was asked to compress, the
    joined result of a chunked pass is no shorter than the context, so a
    context above 60% of the budget is handed to [compressContext] again and
    again: no depth of recursion gives a result. *)
Theorem compressContext_never_shorter_loops `{U : !Unicode} (cfg : Config)
    (chat : ChatOracle) (targetRatio : Q) (context : string) :
  (∀ n chunk, ∃ resp,
     chat n (compressMessages chunk targetRatio) = Ok resp
     ∧ 200 <= len (TrimSpace (stripThinkTags resp))
     ∧ len chunk <= len (TrimSpace (stripThinkTags resp))) →
  maxContextChars cfg * 3 / 5 < len context →
  ∀ fuel n, compressContext cfg chat fuel context targetRatio n = None.
Proof.
  intros Hgrow Hbig fuel. revert context Hbig.
  induction fuel as [|fuel IH]; intros context Hbig n.
  - cbn [compressContext]. by rewrite decide_False by lia.
  - cbn [compressContext]. rewrite decide_False by lia.
    unfold compressContextChunked. cbv zeta.
    set (chunkSize := if decide (maxContextChars cfg / 2 < 2000) then 2000
                      else maxContextChars cfg / 2).
    assert (1 <= chunkSize) as Hsize by (unfold chunkSize; case_decide; lia).
    destruct (splitContextIntoChunks_concat context chunkSize Hsize)
      as (chunks & -> & Hcat).
    unfold mbind, LLM_bind.
    destruct (compressChunks_never_shorter chat targetRatio Hgrow chunkSize
                chunks [] n) as (parts & n' & -> & Hparts).
    pose proof (len_Join_ge parts (nl +:+ nl +:+ "---" +:+ nl +:+ nl)) as Hj.
    rewrite Hcat in Hparts. simpl in Hparts.
    rewrite decide_True by lia. apply IH. lia.
Qed.

Lemma compressContext_never_shorter_loops_witness :
  maxContextChars cfg_small * 3 / 5 < len (repeat_byte "a" 300)
  ∧ ∀ fuel n,
      compressContext (U := ascii_unicode) cfg_small chat_longer fuel
        (repeat_byte "a" 300) (1 # 2) n = None.
Proof.
  assert (maxContextChars cfg_small * 3 / 5 < len (repeat_byte "a" 300))
    as Hbig by (vm_compute; lia).
  split; [exact Hbig|].
  apply (compressContext_never_shorter_loops (U := ascii_unicode) cfg_small
    chat_longer (1 # 2) (repeat_byte "a" 300)); [|exact Hbig].
  intros n chunk. eexists. split; [reflexivity|].
  rewrite strip_repeat_x, len_repeat_byte.
  unfold compressMessages, compressPrompt. simpl.
  rewrite !len_app. lia.
Defined.

(** ** More on the report ladder *)

Lemma writeReportLoop_bounded `{U : !Unicode} (cfg : Config)
    (chat : ChatOracle) (fuel : nat) (topic : string) (iterations : nat) :
  (∀ n msgs resp, chat n msgs = Ok resp →
     len (TrimSpace (stripThinkTags resp)) <= maxContextChars cfg * 3 / 5) →
  ∀ attempt limit ctx trace n,
    len ctx <= maxContextChars cfg * 3 / 5 →
    ∃ res trace' n',
      writeReportLoop cfg chat fuel topic iterations attempt limit ctx trace n
        = Some ((res, trace'), n')
      ∧ n <= n' <= n + 2 * iterations.
Proof.
  intros Hfits. induction iterations as [|iterations IH];
    intros attempt limit ctx trace n Hctx.
  { eexists _, _, _. split; [reflexivity|lia]. }
  cbn [writeReportLoop]. llm_unfold.
  assert (∀ (attempt' limit' : nat) ctx' trace' m,
            len ctx' <= maxContextChars cfg * 3 / 5 → n <= m <= n + 2 →
            ∃ res trace'' n',
              writeReportLoop cfg chat fuel topic iterations attempt' limit'
                ctx' trace' m = Some ((res, trace''), n')
              ∧ n <= n' <= n + 2 * S iterations) as Hnext.
  { intros attempt' limit' ctx' trace' m Hc' Hm.
    destruct (IH attempt' limit' ctx' trace' m Hc')
      as (res & trace'' & n' & -> & Hb).
    eexists _, _, _. split; [reflexivity|lia]. }
  destruct (decide (limit < len ctx)) as [Hlong|Hshort].
  - rewrite compressContext_direct by done.
    unfold compressContextDirect. llm_unfold.
    destruct (chat n _) as [resp|e] eqn:Hc; [case_decide|]; cbn [fst snd];
      (destruct (chat (S n) _) as [resp'|e'];
       [eexists _, _, _; split; [reflexivity|lia]
       |destruct (bool_decide (attempt < maxRetries) && budget_looking e');
        [apply Hnext; [|lia]
        |eexists _, _, _; split; [reflexivity|lia]]]).
    + rewrite len_slice_to. lia.
    + by eapply Hfits.
    + rewrite len_slice_to. lia.
  - cbn [fst snd]. destruct (chat n _) as [resp'|e'];
      [eexists _, _, _; split; [reflexivity|lia]
      |destruct (bool_decide (attempt < maxRetries) && budget_looking e');
       [apply Hnext; [done|lia]
       |eexists _, _, _; split; [reflexivity|lia]]].
Qed.

(** X7: [writeReport] is sure to return, after at most six calls to the
    model (a compression and a generation on each of the three attempts),
    when the context is within the limit of a direct compression (60% of the
    budget) and so is every answer of the model once cleaned: the unbounded
    recursion of the chunked compression is then never entered. *)
Theorem writeReport_returns_within_six_calls `{U : !Unicode} (cfg : Config)
    (chat : ChatOracle) (fuel : nat) (topic context : string) (n : nat) :
  (∀ n msgs resp, chat n msgs = Ok resp →
     len (TrimSpace (stripThinkTags resp)) <= maxContextChars cfg * 3 / 5) →
  len context <= maxContextChars cfg * 3 / 5 →
  ∃ res trace n',
    writeReport cfg chat fuel topic context n = Some ((res, trace), n')
    ∧ n <= n' <= n + 6.
Proof.
  intros Hfits Hctx. unfold writeReport.
  destruct (writeReportLoop_bounded cfg chat fuel topic maxRetries Hfits 1
              (maxContextChars cfg / 2) context [] n Hctx)
    as (res & trace & n' & Hrun & Hb).
  exists res, trace, n'. split; [exact Hrun|]. unfold maxRetries in Hb. lia.
Qed.

Lemma writeReport_returns_within_six_calls_witness :
  len (repeat_byte "a" 200) <= maxContextChars cfg_small * 3 / 5
  ∧ ∃ res trace n',
      writeReport (U := ascii_unicode) cfg_small chat_verbose 0 "topic"
        (repeat_byte "a" 200) 0 = Some ((res, trace), n')
      ∧ 0 <= n' <= 0 + 6.
Proof.
  assert (len (repeat_byte "a" 200) <= maxContextChars cfg_small * 3 / 5)
    as Hctx by (vm_compute; lia).
  split; [exact Hctx|].
  apply (writeReport_returns_within_six_calls (U := ascii_unicode) cfg_small
    chat_verbose 0 "topic" (repeat_byte "a" 200) 0); [|exact Hctx].
  intros n msgs resp. unfold chat_verbose.
  destruct msgs as [|? [|? [|? ?]]]; intros [= <-]; vm_compute; lia.
Defined.

(** X8: the retry loop of [writeReport] ends at the first attempt whose
    generation succeeds, with the answer stripped of its think block, and at
    the first attempt whose generation fails with an error that mentions
    neither [context] nor [token], with that error and the number of the
    attempt: such a failure is never retried. *)
Theorem writeReport_stops `{U : !Unicode} (cfg : Config) (chat : ChatOracle)
    (fuel : nat) (topic context : string) (n n' : nat)
    (res : result string) (trace : list attempt_record) :
  writeReport cfg chat fuel topic context n = Some ((res, trace), n') →
  ∀ i r, trace !! i = Some r →
    (∀ resp, at_outcome r = Ok resp →
       trace !! S i = None ∧ res = Ok (stripThinkTags resp))
    ∧ (∀ e, at_outcome r = Err e → budget_looking e = false →
         trace !! S i = None
         ∧ res = Err ("report generation failed after " +:+ pretty (S i)
                      +:+ " attempts: " +:+ e)).
Proof.
  unfold writeReport. intros Hrun.
  apply writeReportLoop_ladder in Hrun as (new & -> & Hl);
    [|done|unfold maxRetries; lia].
  rewrite app_nil_l. intros i r Hi.
  destruct (ladder_lookup _ _ _ _ _ _ _ _ _ _ _ Hl Hi) as (Ha & _).
  assert (¬ retried r → new !! S i = None ∧ res = final_answer r) as Hlast.
  { intros Hnr. destruct (new !! S i) as [r'|] eqn:Hn.
    - by destruct (ladder_next _ _ _ _ _ _ _ _ _ _ _ _ Hl Hi Hn) as (? & _).
    - split; [done|].
      by destruct (ladder_final _ _ _ _ _ _ _ _ _ _ _ Hl Hi Hn). }
  split.
  - intros resp Hout. destruct Hlast as [Hn ->].
    { intros (_ & e & He & _). congruence. }
    split; [done|]. unfold final_answer. by rewrite Hout.
  - intros e Hout Hb. destruct Hlast as [Hn ->].
    { intros (_ & e' & He & Hb'). congruence. }
    split; [done|]. unfold final_answer. by rewrite Hout, Ha.
Qed.

Lemma writeReport_stops_witness :
  ∃ res trace n' r,
    writeReport (U := ascii_unicode) cfg_small chat_down 0 "topic"
      (repeat_byte "a" 200) 0 = Some ((res, trace), n')
    ∧ trace !! 0 = Some r
    ∧ at_outcome r = Err "connection refused"
    ∧ trace !! 1 = None
    ∧ res = Err ("report generation failed after " +:+ pretty 1
                 +:+ " attempts: " +:+ "connection refused").
Proof.
  eexists _, _, _, _. split; [vm_compute; reflexivity|].
  split; [reflexivity|]. split; [reflexivity|].
  exact (proj2 (writeReport_stops (U := ascii_unicode) cfg_small chat_down 0
    "topic" (repeat_byte "a" 200) 0 _ _ _ eq_refl 0 _ eq_refl)
    "connection refused" eq_refl eq_refl).
Defined.

(** ** More on the search executor *)

Section appended.
Context `{U : !Unicode} (cfg : Config) (beyond : string → string)
  (chat : ChatOracle) (searcher : search.Searcher).

Lemma first_occurrences_from_app seen earlier e1 e2 :
  first_occurrences_from beyond seen earlier (e1 ++ e2)
  = first_occurrences_from beyond seen earlier e1
    ++ first_occurrences_from beyond seen (earlier ++ e1) e2.
Proof.
  revert earlier. induction e1 as [|r e1 IH]; intros earlier; simpl.
  - by rewrite app_nil_r.
  - by rewrite IH, <- !app_assoc.
Qed.

(** Only the URLs already met matter, not where they were met. *)
Lemma first_occurrences_from_ext seen seen' earlier earlier' rs :
  (∀ u, u ∈ seen ∨ u ∈ (normalizeURL beyond ∘ search.URL <$> earlier)
        ↔ u ∈ seen' ∨ u ∈ (normalizeURL beyond ∘ search.URL <$> earlier')) →
  first_occurrences_from beyond seen earlier rs
  = first_occurrences_from beyond seen' earlier' rs.
Proof.
  revert earlier earlier'. induction rs as [|r rs IH];
    intros earlier earlier' Hsame; [done|].
  cbn [first_occurrences_from]. cbv zeta.
  rewrite (IH (earlier ++ [r]) (earlier' ++ [r])).
  - f_equal. specialize (Hsame (normalizeURL beyond (search.URL r))).
    rewrite (bool_decide_ext _
      (normalizeURL beyond (search.URL r) ∉ seen'
       ∧ normalizeURL beyond (search.URL r)
           ∉ (normalizeURL beyond ∘ search.URL <$> earlier'))); [done|].
    tauto.
  - intros u. rewrite !fmap_app, !elem_of_app. specialize (Hsame u). tauto.
Qed.

Lemma grew_refl acc : grew cfg beyond searcher acc acc [] [].
Proof.
  unfold grew. simpl. rewrite !app_nil_r, app_empty_r.
  split_and!; try done; try lia; try set_solver. constructor.
Qed.

Lemma grew_trans acc1 acc2 acc3 e1 e2 n1 n2 :
  grew cfg beyond searcher acc1 acc2 e1 n1 →
  grew cfg beyond searcher acc2 acc3 e2 n2 →
  grew cfg beyond searcher acc1 acc3 (e1 ++ e2) (n1 ++ n2).
Proof.
  intros (Hs1 & Hsub1 & Hsrc1 & Hn1 & Hd1 & Hu1 & Hnd1 & Hf1 & Hin1 & Hr1 & Ho1)
         (Hs2 & Hsub2 & Hsrc2 & Hn2 & Hd2 & Hu2 & Hnd2 & Hf2 & Hin2 & Hr2 & Ho2).
  unfold grew. rewrite !fmap_app, !length_app.
  split_and!.
  - by rewrite Hs2, Hs1, app_assoc.
  - by apply sublist_app.
  - by rewrite Hsrc2, Hsrc1, app_assoc.
  - lia.
  - lia.
  - rewrite Hu2, Hu1, list_to_set_app_L. set_solver.
  - apply NoDup_app. split; [done|]. split; [|done].
    intros x Hx1 (r & -> & Hr)%list_elem_of_fmap.
    apply (Hf2 r Hr). rewrite Hu1. apply elem_of_union_r.
    by apply elem_of_list_to_set.
  - intros r [Hr|Hr]%elem_of_app; [by apply Hf1|].
    intros Hin. apply (Hf2 r Hr). rewrite Hu1. by apply elem_of_union_l.
  - intros r [Hr|Hr]%elem_of_app; [|by apply Hin2].
    rewrite Hu2. apply elem_of_union_l. by apply Hin1.
  - intros Hfast. rewrite (Hr2 Hfast), (Hr1 Hfast), concat_app_str.
    by rewrite app_assoc_str.
  - unfold first_occurrences in *.
    rewrite first_occurrences_from_app, <- Ho1. f_equal.
    rewrite Ho2. symmetry. apply first_occurrences_from_ext.
    intros u. rewrite app_nil_l. simpl. split.
    + intros [Hu|(r & -> & Hr)%list_elem_of_fmap]; left.
      * rewrite Hu1. by apply elem_of_union_l.
      * by apply Hin1.
    + intros [Hu|Hu]; [|by apply elem_of_nil in Hu].
      rewrite Hu1 in Hu. apply elem_of_union in Hu as [Hu|Hu]; [by left|right].
      apply elem_of_list_to_set, list_elem_of_fmap in Hu as (r & -> & Hr).
      apply list_elem_of_fmap. exists r. split; [done|].
      by eapply elem_of_sublist.
Qed.

(** The entry of a first-seen result costs at most two calls (the fetch and
    the summary), and none in fast mode, where it is the snippet entry. *)
Lemma resultEntry_cost r n :
  ∃ entry n', resultEntry cfg chat searcher r n = Some (entry, n')
    ∧ n <= n' <= n + 2
    ∧ (fast_mode cfg searcher → entry = snippetEntry r ∧ n' = n).
Proof.
  unfold resultEntry, summarizePage, external, fast_mode. llm_unfold.
  repeat (first [case_match | case_decide]);
    simplify_eq; (eexists _, _; split; [reflexivity|]);
    (split; [lia|]); intros [?|?]; simplify_eq; done.
Qed.

Lemma processResults_grew searchResults :
  ∀ acc n, ∃ acc' n' news,
    processResults cfg beyond chat searcher searchResults acc n
      = Some (acc', n')
    ∧ grew cfg beyond searcher acc acc' searchResults news
    ∧ n <= n' <= n + 2 * length news
    ∧ (fast_mode cfg searcher → n' = n).
Proof.
  induction searchResults as [|r rest IH]; intros acc n.
  - exists acc, n, []. split; [done|]. split; [apply grew_refl|].
    simpl. split; [lia|done].
  - cbn [processResults].
    destruct (decide (normalizeURL beyond (search.URL r)
                      ∈ seenURLs (acc_agent acc))) as [Hdup|Hnew].
    + edestruct IH as (acc' & n' & news & -> & Hg & Hn & Hfast).
      exists acc', n', news. split; [done|]. split; [|done].
      eapply (grew_trans _ _ _ [r] rest [] news); [|exact Hg].
      unfold grew. simpl. rewrite app_nil_r, app_empty_r.
      split_and!; try done; try lia; try set_solver.
      * apply sublist_nil_l.
      * constructor.
      * unfold first_occurrences. cbn [first_occurrences_from]. cbv zeta.
        rewrite bool_decide_eq_false_2; [done|]. by intros [? _].
    + llm_unfold.
      destruct (resultEntry_cost r n) as (entry & n1 & -> & Hn1 & Hf1).
      edestruct IH as (acc' & n' & news & -> & Hg & Hn & Hfast).
      exists acc', n', (r :: news). split; [done|]. split; [|split].
      * eapply (grew_trans _ _ _ [r] rest [r] news); [|exact Hg].
        unfold grew. simpl.
        split_and!; try done; try lia; try set_solver.
        -- apply NoDup_singleton.
        -- intros Hf. destruct (Hf1 Hf) as [-> _].
           by rewrite app_empty_r.
        -- unfold first_occurrences. cbn [first_occurrences_from]. cbv zeta.
           rewrite bool_decide_eq_true_2; [done|].
           split; [done|]. simpl. apply not_elem_of_nil.
      * simpl. lia.
      * intros Hf. destruct (Hf1 Hf) as [_ ->]. by apply Hfast.
Qed.

Lemma pageLoop_grew query pagesLeft :
  ∀ page acc n, ∃ acc' n' extra news,
    pageLoop cfg beyond chat searcher query pagesLeft page acc n
      = Some (acc', n')
    ∧ grew cfg beyond searcher acc acc' extra news
    ∧ n <= n' <= n + pagesLeft + 2 * length news
    ∧ (1 <= pagesLeft → n < n')
    ∧ (fast_mode cfg searcher → n' <= n + pagesLeft)
    ∧ ((∀ m q p, match search.SearchWithPage searcher m q p with
                 | Err _ => True
                 | Ok rs => rs = []
                 end) →
       acc' = acc ∧ n' = n + (1 `min` pagesLeft)).
Proof.
  induction pagesLeft as [|pagesLeft IH]; intros page acc n.
  - exists acc, n, [], []. split; [done|]. split; [apply grew_refl|].
    simpl. split_and!; try done; try lia; try (intros _; split; [done|lia]).
  - cbn [pageLoop]. unfold canPaginate, external. llm_unfold.
    destruct (search.SearchWithPage searcher n query page)
      as [[|r rs]|e] eqn:Hans.
    + exists acc, (S n), [], []. split; [done|]. split; [apply grew_refl|].
      simpl. split_and!; try done; try lia; try (intros _; split; [done|lia]).
    + destruct (processResults_grew (r :: rs) acc (S n))
        as (acc1 & n1 & news1 & -> & Hg1 & Hn1 & Hf1).
      destruct (IH (S page) acc1 n1)
        as (acc' & n' & extra & news & -> & Hg & Hn & _ & Hf & _).
      exists acc', n', ((r :: rs) ++ extra), (news1 ++ news).
      split; [done|]. split; [by eapply grew_trans|].
      rewrite length_app. split_and!; try lia.
      * intros Hfast. specialize (Hf1 Hfast). specialize (Hf Hfast). lia.
      * intros Hsilent. specialize (Hsilent n query page).
        by rewrite Hans in Hsilent.
    + exists acc, (S n), [], []. split; [done|]. split; [apply grew_refl|].
      simpl. split_and!; try done; try lia; try (intros _; split; [done|lia]).
Qed.

Lemma queryLoop_grew queries :
  ∀ acc n, ∃ acc' n' extra news,
    queryLoop cfg beyond chat searcher queries acc n = Some (acc', n')
    ∧ grew cfg beyond searcher acc acc' extra news
    ∧ n + length queries <= n'
    ∧ n' <= n + length queries
                * (if decide (MaxPages cfg = 0) then 100 else MaxPages cfg)
             + 2 * length news
    ∧ (fast_mode cfg searcher →
       n' <= n + length queries
                 * (if decide (MaxPages cfg = 0) then 100 else MaxPages cfg))
    ∧ ((∀ m q p, match search.SearchWithPage searcher m q p with
                 | Err _ => True
                 | Ok rs => rs = []
                 end) →
       acc' = acc ∧ n' = n + length queries).
Proof.
  induction queries as [|query rest IH]; intros acc n.
  - exists acc, n, [], []. split; [done|]. split; [apply grew_refl|].
    simpl. split_and!; try done; try lia; try (intros _; split; [done|lia]).
  - cbn [queryLoop]. llm_unfold.
    set (maxPages := if decide (MaxPages cfg = 0) then 100 else MaxPages cfg).
    assert (1 <= maxPages) as Hmax by (unfold maxPages; case_decide; lia).
    destruct (pageLoop_grew query maxPages 1 acc n)
      as (acc1 & n1 & e1 & news1 & -> & Hg1 & Hn1 & Hlt1 & Hf1 & Hs1).
    destruct (IH acc1 n1)
      as (acc' & n' & e2 & news2 & -> & Hg2 & Hlo2 & Hhi2 & Hf2 & Hs2).
    exists acc', n', (e1 ++ e2), (news1 ++ news2).
    split; [done|]. split; [by eapply grew_trans|].
    rewrite length_app. specialize (Hlt1 Hmax). simpl.
    split_and!; try lia.
    + intros Hfast. specialize (Hf1 Hfast). specialize (Hf2 Hfast). lia.
    + intros Hsilent. destruct (Hs1 Hsilent) as [-> ->].
      destruct (Hs2 Hsilent) as [-> ->]. split; [done|lia].
Qed.

End appended.

Section any_model.
Context `{U : !Unicode} (cfg : Config) (beyond : string → string)
  (chat chat' : ChatOracle) (searcher : search.Searcher).
Hypothesis Hfast : fast_mode cfg searcher.

Lemma resultEntry_any_model r n :
  resultEntry cfg chat searcher r n = resultEntry cfg chat' searcher r n.
Proof.
  destruct (resultEntry_cost cfg chat searcher r n) as (e & m & -> & _ & H).
  destruct (resultEntry_cost cfg chat' searcher r n) as (e' & m' & -> & _ & H').
  destruct (H Hfast) as [-> ->]. by destruct (H' Hfast) as [-> ->].
Qed.

Lemma processResults_any_model searchResults :
  ∀ acc n,
    processResults cfg beyond chat searcher searchResults acc n
    = processResults cfg beyond chat' searcher searchResults acc n.
Proof.
  induction searchResults as [|r rest IH]; intros acc n; [done|].
  cbn [processResults]. case_decide; [apply IH|].
  llm_unfold. rewrite resultEntry_any_model.
  destruct (resultEntry cfg chat' searcher r n) as [[entry n1]|]; [|done].
  apply IH.
Qed.

Lemma pageLoop_any_model query pagesLeft :
  ∀ page acc n,
    pageLoop cfg beyond chat searcher query pagesLeft page acc n
    = pageLoop cfg beyond chat' searcher query pagesLeft page acc n.
Proof.
  induction pagesLeft as [|pagesLeft IH]; intros page acc n; [done|].
  cbn [pageLoop]. unfold canPaginate, external. llm_unfold.
  destruct (search.SearchWithPage searcher n query page) as [[|r rs]|e];
    try done.
  rewrite processResults_any_model.
  destruct (processResults cfg beyond chat' searcher (r :: rs) acc (S n))
    as [[acc1 n1]|]; [|done].
  apply IH.
Qed.

Lemma queryLoop_any_model queries :
  ∀ acc n,
    queryLoop cfg beyond chat searcher queries acc n
    = queryLoop cfg beyond chat' searcher queries acc n.
Proof.
  induction queries as [|query rest IH]; intros acc n; [done|].
  cbn [queryLoop]. llm_unfold. rewrite pageLoop_any_model.
  destruct (pageLoop cfg beyond chat' searcher query _ 1 acc n)
    as [[acc1 n1]|]; [|done].
  apply IH.
Qed.

End any_model.


(** The first occurrences on an example: of two results with the same
    normalized URL the earlier one is kept, and a result whose normalized
    URL had been seen is not. *)
Lemma first_occurrences_example :
  first_occurrences id {["http://x.com/c"]}
    [ {| search.Title := "A"; search.URL := "http://x.com/a";
         search.Content := "first"; search.FullContent := "" |};
      {| search.Title := "C"; search.URL := "http://x.com/c";
         search.Content := "seen"; search.FullContent := "" |};
      {| search.Title := "A again"; search.URL := "http://x.com/a/";
         search.Content := "second"; search.FullContent := "" |};
      {| search.Title := "B"; search.URL := "http://x.com/b";
         search.Content := "third"; search.FullContent := "" |} ]
  = [ {| search.Title := "A"; search.URL := "http://x.com/a";
         search.Content := "first"; search.FullContent := "" |};
      {| search.Title := "B"; search.URL := "http://x.com/b";
         search.Content := "third"; search.FullContent := "" |} ].
Proof. vm_compute. reflexivity. Qed.

(** X10: the cost of one call of [searchWithPagination] in calls to the
    outside. Every query costs at least one request to the provider and at
    most [maxPages] (100 when [MaxPages] is 0); every first-seen result
    costs at most two more calls, the fetch of the page and its summary. In
    fast mode nothing but the provider is called: the outcome is the same
    whatever the model would answer. *)
Theorem searchWithPagination_calls `{U : !Unicode} (cfg : Config)
    (beyond : string → string) (chat : ChatOracle)
    (searcher : search.Searcher) (a : Agent) (queries : list string)
    (n : nat) :
  let maxPages := if decide (MaxPages cfg = 0) then 100 else MaxPages cfg in
  ∃ out n',
    searchWithPagination cfg beyond chat searcher a queries n = Some (out, n')
    ∧ n + length queries <= n'
    ∧ n' <= n + length queries * maxPages + 2 * acc_newURLs out
    ∧ (fast_mode cfg searcher →
       n' <= n + length queries * maxPages
       ∧ ∀ chat', searchWithPagination cfg beyond chat' searcher a queries n
                  = Some (out, n')).
Proof.
  intros maxPages. unfold searchWithPagination.
  destruct (queryLoop_grew cfg beyond chat searcher queries
              {| acc_agent := a; acc_results := ""; acc_newURLs := 0;
                 acc_duplicates := 0; acc_seen := [] |} n)
    as (out & n' & extra & news & Hrun & Hg & Hlo & Hhi & Hf & _).
  exists out, n'. split; [exact Hrun|].
  destruct Hg as (_ & _ & _ & Hn & _). simpl in Hn. rewrite Hn.
  split_and!; try done.
  intros Hfast. split; [by apply Hf|].
  intros chat'. by rewrite <- (queryLoop_any_model cfg beyond chat chat').
Qed.

(** X11: a provider that answers every request with an error or with no
    result leaves the agent as it was: [searchWithPagination] returns an
    empty text and two zero counts, after exactly one request per query
    (the first page). *)
Theorem searchWithPagination_provider_silent `{U : !Unicode} (cfg : Config)
    (beyond : string → string) (chat : ChatOracle)
    (searcher : search.Searcher) (a : Agent) (queries : list string)
    (n : nat) :
  (∀ m q p, match search.SearchWithPage searcher m q p with
            | Err _ => True
            | Ok rs => rs = []
            end) →
  searchWithPagination cfg beyond chat searcher a queries n
  = Some ({| acc_agent := a; acc_results := ""; acc_newURLs := 0;
             acc_duplicates := 0; acc_seen := [] |}, n + length queries).
Proof.
  intros Hsilent. unfold searchWithPagination.
  destruct (queryLoop_grew cfg beyond chat searcher queries
              {| acc_agent := a; acc_results := ""; acc_newURLs := 0;
                 acc_duplicates := 0; acc_seen := [] |} n)
    as (out & n' & extra & news & Hrun & _ & _ & _ & _ & Hs).
  destruct (Hs Hsilent) as [-> ->]. exact Hrun.
Qed.

Lemma searchWithPagination_provider_silent_witness :
  searchWithPagination (U := ascii_unicode) cfg_small id chat_down
    searcher_down fresh_agent ["flats"; "rooms"] 0
  = Some ({| acc_agent := fresh_agent; acc_results := ""; acc_newURLs := 0;
             acc_duplicates := 0; acc_seen := [] |}, 0 + 2).
Proof.
  apply (searchWithPagination_provider_silent (U := ascii_unicode) cfg_small
    id chat_down searcher_down fresh_agent ["flats"; "rooms"] 0).
  intros m q p. exact I.
Defined.

(** ** More on [RunExhaustive] *)

Section run_facts.
Context `{U : !Unicode} (cfg : Config) (beyond : string → string)
  (chat : ChatOracle) (searcher : search.Searcher) (fuel : nat).

(** The round loop keeps the agent consistent. *)
Lemma roundLoop_consistent (queries : list string) (roundsLeft : nat) :
  ∀ round st n st' n',
    agent_consistent beyond (rs_agent st) →
    roundLoop cfg beyond chat searcher fuel queries roundsLeft round st n
      = Some (st', n') →
    agent_consistent beyond (rs_agent st').
Proof.
  induction roundsLeft as [|roundsLeft IH]; intros round st n st' n' Hst Hrun.
  - by injection Hrun as <- <-.
  - cbn [roundLoop] in Hrun. case_decide; [|by injection Hrun as <- <-].
    destruct (roundQueriesOf cfg queries (rs_queryIndex st)) as [rq qi].
    llm_unfold.
    destruct (searchWithPagination_counts cfg beyond chat searcher
                (rs_agent st) rq n) as (out & n1 & Hs & _ & _ & Hc).
    rewrite Hs in Hrun.
    destruct (compressIfLarge cfg chat fuel _ n1) as [[ctx n2]|]; [|done].
    case_decide.
    + injection Hrun as <- <-. by apply Hc.
    + eapply IH; [|exact Hrun]. by apply Hc.
Qed.

Lemma roundQueriesOf_take (queries : list string) (i K : nat) :
  i + ParallelQuery cfg <= K →
  roundQueriesOf cfg (take K queries) i = roundQueriesOf cfg queries i.
Proof.
  intros HK. unfold roundQueriesOf. rewrite length_take.
  destruct (decide (length queries <= K)) as [Hle|Hgt].
  - by rewrite (take_ge queries K), Nat.min_r by lia.
  - rewrite Nat.min_l by lia.
    rewrite (decide_False (P := K < i + ParallelQuery cfg)) by lia.
    rewrite (decide_False (P := length queries < i + ParallelQuery cfg))
      by lia.
    rewrite !take_drop_commute, take_take. do 3 f_equal. lia.
Qed.

Lemma roundQueriesOf_index (queries : list string) (i : nat) :
  (roundQueriesOf cfg queries i).2 <= i + ParallelQuery cfg.
Proof. unfold roundQueriesOf. simpl. case_decide; lia. Qed.

(** Queries beyond the first [K] are out of reach of the rounds left. *)
Lemma roundLoop_take (queries : list string) (K : nat) (roundsLeft : nat) :
  1 <= ParallelQuery cfg →
  ∀ round st n,
    rs_queryIndex st + roundsLeft * ParallelQuery cfg <= K →
    roundLoop cfg beyond chat searcher fuel (take K queries) roundsLeft round
      st n
    = roundLoop cfg beyond chat searcher fuel queries roundsLeft round st n.
Proof.
  intros HP. induction roundsLeft as [|roundsLeft IH]; intros round st n HK;
    [done|].
  cbn [roundLoop]. rewrite length_take.
  destruct (decide (rs_queryIndex st < length queries)) as [Hlt|Hge].
  - rewrite decide_True by lia.
    rewrite roundQueriesOf_take by lia.
    pose proof (roundQueriesOf_index queries (rs_queryIndex st)) as Hqi.
    destruct (roundQueriesOf cfg queries (rs_queryIndex st)) as [rq qi].
    simpl in Hqi. llm_unfold.
    destruct (searchWithPagination cfg beyond chat searcher (rs_agent st) rq n)
      as [[out n1]|]; [|done].
    destruct (compressIfLarge cfg chat fuel _ n1) as [[ctx n2]|]; [|done].
    case_decide; [done|]. apply IH. simpl. lia.
  - by rewrite decide_False by lia.
Qed.

End run_facts.

(** What [writeReport] returns is the answer of its last attempt. *)
Lemma writeReport_answer `{U : !Unicode} (cfg : Config) (chat : ChatOracle)
    (fuel : nat) (topic context : string) (n n' : nat)
    (res : result string) (trace : list attempt_record) :
  writeReport cfg chat fuel topic context n = Some ((res, trace), n') →
  ∃ r, res = final_answer r ∧ 1 <= at_attempt r <= 3.
Proof.
  unfold writeReport. intros Hrun.
  apply writeReportLoop_ladder in Hrun as (new & -> & Hl);
    [|done|unfold maxRetries; lia].
  destruct (ladder_length _ _ _ _ _ _ _ _ _ Hl) as [Hlen1 Hlen3];
    [unfold maxRetries; lia|].
  unfold maxRetries in Hlen3.
  destruct (lookup_lt_is_Some_2 new (length new - 1)) as [r Hr]; [lia|].
  assert (new !! S (length new - 1) = None) as Hn
    by (apply lookup_ge_None; lia).
  destruct (ladder_final _ _ _ _ _ _ _ _ _ _ _ Hl Hr Hn) as [_ ->].
  destruct (ladder_lookup _ _ _ _ _ _ _ _ _ _ _ Hl Hr) as (Ha & _).
  exists r. split; [done|lia].
Qed.

(** X12: what [RunExhaustive] can return. A result comes with sources
    whose normalized URLs, and so whose URLs, are pairwise distinct; an
    error is the complaint about a plan without queries, made before
    anything is called, or else the failure of the report generation after
    one to three attempts: no failure of the provider, of a page fetch or of
    a compression fails the run. *)
Theorem RunExhaustive_outcome `{U : !Unicode} (cfg : Config)
    (beyond : string → string) (chat : ChatOracle)
    (searcher : search.Searcher) (fuel : nat) (topic : string)
    (plan : ResearchPlan) (n n' : nat) (r : result ResearchResult) :
  RunExhaustive cfg beyond chat searcher fuel topic plan n = Some (r, n') →
  match r with
  | Ok res =>
      SearchQueries plan ≠ []
      ∧ NoDup (normalizeURL beyond ∘ URL <$> Sources res)
      ∧ NoDup (URL <$> Sources res)
  | Err e =>
      (SearchQueries plan = [] ∧ n' = n
       ∧ e = "no search queries in plan - use CreatePlanExhaustive")
      ∨ (SearchQueries plan ≠ []
         ∧ ∃ k e', 1 <= k <= 3
             ∧ e = "report generation failed after " +:+ pretty k
                   +:+ " attempts: " +:+ e')
  end.
Proof.
  unfold RunExhaustive. intros Hrun.
  destruct (decide (length (SearchQueries plan) = 0)) as [Hz|Hnz].
  { injection Hrun as <- <-. left. split; [|done].
    by destruct (SearchQueries plan). }
  assert (SearchQueries plan ≠ []) as Hne by (by intros E; rewrite E in Hnz).
  llm_unfold.
  destruct (roundLoop cfg beyond chat searcher fuel _ _ 0 _ n)
    as [[st n1]|] eqn:Hloop; [|done].
  apply roundLoop_consistent in Hloop;
    [|split; [set_solver|constructor]].
  destruct (writeReport cfg chat fuel topic (rs_context st) n1)
    as [[[res trace] n2]|] eqn:Hrep; [|done].
  apply writeReport_answer in Hrep as (rec & -> & Hk).
  cbn [fst] in Hrun. unfold final_answer in Hrun.
  destruct (at_outcome rec) as [resp|e]; injection Hrun as <- <-.
  - split; [done|]. destruct Hloop as [_ Hnd]. split; [exact Hnd|].
    rewrite list_fmap_compose in Hnd. by apply NoDup_fmap_1 in Hnd.
  - right. split; [done|]. by exists (at_attempt rec), e.
Qed.

Lemma RunExhaustive_outcome_witness :
  ∃ res n',
    RunExhaustive (U := ascii_unicode) cfg_small id chat_verbose
      searcher_two_urls 2 "flats" plan_flats 0 = Some (Ok res, n')
    ∧ NoDup (URL <$> Sources res).
Proof.
  assert (match RunExhaustive (U := ascii_unicode) cfg_small id chat_verbose
                  searcher_two_urls 2 "flats" plan_flats 0
          with Some (Ok _, _) => True | _ => False end) as Hok
    by (vm_compute; exact I).
  destruct (RunExhaustive (U := ascii_unicode) cfg_small id chat_verbose
              searcher_two_urls 2 "flats" plan_flats 0)
    as [[[res|e] n']|] eqn:Hrun; [|destruct Hok|destruct Hok].
  exists res, n'. split; [reflexivity|].
  exact (proj2 (proj2 (RunExhaustive_outcome (U := ascii_unicode) cfg_small
    id chat_verbose searcher_two_urls 2 "flats" plan_flats 0 n' (Ok res)
    Hrun))).
Defined.

(** X13: [RunExhaustive] never looks beyond the first
    [MaxLoops * ParallelQuery] queries of the plan: with both settings at
    least 1, the run on a plan and the run on the plan cut to that many
    queries are the same run, with the same calls and the same outcome. *)
Theorem RunExhaustive_query_budget `{U : !Unicode} (cfg : Config)
    (beyond : string → string) (chat : ChatOracle)
    (searcher : search.Searcher) (fuel : nat) (topic : string)
    (plan : ResearchPlan) (n : nat) :
  1 <= MaxLoops cfg → 1 <= ParallelQuery cfg →
  RunExhaustive cfg beyond chat searcher fuel topic
    (with_queries plan
       (take (MaxLoops cfg * ParallelQuery cfg) (SearchQueries plan))) n
  = RunExhaustive cfg beyond chat searcher fuel topic plan n.
Proof.
  intros HL HP. unfold RunExhaustive, with_queries. cbn [SearchQueries].
  rewrite length_take.
  assert (1 <= MaxLoops cfg * ParallelQuery cfg) as HK by nia.
  destruct (decide (length (SearchQueries plan) = 0)) as [Hz|Hnz].
  { by rewrite decide_True by lia. }
  rewrite decide_False by lia.
  unfold initialContext. cbn [UnderstandingSummary ExpectedOutcome].
  unfold mbind, LLM_bind.
  by rewrite roundLoop_take by (simpl; lia).
Qed.

Lemma RunExhaustive_query_budget_witness :
  1 <= MaxLoops cfg_small ∧ 1 <= ParallelQuery cfg_small
  ∧ RunExhaustive (U := ascii_unicode) cfg_small id chat_verbose
      searcher_two_urls 2 "flats"
      (with_queries plan_seven ["q1"; "q2"; "q3"; "q4"; "q5"; "q6"]) 0
    = RunExhaustive (U := ascii_unicode) cfg_small id chat_verbose
        searcher_two_urls 2 "flats" plan_seven 0.
Proof.
  assert (1 <= MaxLoops cfg_small) as HL by (simpl; lia).
  assert (1 <= ParallelQuery cfg_small) as HP by (simpl; lia).
  split; [exact HL|]. split; [exact HP|].
  exact (RunExhaustive_query_budget (U := ascii_unicode) cfg_small id
    chat_verbose searcher_two_urls 2 "flats" plan_seven 0 HL HP).
Defined.

(** ** More on query expansion *)

(** A loop that only adds to a set: what it holds in the end. *)
Lemma foldl_collect {B : Type} (g : gset string → B → gset string)
    (P : B → string → Prop) (l : list B) :
  (∀ acc b x, b ∈ l → x ∈ g acc b ↔ x ∈ acc ∨ P b x) →
  ∀ acc x, x ∈ foldl g acc l ↔ x ∈ acc ∨ ∃ b, b ∈ l ∧ P b x.
Proof.
  induction l as [|b l IH]; intros Hg acc x; simpl.
  - split; [by left|]. intros [?|(b & Hb & _)]; [done|].
    by apply elem_of_nil in Hb.
  - rewrite IH by (intros; apply Hg; by right). rewrite Hg by by left.
    split.
    + intros [[?|?]|(b' & Hb' & ?)]; [by left|right..].
      * exists b. split; [by left|done].
      * exists b'. split; [by right|done].
    + intros [?|(b' & [->|Hb']%elem_of_cons & ?)].
      * by left; left.
      * by left; right.
      * right. by exists b'.
Qed.

Lemma elem_of_synonymVariants `{U : !Unicode} (baseQueries : list string)
    (synonyms : list (string * list string)) (x : string) :
  x ∈ synonymVariants baseQueries synonyms
  ↔ ∃ q word syns syn,
      q ∈ baseQueries ∧ len q <= 50 ∧ (word, syns) ∈ synonyms
      ∧ Contains (ToLower q) (ToLower word) = true
      ∧ syn ∈ syns ∧ ToLower syn ≠ ToLower word
      ∧ x = ReplaceAll (ToLower q) (ToLower word) (ToLower syn)
      ∧ len x <= 60.
Proof.
  unfold synonymVariants.
  rewrite (foldl_collect _ (λ q x, len q <= 50 ∧ ∃ entry, entry ∈ synonyms
     ∧ Contains (ToLower q) (ToLower entry.1) = true
     ∧ ∃ syn, syn ∈ entry.2 ∧ ToLower syn ≠ ToLower entry.1
         ∧ x = ReplaceAll (ToLower q) (ToLower entry.1) (ToLower syn)
         ∧ len x <= 60)).
  - split.
    + intros [[]%elem_of_empty|(q & Hq & Hlen & [word syns] & He & Hc & syn
                                & Hs & Hne & Hx & Hl)].
      by exists q, word, syns, syn.
    + intros (q & word & syns & syn & Hq & Hlen & He & Hc & Hs & Hne & Hx & Hl).
      right. exists q. split; [done|]. split; [done|].
      exists (word, syns). split; [done|]. split; [done|]. by exists syn.
  - intros acc q y _. case_decide as Hlong.
    { split; [by left|]. intros [?|[? _]]; [done|lia]. }
    rewrite (foldl_collect _ (λ entry y,
       Contains (ToLower q) (ToLower entry.1) = true
       ∧ ∃ syn, syn ∈ entry.2 ∧ ToLower syn ≠ ToLower entry.1
           ∧ y = ReplaceAll (ToLower q) (ToLower entry.1) (ToLower syn)
           ∧ len y <= 60)).
    + split; [intros [?|?]; [by left|right; split; [lia|done]]|].
      intros [?|[_ ?]]; [by left|by right].
    + intros acc' [word syns] z _. cbn [fst snd].
      destruct (Contains (ToLower q) (ToLower word)) eqn:Hc.
      2:{ split; [by left|]. by intros [?|[? _]]. }
      rewrite (foldl_collect _ (λ syn z,
         ToLower syn ≠ ToLower word
         ∧ z = ReplaceAll (ToLower q) (ToLower word) (ToLower syn)
         ∧ len z <= 60)).
      * split; [intros [?|?]; [by left|by right]|].
        intros [?|[_ ?]]; [by left|by right].
      * intros acc'' syn w _. repeat case_decide.
        -- rewrite elem_of_union, elem_of_singleton. split.
           ++ intros [->|?]; [by right|by left].
           ++ intros [?|(_ & -> & _)]; [by right|by left].
        -- split; [by left|]. intros [?|(_ & -> & ?)]; [done|lia].
        -- split; [by left|]. by intros [?|(? & _)].
Qed.

(** What the expansion holds, case by case. *)
Lemma expandedQueries_candidates `{U : !Unicode} (baseQueries : list string)
    (expansion : QueryExpansion) (x : string) :
  x ∈ expandedQueries baseQueries expansion
  ↔ candidate baseQueries expansion x.
Proof.
  unfold expandedQueries, candidate.
  rewrite elem_of_union, elem_of_synonymVariants, elem_of_addPlatformQueries,
    elem_of_addBaseQueries.
  split.
  - intros [?|[[[]%elem_of_empty|?]|?]]; [by right; right|by left|by right; left].
  - intros [?|[?|?]]; [right; left; by right|right; by right|by left].
Qed.

Lemma candidate_mono `{U : !Unicode} (baseQueries baseQueries' : list string)
    (expansion expansion' : QueryExpansion) (x : string) :
  (∀ q, q ∈ baseQueries → q ∈ baseQueries') →
  (∀ p, p ∈ Platforms expansion → p ∈ Platforms expansion') →
  (∀ e, e ∈ Synonyms expansion → e ∈ Synonyms expansion') →
  candidate baseQueries expansion x → candidate baseQueries' expansion' x.
Proof.
  intros Hq Hp He [[??]|[(q & p & ? & ? & ? & ? & ?)
                        |(q & w & ss & s & ? & ? & ? & ? & ? & ? & ? & ?)]].
  - left. split; [by apply Hq|done].
  - right. left. exists q, p. split_and!; try done; [by apply Hq|by apply Hp].
  - right. right. exists q, w, ss, s.
    split_and!; try done; [by apply Hq|by apply He].
Qed.

(** X14: the queries [expandQueriesWithLLM] returns, case by case. Every
    query returned is a seed of at most 60 bytes, or a seed of at most 40
    bytes behind a non-empty platform and a space, or the lower-case form of
    a seed of at most 50 bytes with a word replaced by a synonym, kept when
    it has at most 60 bytes; and when there are at most 150 such queries
    every one of them is returned. *)
Theorem expandQueriesWithLLM_candidates `{U : !Unicode} (range : MapRange)
    (baseQueries : list string) (expansion : QueryExpansion) :
  fair range →
  (∀ x, x ∈ expandQueriesWithLLM range baseQueries expansion →
        candidate baseQueries expansion x)
  ∧ (size (expandedQueries baseQueries expansion) <= 150 →
     ∀ x, candidate baseQueries expansion x →
          x ∈ expandQueriesWithLLM range baseQueries expansion).
Proof.
  intros Hfair. split.
  - intros x Hx. rewrite expandQueriesWithLLM_take in Hx.
    apply (subseteq_take maxQueries) in Hx.
    rewrite (Hfair (expandedQueries baseQueries expansion)) in Hx.
    by apply elem_of_elements, expandedQueries_candidates in Hx.
  - intros Hsize x Hx. apply expandQueriesWithLLM_complete; [done..|].
    by apply expandedQueries_candidates.
Qed.

Lemma expandQueriesWithLLM_candidates_witness :
  fair elements
  ∧ size (expandedQueries (U := ascii_unicode) ["Flat to let"]
            {| Synonyms := [("flat", ["Apartment"])];
               Platforms := ["site:rent.example"] |}) <= 150
  ∧ "apartment to let"
      ∈ expandQueriesWithLLM (U := ascii_unicode) elements ["Flat to let"]
          {| Synonyms := [("flat", ["Apartment"])];
             Platforms := ["site:rent.example"] |}.
Proof.
  assert (fair elements) as Hfair by (intros m; reflexivity).
  assert (size (expandedQueries (U := ascii_unicode) ["Flat to let"]
            {| Synonyms := [("flat", ["Apartment"])];
               Platforms := ["site:rent.example"] |}) <= 150) as Hsize
    by (vm_compute; lia).
  split; [exact Hfair|]. split; [exact Hsize|].
  apply (proj2 (expandQueriesWithLLM_candidates (U := ascii_unicode) elements
           ["Flat to let"]
           {| Synonyms := [("flat", ["Apartment"])];
              Platforms := ["site:rent.example"] |} Hfair) Hsize).
  right. right. exists "Flat to let", "flat", ["Apartment"], "Apartment".
  split_and!; try done; try set_solver; vm_compute; lia.
Defined.

(** X15: the expansion depends on its inputs as sets only, up to the order
    of the map. Seeds, platforms and synonym entries that are listed in
    another order, or more than once, give the same set of candidate
    queries. Two runs, each visiting its map in an order of its own, return
    equally many queries, the size of that set or 150 if it is larger, all
    from that set; when the set has at most 150 entries the two results are
    the same queries in possibly different orders. (Over a larger set two
    runs may keep different queries.) *)
Theorem expandQueriesWithLLM_order_independent `{U : !Unicode}
    (range range' : MapRange) (baseQueries baseQueries' : list string)
    (expansion expansion' : QueryExpansion) :
  fair range → fair range' →
  (∀ q, q ∈ baseQueries ↔ q ∈ baseQueries') →
  (∀ p, p ∈ Platforms expansion ↔ p ∈ Platforms expansion') →
  (∀ e, e ∈ Synonyms expansion ↔ e ∈ Synonyms expansion') →
  let result := expandQueriesWithLLM range baseQueries expansion in
  let result' := expandQueriesWithLLM range' baseQueries' expansion' in
  expandedQueries baseQueries expansion
  = expandedQueries baseQueries' expansion'
  ∧ length result
    = size (expandedQueries baseQueries expansion) `min` maxQueries
  ∧ length result' = length result
  ∧ (∀ x, x ∈ result' → x ∈ expandedQueries baseQueries expansion)
  ∧ (size (expandedQueries baseQueries expansion) <= maxQueries →
     result ≡ₚ result').
Proof.
  intros Hfair Hfair' Hq Hp He.
  assert (expandedQueries baseQueries expansion
          = expandedQueries baseQueries' expansion') as Heq.
  { apply set_eq. intros x. rewrite !expandedQueries_candidates.
    split; apply candidate_mono; intros ?; by (apply Hq || apply Hp || apply He). }
  cbv zeta. rewrite !expandQueriesWithLLM_take, <- Heq.
  set (m := expandedQueries baseQueries expansion).
  assert (length (range m) = size m) as Hlen by (by rewrite (Hfair m)).
  assert (length (range' m) = size m) as Hlen' by (by rewrite (Hfair' m)).
  split_and!.
  - done.
  - rewrite length_take. lia.
  - rewrite !length_take. lia.
  - intros x Hx. apply (subseteq_take maxQueries) in Hx.
    rewrite (Hfair' m) in Hx. by apply elem_of_elements in Hx.
  - intros Hsize. rewrite !take_ge by lia.
    by rewrite (Hfair m), (Hfair' m).
Qed.

Lemma expandQueriesWithLLM_order_independent_witness :
  expandQueriesWithLLM (U := ascii_unicode) elements ["rooms"; "flats"; "rooms"]
    {| Synonyms := [("flats", ["apartments"]); ("rooms", ["bedsits"])];
       Platforms := ["site:a.example"; "site:b.example"] |}
  ≡ₚ expandQueriesWithLLM (U := ascii_unicode) prefixed_first
       ["flats"; "rooms"]
       {| Synonyms := [("rooms", ["bedsits"]); ("flats", ["apartments"])];
          Platforms := ["site:b.example"; "site:a.example"] |}.
Proof.
  assert (fair elements) as Hfair by (intros m; reflexivity).
  assert (fair prefixed_first) as Hfair'
    by (intros m; unfold prefixed_first; apply filter_app_complement).
  refine (proj2 (proj2 (proj2 (proj2
    (expandQueriesWithLLM_order_independent (U := ascii_unicode) elements
       prefixed_first ["rooms"; "flats"; "rooms"] ["flats"; "rooms"]
       {| Synonyms := [("flats", ["apartments"]); ("rooms", ["bedsits"])];
          Platforms := ["site:a.example"; "site:b.example"] |}
       {| Synonyms := [("rooms", ["bedsits"]); ("flats", ["apartments"])];
          Platforms := ["site:b.example"; "site:a.example"] |}
       Hfair Hfair' _ _ _)))) _).
  - intros ?; set_solver.
  - intros ?; cbn [Platforms]; set_solver.
  - intros ?; cbn [Synonyms]; set_solver.
  - vm_compute. lia.
Defined.

(** X16: with [MaxLoops] or [ParallelQuery] at 0 [RunExhaustive] never asks
    the provider: the run is the same whatever the provider would answer,
    and a result it returns has no source. (With [ParallelQuery] at 0 the
    rounds still take place, each over an empty batch of queries.) *)
Theorem RunExhaustive_without_search `{U : !Unicode} (cfg : Config)
    (beyond : string → string) (chat : ChatOracle)
    (searcher searcher' : search.Searcher) (fuel : nat) (topic : string)
    (plan : ResearchPlan) (n : nat) :
  MaxLoops cfg = 0 ∨ ParallelQuery cfg = 0 →
  RunExhaustive cfg beyond chat searcher fuel topic plan n
  = RunExhaustive cfg beyond chat searcher' fuel topic plan n
  ∧ ∀ res n',
      RunExhaustive cfg beyond chat searcher fuel topic plan n
        = Some (Ok res, n') →
      Sources res = [].
Proof.
  intros Hidle.
  assert (∀ roundsLeft round st n,
    roundsLeft <= MaxLoops cfg →
    roundLoop cfg beyond chat searcher fuel (SearchQueries plan) roundsLeft
      round st n
    = roundLoop cfg beyond chat searcher' fuel (SearchQueries plan) roundsLeft
        round st n
    ∧ ∀ st' n',
        roundLoop cfg beyond chat searcher fuel (SearchQueries plan)
          roundsLeft round st n = Some (st', n') →
        rs_agent st' = rs_agent st) as Hloop.
  { induction roundsLeft as [|roundsLeft IH]; intros round st m Hle.
    { split; [done|]. by intros st' n' [= <- <-]. }
    destruct Hidle as [HL|HP]; [lia|].
    cbn [roundLoop]. case_decide as Hidx.
    2:{ split; [done|]. by intros st' n' [= <- <-]. }
    unfold roundQueriesOf. rewrite HP.
    rewrite decide_False by lia.
    replace (rs_queryIndex st + 0 - rs_queryIndex st) with 0 by lia.
    rewrite take_0. unfold searchWithPagination. cbn [queryLoop]. llm_unfold.
    cbn [acc_results acc_agent acc_newURLs acc_duplicates].
    unfold appendRound. rewrite decide_False by (by intros ?).
    destruct (compressIfLarge cfg chat fuel (rs_context st) m)
      as [[ctx m']|]; [|done].
    case_decide.
    { split; [done|]. by intros st' n' [= <- <-]. }
    destruct (IH (S round)
      {| rs_agent := rs_agent st; rs_context := ctx;
         rs_queryIndex := rs_queryIndex st + 0;
         rs_totalURLsFound := rs_totalURLsFound st + 0;
         rs_totalDuplicates := rs_totalDuplicates st + 0 |} m') as [E Hag];
      [lia|].
    split; [exact E|]. intros st' n' Hrun. by apply Hag in Hrun. }
  unfold RunExhaustive. case_decide; [done|]. llm_unfold.
  destruct (Hloop (MaxLoops cfg) 0
    {| rs_agent := fresh_agent; rs_context := initialContext topic plan;
       rs_queryIndex := 0; rs_totalURLsFound := 0; rs_totalDuplicates := 0 |}
    n) as [<- Hag]; [lia|].
  split; [done|]. intros res n'.
  destruct (roundLoop cfg beyond chat searcher fuel _ _ 0 _ n)
    as [[st n1]|]; [|done].
  specialize (Hag st n1 eq_refl). cbn [rs_agent] in Hag.
  destruct (writeReport cfg chat fuel topic (rs_context st) n1)
    as [[[rep trace] n2]|]; [|done].
  cbn [fst]. destruct rep as [report|e]; [|done].
  intros [= <- <-]. cbn [Sources]. by rewrite Hag.
Qed.

Lemma RunExhaustive_without_search_witness :
  RunExhaustive (U := ascii_unicode) cfg_no_batch id chat_verbose
    searcher_twelve 2 "flats" plan_flats 0
  = RunExhaustive (U := ascii_unicode) cfg_no_batch id chat_verbose
      searcher_down 2 "flats" plan_flats 0.
Proof.
  assert (MaxLoops cfg_no_batch = 0 ∨ ParallelQuery cfg_no_batch = 0) as Hidle
    by (right; reflexivity).
  exact (proj1 (RunExhaustive_without_search (U := ascii_unicode)
    cfg_no_batch id chat_verbose searcher_twelve searcher_down 2 "flats"
    plan_flats 0 Hidle)).
Defined.

(** ** [truncateQuery] *)

Lemma slice_from_app (a b : string) : slice_from (a +:+ b) (len a) = b.
Proof.
  induction a as [|c a IH]; [by rewrite app_empty_l, slice_from_0|].
  by rewrite app_cons.
Qed.

Lemma slice_to_app (a b : string) : slice_to (a +:+ b) (len a) = a.
Proof.
  induction a as [|c a IH]; [by destruct b|].
  rewrite app_cons. simpl. by rewrite IH.
Qed.

(** X17: for a bound of at least 3, [truncateQuery] returns at most [maxLen]
    bytes: the query itself when it fits, and otherwise its first
    [maxLen - 3] bytes followed by three dots, [maxLen] bytes in all. For a
    bound below 3 a longer query makes it panic. *)
Theorem truncateQuery_bound (q : string) (maxLen : nat) :
  (3 <= maxLen →
   ∃ out, truncateQuery q maxLen = Some out
     ∧ len out <= maxLen
     ∧ (len q <= maxLen → out = q)
     ∧ (maxLen < len q →
        len out = maxLen ∧ HasSuffix out "..." = true
        ∧ slice_to out (maxLen - 3) = slice_to q (maxLen - 3)))
  ∧ (maxLen < 3 → maxLen < len q → truncateQuery q maxLen = None).
Proof.
  unfold truncateQuery. split.
  - intros Hmax. case_decide as Hfit.
    + exists q. split_and!; try done. lia.
    + rewrite decide_False by lia. eexists. split; [reflexivity|].
      set (a := slice_to q (maxLen - 3)).
      assert (len a = maxLen - 3) as Hl
        by (unfold a; rewrite len_slice_to; lia).
      assert (len (a +:+ "...") = maxLen) as Hlen
        by (rewrite len_app, Hl; simpl; lia).
      split_and!; try lia.
      intros _. split; [done|]. split.
      * apply HasSuffix_intro; [simpl in *; lia|]. rewrite Hlen.
        change (len "...") with 3. rewrite <- Hl. apply slice_from_app.
      * rewrite <- Hl. apply slice_to_app.
  - intros Hsmall Hlong. rewrite decide_False by lia.
    by rewrite decide_True by lia.
Qed.

Lemma truncateQuery_bound_witness :
  3 <= 10
  ∧ ∃ out, truncateQuery "flats to rent in Cluj" 10 = Some out
      ∧ len out <= 10.
Proof.
  assert (3 <= 10) as Hmax by lia.
  split; [exact Hmax|].
  destruct (proj1 (truncateQuery_bound "flats to rent in Cluj" 10) Hmax)
    as (out & Hout & Hlen & _).
  exists out. split; [exact Hout|exact Hlen].
Defined.

(** ** The command line *)

Lemma remove_unsafe_safe (s : string) :
  url.all_bytes safe_byte (remove_unsafe s) = true.
Proof.
  induction s as [|c s IH]; [done|]. simpl.
  destruct (safe_byte c) eqn:Hc; [|done]. simpl. by rewrite Hc.
Qed.

Lemma remove_unsafe_len (s : string) : len (remove_unsafe s) <= len s.
Proof.
  induction s as [|c s IH]; [done|]. simpl.
  destruct (safe_byte c); simpl; lia.
Qed.

(** The bytes a sanitized name is made of: [a-z0-9_-]. *)
Lemma lower_safe_byte (c : ascii) :
  safe_byte c = true →
  safe_byte (ascii_lower_byte c) = true
  ∧ url.byte_in 65 90 (ascii_lower_byte c) = false
  ∧ nat_of_ascii c < 128.
Proof.
  destruct c as [[] [] [] [] [] [] [] []]; vm_compute; intros; try done;
    split_and!; try done; lia.
Qed.

Lemma lower_fixed_byte (c : ascii) :
  url.byte_in 65 90 c = false → ascii_lower_byte c = c.
Proof.
  destruct c as [[] [] [] [] [] [] [] []]; vm_compute; intros; done.
Qed.

Lemma safe_not_space (c : ascii) : safe_byte c = true → c ≠ " "%char.
Proof. by intros H ->. Qed.

Lemma replace_go_no_space (fuel : nat) (s : string) :
  url.all_bytes safe_byte s = true → replace_go fuel s " " "_" = s.
Proof.
  revert s; induction fuel as [|fuel IH]; intros s Hs; [done|].
  destruct s as [|c s]; [done|]. simpl in Hs.
  apply andb_prop in Hs as [Hc Hs]. cbn [replace_go HasPrefix].
  rewrite decide_False by (intros E; by apply (safe_not_space c)).
  by rewrite IH.
Qed.

Lemma replace_go_len (fuel : nat) (s : string) :
  len (replace_go fuel s " " "_") = len s.
Proof.
  revert s; induction fuel as [|fuel IH]; intros s; [done|].
  destruct s as [|c s]; [done|]. cbn [replace_go HasPrefix].
  destruct (decide (" "%char = c)) as [<-|Hne].
  - destruct s; cbn [HasPrefix slice_from len String.length];
      rewrite app_cons, app_empty_l; simpl; by rewrite IH.
  - simpl. by rewrite IH.
Qed.

Lemma ascii_ToLower_len (s : string) : len (ascii_ToLower s) = len s.
Proof. induction s; simpl; congruence. Qed.

Lemma safe_is_ascii (s : string) :
  url.all_bytes safe_byte s = true → is_ascii s = true.
Proof.
  induction s as [|c s IH]; [done|]. simpl.
  intros [Hc Hs]%andb_prop. apply andb_true_intro. split; [|by apply IH].
  apply bool_decide_eq_true. by destruct (lower_safe_byte c Hc) as (_ & _ & ?).
Qed.

Lemma lower_safe (s : string) :
  url.all_bytes safe_byte s = true →
  url.all_bytes safe_byte (ascii_ToLower s) = true
  ∧ url.all_bytes (λ c, negb (url.byte_in 65 90 c)) (ascii_ToLower s) = true.
Proof.
  induction s as [|c s IH]; [done|]. simpl. intros [Hc Hs]%andb_prop.
  destruct (lower_safe_byte c Hc) as (H1 & H2 & _).
  destruct (IH Hs) as [I1 I2]. by rewrite H1, H2, I1, I2.
Qed.

Lemma lower_fixed (s : string) :
  url.all_bytes (λ c, negb (url.byte_in 65 90 c)) s = true →
  ascii_ToLower s = s.
Proof.
  induction s as [|c s IH]; [done|]. simpl. intros [Hc Hs]%andb_prop.
  rewrite lower_fixed_byte, IH; [done..|]. by apply negb_true_iff.
Qed.

Lemma remove_unsafe_fixed (s : string) :
  url.all_bytes safe_byte s = true → remove_unsafe s = s.
Proof.
  induction s as [|c s IH]; [done|]. simpl. intros [Hc Hs]%andb_prop.
  by rewrite Hc, IH.
Qed.

(** X18: a name made by [sanitizeFilename] holds only lower-case letters,
    digits, underscores and hyphens (so no path separator and no dot), is
    no longer than the topic, and is left as it is when sanitized again.
    [strings.ToLower] enters on ASCII text only, where it is the byte-wise
    lowering. *)
Theorem sanitizeFilename_safe `{U : !Unicode} (s : string) :
  (∀ t, is_ascii t = true → ToLower t = ascii_ToLower t) →
  url.all_bytes
    (λ c, url.byte_in 97 122 c || url.is_digit c
          || bool_decide (c ∈ ["_"; "-"]%char))
    (sanitizeFilename s) = true
  ∧ len (sanitizeFilename s) <= len s
  ∧ sanitizeFilename (sanitizeFilename s) = sanitizeFilename s.
Proof.
  intros Hlower.
  assert (∀ t, url.all_bytes safe_byte t = true →
               url.all_bytes (λ c, negb (url.byte_in 65 90 c)) t = true →
               sanitizeFilename t = t) as Hfix.
  { intros t Hsafe Hlow. unfold sanitizeFilename, ReplaceAll.
    rewrite decide_False by done. rewrite decide_False by done.
    rewrite replace_go_no_space, remove_unsafe_fixed by done.
    rewrite Hlower by by apply safe_is_ascii. by apply lower_fixed. }
  assert (sanitizeFilename s
          = ascii_ToLower (remove_unsafe (replace_go (S (len s)) s " " "_")))
    as Hs.
  { unfold sanitizeFilename, ReplaceAll.
    rewrite decide_False by done. rewrite decide_False by done.
    apply Hlower, safe_is_ascii, remove_unsafe_safe. }
  destruct (lower_safe _ (remove_unsafe_safe (replace_go (S (len s)) s " " "_")))
    as [Hsafe Hlow].
  rewrite <- Hs in Hsafe, Hlow.
  split_and!.
  - revert Hsafe Hlow. generalize (sanitizeFilename s). clear.
    induction s as [|c s IH]; [done|]. simpl.
    intros [Hc Hs]%andb_prop [Hl Hs']%andb_prop.
    rewrite IH by done. rewrite andb_true_r.
    unfold safe_byte, url.is_letter in Hc. apply negb_true_iff in Hl.
    rewrite Hl, orb_false_r in Hc. exact Hc.
  - rewrite Hs, ascii_ToLower_len.
    etrans; [apply remove_unsafe_len|]. by rewrite replace_go_len.
  - by apply Hfix.
Qed.

Lemma sanitizeFilename_safe_witness :
  sanitizeFilename (U := ascii_unicode) "Flats to rent: ../Cluj (2 rooms)"
  = "flats_to_rent_cluj_2_rooms"
  ∧ sanitizeFilename (U := ascii_unicode)
      (sanitizeFilename (U := ascii_unicode)
         "Flats to rent: ../Cluj (2 rooms)")
    = sanitizeFilename (U := ascii_unicode) "Flats to rent: ../Cluj (2 rooms)".
Proof.
  split; [reflexivity|].
  apply (sanitizeFilename_safe (U := ascii_unicode)
           "Flats to rent: ../Cluj (2 rooms)").
  intros t _. reflexivity.
Defined.

Lemma bibliographyLoop_distinct (sources : list Source) :
  NoDup (URL <$> sources) →
  ∀ i seen finalOutput,
    (∀ src, src ∈ sources → URL src ∉ seen) →
    bibliographyLoop sources i seen finalOutput
    = finalOutput
      +:+ concatenation (imap (λ k src, bibliographyEntry (i + k) src) sources).
Proof.
  induction sources as [|src rest IH]; intros Hnd i seen out Hseen.
  - simpl. by rewrite app_empty_r.
  - rewrite fmap_cons in Hnd. apply NoDup_cons in Hnd as [Hsrc Hnd].
    cbn [bibliographyLoop]. rewrite decide_False by (apply Hseen; by left).
    rewrite IH; [|done|].
    + rewrite imap_cons.
      change (concatenation (?x :: ?l)) with (x +:+ concatenation l).
      rewrite Nat.add_0_r, app_assoc_str. do 3 f_equal.
      apply imap_ext. intros k x _. simpl. f_equal. lia.
    + intros src' Hin [E%elem_of_singleton|Hs]%elem_of_union.
      * apply Hsrc. rewrite <- E. apply list_elem_of_fmap. by exists src'.
      * apply (Hseen src'); [by right|done].
Qed.

(** X19: the bibliography that [main] appends to the report of
    [RunExhaustive] lists every source of the result, in order and numbered
    1, 2, 3, ... without a gap: the sources of a run have distinct URLs, so
    the loop's own filter on URLs already listed never skips one. *)
Theorem bibliography_of_run `{U : !Unicode} (cfg : Config)
    (beyond : string → string) (chat : ChatOracle)
    (searcher : search.Searcher) (fuel : nat) (topic : string)
    (plan : ResearchPlan) (n n' : nat) (res : ResearchResult) :
  RunExhaustive cfg beyond chat searcher fuel topic plan n
    = Some (Ok res, n') →
  finalOutputOf res
  = Report res +:+ nl +:+ nl +:+ "---" +:+ nl +:+ nl +:+ "## Bibliography"
    +:+ nl +:+ nl
    +:+ concatenation (imap bibliographyEntry (Sources res)).
Proof.
  unfold RunExhaustive. intros Hrun.
  case_decide; [done|]. llm_unfold.
  destruct (roundLoop cfg beyond chat searcher fuel _ _ 0 _ n)
    as [[st n1]|] eqn:Hloop; [|done].
  apply roundLoop_consistent in Hloop;
    [|split; [set_solver|constructor]].
  destruct (writeReport cfg chat fuel topic (rs_context st) n1)
    as [[[rep trace] n2]|]; [|done].
  cbn [fst] in Hrun. destruct rep as [report|e]; [|done].
  injection Hrun as <- <-.
  destruct Hloop as [_ Hnd]. rewrite list_fmap_compose in Hnd.
  apply NoDup_fmap_1 in Hnd.
  unfold finalOutputOf. cbn [Report Sources].
  rewrite (bibliographyLoop_distinct _ Hnd) by set_solver.
  by rewrite !app_assoc_str.
Qed.

Lemma bibliography_of_run_witness :
  ∃ res n',
    RunExhaustive (U := ascii_unicode) cfg_small id chat_verbose
      searcher_two_urls 2 "flats" plan_flats 0 = Some (Ok res, n')
    ∧ finalOutputOf res
      = Report res +:+ nl +:+ nl +:+ "---" +:+ nl +:+ nl +:+ "## Bibliography"
        +:+ nl +:+ nl
        +:+ concatenation (imap bibliographyEntry (Sources res)).
Proof.
  assert (match RunExhaustive (U := ascii_unicode) cfg_small id chat_verbose
                  searcher_two_urls 2 "flats" plan_flats 0
          with Some (Ok _, _) => True | _ => False end) as Hok
    by (vm_compute; exact I).
  destruct (RunExhaustive (U := ascii_unicode) cfg_small id chat_verbose
              searcher_two_urls 2 "flats" plan_flats 0)
    as [[[res|e] n']|] eqn:Hrun; [|destruct Hok|destruct Hok].
  exists res, n'. split; [reflexivity|].
  exact (bibliography_of_run (U := ascii_unicode) cfg_small id chat_verbose
    searcher_two_urls 2 "flats" plan_flats 0 n' res Hrun).
Defined.

(** ** More on URL normalisation *)

Lemma all_bytes_app (P : ascii → bool) (a b : string) :
  url.all_bytes P (a +:+ b) = url.all_bytes P a && url.all_bytes P b.
Proof.
  induction a as [|c a IH]; [by rewrite app_empty_l|].
  rewrite app_cons. simpl. by rewrite IH, andb_assoc.
Qed.

Lemma all_bytes_impl (P Q : ascii → bool) (s : string) :
  (∀ c, P c = true → Q c = true) →
  url.all_bytes P s = true → url.all_bytes Q s = true.
Proof.
  intros HPQ. induction s as [|c s IH]; [done|]. simpl.
  intros [Hc Hs]%andb_prop. by rewrite (HPQ c Hc), IH.
Qed.

Lemma plain_host_quiet (c : ascii) :
  url.plain_host_byte c = true →
  quiet_byte c = true ∧ other_byte "/" c = true.
Proof.
  destruct c as [[] [] [] [] [] [] [] []]; vm_compute; intros; done.
Qed.

Lemma plain_path_quiet (c : ascii) :
  url.plain_path_byte c = true → quiet_byte c = true.
Proof.
  destruct c as [[] [] [] [] [] [] [] []]; vm_compute; intros; done.
Qed.

Lemma quiet_other (c : ascii) :
  quiet_byte c = true →
  other_byte "#" c = true ∧ other_byte "?" c = true
  ∧ negb (bool_decide (nat_of_ascii c < 32 ∨ nat_of_ascii c = 127)) = true.
Proof.
  destruct c as [[] [] [] [] [] [] [] []]; vm_compute; intros; done.
Qed.

(** A string without the byte [d] has no occurrence of it to find or to
    count. *)
Lemma Index_other (d : ascii) (s : string) :
  url.all_bytes (other_byte d) s = true → Index s (String d "") = None.
Proof.
  induction s as [|c s IH]; [done|]. simpl. intros [Hc Hs]%andb_prop.
  apply negb_true_iff, bool_decide_eq_false in Hc.
  rewrite decide_False by (by intros ->). by rewrite IH.
Qed.

Lemma Count_other (d : ascii) (s : string) :
  url.all_bytes (other_byte d) s = true → url.Count s (String d "") = 0.
Proof.
  induction s as [|c s IH]; [done|]. simpl. intros [Hc Hs]%andb_prop.
  apply negb_true_iff, bool_decide_eq_false in Hc.
  rewrite bool_decide_eq_false_2 by (by intros [= ->]). by rewrite IH.
Qed.

(** The first occurrence of [d] behind a string that has none. *)
Lemma Index_app_other (d : ascii) (a b : string) :
  url.all_bytes (other_byte d) a = true →
  Index (a +:+ String d b) (String d "") = Some (len a).
Proof.
  induction a as [|c a IH].
  - intros _. rewrite app_empty_l. simpl. rewrite decide_True by done.
    by destruct b.
  - simpl. intros [Hc Hs]%andb_prop.
    apply negb_true_iff, bool_decide_eq_false in Hc.
    rewrite decide_False by (by intros ->). by rewrite IH.
Qed.

Lemma HasPrefix_nil (s : string) : HasPrefix s "" = true.
Proof. by destruct s. Qed.

(** A path that is empty or begins with a slash stays so without its
    trailing slash. *)
Lemma TrimSuffix_rooted (p : string) :
  p = "" ∨ HasPrefix p "/" = true →
  TrimSuffix p "/" = "" ∨ HasPrefix (TrimSuffix p "/") "/" = true.
Proof.
  intros [->|Hp]; [by left|].
  unfold TrimSuffix. destruct (HasSuffix p "/"); [|by right].
  destruct p as [|c [|c' p]]; [by left|by left|right].
  simpl in Hp. simpl. destruct (decide ("/"%char = c)); [|done].
  apply HasPrefix_nil.
Qed.

Section plain_urls.
Context (host path : string).
Hypothesis Hhost : host ≠ "".
Hypothesis Hhb : url.all_bytes url.plain_host_byte host = true.
Hypothesis Hpb : url.all_bytes url.plain_path_byte path = true.
Hypothesis Hroot : path = "" ∨ HasPrefix path "/" = true.

Lemma plain_rest_quiet :
  url.all_bytes quiet_byte ("//" +:+ host +:+ path) = true.
Proof.
  rewrite !all_bytes_app.
  rewrite (all_bytes_impl _ _ host (λ c H, proj1 (plain_host_quiet c H)) Hhb).
  by rewrite (all_bytes_impl _ _ path plain_path_quiet Hpb).
Qed.

Lemma plain_authority :
  match Index (host +:+ path) "/" with
  | Some i => (slice_to (host +:+ path) i, slice_from (host +:+ path) i)
  | None => (host +:+ path, "")
  end = (host, path).
Proof.
  assert (url.all_bytes (other_byte "/") host = true) as Hns
    by exact (all_bytes_impl _ _ host (λ c H, proj2 (plain_host_quiet c H))
                Hhb).
  destruct Hroot as [->|Hp].
  - rewrite app_empty_r, Index_other by done. done.
  - destruct path as [|c p]; [done|]. simpl in Hp.
    destruct (decide ("/"%char = c)) as [<-|]; [|done].
    rewrite Index_app_other by done.
    by rewrite slice_to_app, slice_from_app.
Qed.

(** What [url.Parse] makes of a plain URL without query, once the scheme
    is off. *)
Lemma Parse_plain (scheme : string) :
  url.getScheme (scheme +:+ "://" +:+ host +:+ path)
    = Some (scheme, "//" +:+ host +:+ path) →
  url.all_bytes quiet_byte scheme = true →
  ascii_ToLower scheme = scheme → scheme ≠ "" →
  url.Parse (scheme +:+ "://" +:+ host +:+ path)
  = url.Parsed {| url.Scheme := scheme; url.Host := host; url.Path := path;
                  url.ForceQuery := false; url.RawQuery := "" |}.
Proof.
  intros Hsch Hsq Hlow Hne.
  pose proof plain_rest_quiet as Hq.
  assert (url.all_bytes quiet_byte (scheme +:+ "://" +:+ host +:+ path) = true)
    as Hall.
  { rewrite all_bytes_app, Hsq. simpl. rewrite all_bytes_app.
    change ("//" +:+ host +:+ path) with ("/" +:+ "/" +:+ host +:+ path) in Hq.
    rewrite !all_bytes_app in Hq. rewrite all_bytes_app.
    by apply andb_prop in Hq as [_ [_ ->]%andb_prop]. }
  unfold url.Parse, url.Cut.
  rewrite (Index_other "#")
    by exact (all_bytes_impl _ _ _ (λ c H, proj1 (quiet_other c H)) Hall).
  unfold url.stringContainsCTLByte.
  rewrite (all_bytes_impl _ _ _ (λ c H, proj2 (proj2 (quiet_other c H))) Hall).
  cbn [negb]. rewrite Hsch, Hlow.
  rewrite (Count_other "?")
    by exact (all_bytes_impl _ _ _
                (λ c H, proj1 (proj2 (quiet_other c H))) Hq).
  rewrite andb_false_r.
  rewrite (Index_other "?")
    by exact (all_bytes_impl _ _ _
                (λ c H, proj1 (proj2 (quiet_other c H))) Hq).
  rewrite bool_decide_eq_true_2 by done.
  rewrite !app_cons, app_empty_l. cbn [HasPrefix slice_from].
  rewrite !decide_True by done. rewrite HasPrefix_nil. cbn [andb negb].
  rewrite !slice_from_0, plain_authority.
  by rewrite bool_decide_eq_true_2, Hhb, Hpb by done.
Qed.

(** [normalizeURL] on such a URL: the path loses one trailing slash. *)
Lemma normalizeURL_parsed (beyond : string → string) (scheme raw : string) :
  url.Parse raw
  = url.Parsed {| url.Scheme := scheme; url.Host := host; url.Path := path;
                  url.ForceQuery := false; url.RawQuery := "" |} →
  normalizeURL beyond raw = scheme +:+ "://" +:+ host +:+ TrimSuffix path "/".
Proof.
  intros Hparse. unfold normalizeURL. rewrite Hparse.
  unfold url.Query. cbn [url.RawQuery url.Scheme url.Host url.Path
                         url.ForceQuery].
  assert (url.Encode (foldl url.Del (url.ParseQuery "") trackingParams) = "")
    as -> by (vm_compute; reflexivity).
  unfold url.URL_String. cbn [url.RawQuery url.Scheme url.Host url.Path
                              url.ForceQuery].
  rewrite (bool_decide_eq_true_2 (host ≠ "" ∨ TrimSuffix path "/" ≠ ""))
    by by left.
  rewrite (bool_decide_eq_false_2 ("" ≠ "")) by (by intros ?).
  cbn [orb].
  destruct (TrimSuffix_rooted path Hroot) as [E|Hp].
  - rewrite E. rewrite (bool_decide_eq_false_2 ("" ≠ "")) by (by intros ?).
    cbn [andb]. by rewrite !app_assoc_str.
  - rewrite Hp. cbn [negb]. rewrite andb_false_r. cbn [andb].
    by rewrite !app_assoc_str.
Qed.

End plain_urls.

(** A host followed by a rooted path reads in one way only. *)
Lemma host_path_unique (h1 h2 p1 p2 : string) :
  url.all_bytes (other_byte "/") h1 = true →
  url.all_bytes (other_byte "/") h2 = true →
  p1 = "" ∨ HasPrefix p1 "/" = true → p2 = "" ∨ HasPrefix p2 "/" = true →
  h1 +:+ p1 = h2 +:+ p2 → h1 = h2 ∧ p1 = p2.
Proof.
  revert h2. induction h1 as [|c h1 IH]; intros h2 H1 H2 Hp1 Hp2 E.
  - rewrite app_empty_l in E. destruct h2 as [|c h2]; [by rewrite app_empty_l in E|].
    rewrite app_cons in E. subst p1. exfalso.
    destruct Hp1 as [|Hp]; [done|]. simpl in Hp, H2.
    destruct (decide ("/"%char = c)) as [<-|]; [|done]. done.
  - destruct h2 as [|c' h2].
    + rewrite app_empty_l, app_cons in E. subst p2. exfalso.
      destruct Hp2 as [|Hp]; [done|]. simpl in Hp, H1.
      destruct (decide ("/"%char = c)) as [<-|]; [|done]. done.
    + rewrite !app_cons in E. injection E as -> E. simpl in H1, H2.
      apply andb_prop in H1 as [_ H1]. apply andb_prop in H2 as [_ H2].
      destruct (IH h2 H1 H2 Hp1 Hp2 E) as [-> ->]. done.
Qed.

(** X20: [normalizeURL] on a plain [http] or [https] URL without query and
    fragment (a host of letters, digits, dots and hyphens; a path, empty or
    rooted, of bytes that need no escaping) returns the URL with one
    trailing slash of the path removed and nothing else changed; so two such
    URLs of one scheme are taken for the same page exactly when they have
    the same host, byte for byte, and paths that differ by one trailing
    slash at most. *)
Theorem normalizeURL_plain (beyond : string → string)
    (scheme host path host' path' : string) :
  scheme ∈ ["http"; "https"] →
  host ≠ "" → url.all_bytes url.plain_host_byte host = true →
  url.all_bytes url.plain_path_byte path = true →
  path = "" ∨ HasPrefix path "/" = true →
  host' ≠ "" → url.all_bytes url.plain_host_byte host' = true →
  url.all_bytes url.plain_path_byte path' = true →
  path' = "" ∨ HasPrefix path' "/" = true →
  normalizeURL beyond (scheme +:+ "://" +:+ host +:+ path)
  = scheme +:+ "://" +:+ host +:+ TrimSuffix path "/"
  ∧ (normalizeURL beyond (scheme +:+ "://" +:+ host +:+ path)
     = normalizeURL beyond (scheme +:+ "://" +:+ host' +:+ path')
     ↔ host = host' ∧ TrimSuffix path "/" = TrimSuffix path' "/").
Proof.
  intros Hs Hh Hhb Hpb Hr Hh' Hhb' Hpb' Hr'.
  assert (scheme = "http" ∨ scheme = "https") as Hs' by set_solver.
  clear Hs.
  assert (∀ h p, h ≠ "" → url.all_bytes url.plain_host_byte h = true →
            url.all_bytes url.plain_path_byte p = true →
            p = "" ∨ HasPrefix p "/" = true →
            normalizeURL beyond (scheme +:+ "://" +:+ h +:+ p)
            = scheme +:+ "://" +:+ h +:+ TrimSuffix p "/") as Hnorm.
  { intros h p Hne H1 H2 H3.
    apply normalizeURL_parsed; try done.
    destruct Hs' as [-> | ->];
      (apply Parse_plain; try done;
       unfold url.getScheme; rewrite !app_cons, app_empty_l; reflexivity). }
  rewrite !Hnorm by done. split; [done|]. split.
  - intros E.
    assert (host +:+ TrimSuffix path "/" = host' +:+ TrimSuffix path' "/")
      as E'.
    { destruct Hs' as [-> | ->];
        rewrite !app_cons, !app_empty_l in E; by simplify_eq. }
    apply host_path_unique in E'; try done; try by apply TrimSuffix_rooted.
    + exact (all_bytes_impl _ _ host (λ c H, proj2 (plain_host_quiet c H)) Hhb).
    + exact (all_bytes_impl _ _ host' (λ c H, proj2 (plain_host_quiet c H))
               Hhb').
  - by intros [-> ->].
Qed.

Lemma normalizeURL_plain_witness :
  normalizeURL id ("https" +:+ "://" +:+ "x.com" +:+ "/a/")
  = "https" +:+ "://" +:+ "x.com" +:+ TrimSuffix "/a/" "/"
  ∧ (normalizeURL id ("https" +:+ "://" +:+ "x.com" +:+ "/a/")
     = normalizeURL id ("https" +:+ "://" +:+ "x.com" +:+ "/a")
     ↔ "x.com" = "x.com" ∧ TrimSuffix "/a/" "/" = TrimSuffix "/a" "/").
Proof.
  apply (normalizeURL_plain id "https" "x.com" "/a/" "x.com" "/a");
    try done; try set_solver; by right.
Defined.

(** ** Category pages *)

Lemma ascii_ToLower_app (a b : string) :
  ascii_ToLower (a +:+ b) = ascii_ToLower a +:+ ascii_ToLower b.
Proof.
  induction a as [|c a IH]; [by rewrite !app_empty_l|].
  rewrite app_cons. simpl. by rewrite IH, app_cons.
Qed.

Lemma is_ascii_app (a b : string) :
  is_ascii (a +:+ b) = is_ascii a && is_ascii b.
Proof.
  induction a as [|c a IH]; [by rewrite app_empty_l|].
  rewrite app_cons. simpl. by rewrite IH, andb_assoc.
Qed.

Lemma Count_app (a b d : string) :
  url.Count (a +:+ b) d = url.Count a d + url.Count b d.
Proof.
  induction a as [|c a IH]; [by rewrite app_empty_l|].
  rewrite app_cons. simpl. rewrite IH. lia.
Qed.

Lemma HasPrefix_app (s t sub : string) :
  HasPrefix s sub = true → HasPrefix (s +:+ t) sub = true.
Proof.
  revert s; induction sub as [|d sub IH]; intros s; [intros _; apply HasPrefix_nil|].
  destruct s as [|c s]; [done|]. rewrite app_cons. simpl.
  case_decide; [apply IH|done].
Qed.

(** What a string contains, a longer string contains. *)
Lemma Contains_app (a m b sub : string) :
  Contains m sub = true → Contains (a +:+ m +:+ b) sub = true.
Proof.
  intros [i Hi]%bool_decide_eq_true. apply Index_found in Hi.
  apply bool_decide_eq_true.
  assert (∀ s k, HasPrefix (slice_from s k) sub = true →
                 is_Some (Index (s +:+ b) sub)) as Hright.
  { clear. induction s as [|c s IH]; intros i Hp.
    - rewrite app_empty_l. apply (HasPrefix_Index _ _ 0).
      rewrite slice_from_0. replace (slice_from "" i) with "" in Hp
        by by destruct i.
      destruct sub; [apply HasPrefix_nil|done].
    - destruct i as [|i].
      + apply (HasPrefix_Index _ _ 0). rewrite slice_from_0.
        rewrite slice_from_0 in Hp. by apply HasPrefix_app.
      + change (slice_from (String c s) (S i)) with (slice_from s i) in Hp.
        destruct (IH i Hp) as [j Hj]. apply Index_found in Hj.
        apply (HasPrefix_Index _ _ (S j)). by rewrite app_cons. }
  destruct (Hright m i Hi) as [j Hj]. apply Index_found in Hj.
  apply (HasPrefix_Index _ _ (len a + j)).
  by rewrite <- slice_from_slice_from, slice_from_app.
Qed.

(** X21: [isLikelyCategoryPage] looks for its indicators anywhere in the
    URL, so for ASCII URLs the verdict is inherited by every URL that
    contains one judged a category page; and since [/list] is among the
    indicators, every URL with [/listing] in it, in any letter case, is
    judged a category page, the address of a single listing included. *)
Theorem isLikelyCategoryPage_anywhere `{U : !Unicode}
    (before urlStr after : string) :
  (∀ t, is_ascii t = true → ToLower t = ascii_ToLower t) →
  is_ascii before = true → is_ascii urlStr = true → is_ascii after = true →
  (isLikelyCategoryPage urlStr = true →
   isLikelyCategoryPage (before +:+ urlStr +:+ after) = true)
  ∧ (Contains (ascii_ToLower urlStr) "/listing" = true →
     isLikelyCategoryPage urlStr = true).
Proof.
  intros Hlower Hb Hu Ha.
  assert (is_ascii (before +:+ urlStr +:+ after) = true) as Hall
    by by rewrite !is_ascii_app, Hb, Hu, Ha.
  unfold isLikelyCategoryPage. rewrite !Hlower by done. split.
  - destruct (existsb _ categoryIndicators) eqn:Hex.
    + intros _. apply existsb_exists in Hex as (ind & Hin & Hc).
      rewrite !ascii_ToLower_app.
      rewrite (proj2 (existsb_exists _ _)); [done|].
      exists ind. split; [done|]. by apply Contains_app.
    + case_decide as Hcount; [|done]. intros _.
      rewrite !Count_app. rewrite decide_True by lia.
      by case_match.
  - intros Hc. rewrite (proj2 (existsb_exists _ _)); [done|].
    exists "/list". split; [unfold categoryIndicators; set_solver|].
    apply bool_decide_eq_true in Hc as [i Hi]. apply Index_found in Hi.
    apply bool_decide_eq_true. apply (HasPrefix_Index _ _ i).
    revert Hi. generalize (slice_from (ascii_ToLower urlStr) i).
    intros s. clear.
    repeat (destruct s as [|? s]; [done|]; cbn [HasPrefix];
            case_decide; [|done]).
    by intros _.
Qed.

Lemma isLikelyCategoryPage_anywhere_witness :
  isLikelyCategoryPage (U := ascii_unicode)
    "https://rent.example/Listing/4711-two-rooms" = true.
Proof.
  apply (proj2 (isLikelyCategoryPage_anywhere (U := ascii_unicode) ""
    "https://rent.example/Listing/4711-two-rooms" "" (λ t _, eq_refl)
    eq_refl eq_refl eq_refl)).
  reflexivity.
Defined.

(** ** Plans for the exhaustive mode *)

Lemma expandQueriesWithLLM_NoDup `{U : !Unicode} (range : MapRange)
    (baseQueries : list string) (expansion : QueryExpansion) :
  fair range → NoDup (expandQueriesWithLLM range baseQueries expansion).
Proof.
  intros Hfair. rewrite expandQueriesWithLLM_take.
  eapply sublist_NoDup; [|apply sublist_take].
  rewrite (Hfair (expandedQueries baseQueries expansion)).
  apply NoDup_elements.
Qed.

Lemma expandQueriesWithLLM_elem `{U : !Unicode} (range : MapRange)
    (baseQueries : list string) (expansion : QueryExpansion) (x : string) :
  fair range →
  x ∈ expandQueriesWithLLM range baseQueries expansion →
  candidate baseQueries expansion x.
Proof.
  intros Hfair Hx. rewrite expandQueriesWithLLM_take in Hx.
  apply (subseteq_take maxQueries) in Hx.
  rewrite (Hfair (expandedQueries baseQueries expansion)) in Hx.
  by apply elem_of_elements, expandedQueries_candidates in Hx.
Qed.

(** Base queries that are all over 60 bytes leave nothing. *)
Lemma expandQueriesWithLLM_all_long `{U : !Unicode} (range : MapRange)
    (baseQueries : list string) (expansion : QueryExpansion) :
  fair range → Forall (λ q, 60 < len q) baseQueries →
  expandQueriesWithLLM range baseQueries expansion = [].
Proof.
  intros Hfair Hlong.
  destruct (expandQueriesWithLLM range baseQueries expansion) as [|x l] eqn:E;
    [done|].
  assert (candidate baseQueries expansion x) as Hx.
  { apply (expandQueriesWithLLM_elem range); [done|]. rewrite E. by left. }
  rewrite Forall_forall in Hlong.
  destruct Hx as [[Hin ?]|[(q & p & Hin & ? & _)
                          |(q & w & ss & s & Hin & ? & _)]];
    apply Hlong in Hin; lia.
Qed.

(** X22: [CreatePlanExhaustive] always returns, after one or two calls to
    the model, and it fails only when the planning call fails or its answer
    does not decode: neither a failure of the expansion call nor an
    expansion that does not decode fails the plan. A plan returned is the
    decoded plan with, at most, its queries replaced: they are the model's
    queries as they came (when there are none, or when the expansion call
    failed), or else at most 150 distinct queries, each a candidate built
    from the model's queries. *)
Theorem CreatePlanExhaustive_outcome `{U : !Unicode} (range : MapRange)
    (json : JSON) (chat : ChatOracle) (topic additionalContext : string)
    (n : nat) :
  fair range →
  ∃ r n',
    CreatePlanExhaustive range json chat topic additionalContext n
      = Some (r, n')
    ∧ n < n' <= n + 2
    ∧ ((∃ e, r = Err e)
       ↔ (∃ e, chat n (planMessages topic additionalContext) = Err e)
         ∨ (∃ resp e, chat n (planMessages topic additionalContext) = Ok resp
                      ∧ unmarshal_plan json (cleanJSON resp) = Err e))
    ∧ ∀ plan', r = Ok plan' →
        ∃ resp plan,
          chat n (planMessages topic additionalContext) = Ok resp
          ∧ unmarshal_plan json (cleanJSON resp) = Ok plan
          ∧ plan' = with_queries plan (SearchQueries plan')
          ∧ (SearchQueries plan' = SearchQueries plan
             ∨ (length (SearchQueries plan') <= 150
                ∧ NoDup (SearchQueries plan')
                ∧ ∃ expansion, ∀ q, q ∈ SearchQueries plan' →
                    candidate (SearchQueries plan) expansion q)).
Proof.
  intros Hfair. unfold CreatePlanExhaustive, generateQueryExpansions.
  llm_unfold.
  destruct (chat n (planMessages topic additionalContext)) as [resp|e] eqn:Hc.
  2:{ eexists _, _. split; [reflexivity|]. split; [lia|]. split.
      - split; [intros _; left; by eexists|by eexists].
      - by intros plan' [=]. }
  destruct (unmarshal_plan json (cleanJSON resp)) as [plan|e] eqn:Hp.
  2:{ eexists _, _. split; [reflexivity|]. split; [lia|]. split.
      - split; [intros _; right; by eexists _, _|by eexists].
      - by intros plan' [=]. }
  assert (∀ p queries m, p = with_queries plan queries → n < m <= n + 2 →
    (queries = SearchQueries plan
     ∨ (length queries <= 150 ∧ NoDup queries
        ∧ ∃ expansion, ∀ q, q ∈ queries →
            candidate (SearchQueries plan) expansion q)) →
    ∃ r n', Some (Ok p, m) = Some (r, n')
      ∧ n < n' <= n + 2
      ∧ ((∃ e, r = Err e)
         ↔ (∃ e, Ok resp = Err e :> result string)
           ∨ (∃ resp0 e, Ok resp = Ok resp0
                         ∧ unmarshal_plan json (cleanJSON resp0) = Err e))
      ∧ ∀ plan', r = Ok plan' →
          ∃ resp0 plan0,
            Ok resp = Ok resp0
            ∧ unmarshal_plan json (cleanJSON resp0) = Ok plan0
            ∧ plan' = with_queries plan0 (SearchQueries plan')
            ∧ (SearchQueries plan' = SearchQueries plan0
               ∨ (length (SearchQueries plan') <= 150
                  ∧ NoDup (SearchQueries plan')
                  ∧ ∃ expansion, ∀ q, q ∈ SearchQueries plan' →
                      candidate (SearchQueries plan0) expansion q))) as Hok.
  { intros p queries m -> Hm Hq. eexists _, _. split; [reflexivity|].
    split; [done|]. split.
    - split; [by intros [e [=]]|].
      intros [[e [=]]|(resp0 & e & [= <-] & He)]. congruence.
    - intros plan' [= <-]. exists resp, plan. by split_and!. }
  assert (plan = with_queries plan (SearchQueries plan)) as Hsame
    by by destruct plan.
  case_decide as Hq.
  - destruct (chat (S n) (expansionMessages topic (SearchQueries plan)))
      as [resp2|e2].
    + destruct (unmarshal_expansion json (cleanJSON resp2)) as [expansion|e3].
      * eapply Hok; [reflexivity|lia|]. right. split_and!.
        -- apply (expandQueriesWithLLM_length range).
        -- by apply expandQueriesWithLLM_NoDup.
        -- exists expansion. intros q. by apply expandQueriesWithLLM_elem.
      * eapply Hok; [reflexivity|lia|]. right. split_and!.
        -- apply (expandQueriesWithLLM_length range).
        -- by apply expandQueriesWithLLM_NoDup.
        -- eexists. intros q. by apply expandQueriesWithLLM_elem.
    + eapply Hok; [exact Hsame|lia|by left].
  - eapply Hok; [exact Hsame|lia|by left].
Qed.

Lemma CreatePlanExhaustive_outcome_witness :
  fair elements
  ∧ ∃ r n',
      CreatePlanExhaustive (U := ascii_unicode) elements json_long_query
        chat_verbose "flats" "" 0 = Some (r, n')
      ∧ 0 < n' <= 0 + 2.
Proof.
  assert (fair elements) as Hfair by (intros m; reflexivity).
  split; [exact Hfair|].
  destruct (CreatePlanExhaustive_outcome (U := ascii_unicode) elements
              json_long_query chat_verbose "flats" "" 0 Hfair)
    as (r & n' & Hrun & Hn & _).
  exists r, n'. split; [exact Hrun|exact Hn].
Defined.

(** X23: planning and running together. When every query the model plans
    has more than 60 bytes and the expansion call succeeds, the expansion
    keeps none of them: [CreatePlanExhaustive] returns, without an error, a
    plan with no query, and [RunExhaustive] refuses that plan before it
    calls anything. *)
Theorem long_queries_leave_no_plan `{U : !Unicode} (range : MapRange)
    (json : JSON) (chat : ChatOracle) (cfg : Config)
    (beyond : string → string) (searcher : search.Searcher) (fuel : nat)
    (topic additionalContext resp resp' : string) (plan : ResearchPlan)
    (n m : nat) :
  fair range →
  chat n (planMessages topic additionalContext) = Ok resp →
  unmarshal_plan json (cleanJSON resp) = Ok plan →
  SearchQueries plan ≠ [] →
  Forall (λ q, 60 < len q) (SearchQueries plan) →
  chat (S n) (expansionMessages topic (SearchQueries plan)) = Ok resp' →
  CreatePlanExhaustive range json chat topic additionalContext n
    = Some (Ok (with_queries plan []), S (S n))
  ∧ RunExhaustive cfg beyond chat searcher fuel topic (with_queries plan []) m
    = Some (Err "no search queries in plan - use CreatePlanExhaustive", m).
Proof.
  intros Hfair Hc Hp Hne Hlong Hc'. split; [|done].
  unfold CreatePlanExhaustive, generateQueryExpansions. llm_unfold.
  rewrite Hc, Hp.
  rewrite decide_True by (destruct (SearchQueries plan); [done|simpl; lia]).
  rewrite Hc'.
  by destruct (unmarshal_expansion json (cleanJSON resp'));
    rewrite expandQueriesWithLLM_all_long.
Qed.

Lemma long_queries_leave_no_plan_witness :
  CreatePlanExhaustive (U := ascii_unicode) elements json_long_query
    chat_verbose "flats" "" 0
  = Some (Ok (with_queries plan_long_query []), 2)
  ∧ RunExhaustive (U := ascii_unicode) cfg_small id chat_verbose
      searcher_twelve 2 "flats" (with_queries plan_long_query []) 2
    = Some (Err "no search queries in plan - use CreatePlanExhaustive", 2).
Proof.
  assert (fair elements) as Hfair by (intros m; reflexivity).
  assert (Forall (λ q, 60 < len q) (SearchQueries plan_long_query)) as Hlong.
  { constructor; [|constructor]. vm_compute. lia. }
  exact (long_queries_leave_no_plan (U := ascii_unicode) elements
    json_long_query chat_verbose cfg_small id searcher_twelve 2 "flats" ""
    (repeat_byte "b" 200) (repeat_byte "b" 200) plan_long_query 0 2 Hfair
    eq_refl eq_refl ltac:(discriminate) Hlong eq_refl).
Defined.

(** X24: the round loop of [RunExhaustive] gives up early only at the
    target. When it ends with fewer sources than [MinResults], it has gone
    through every query its rounds could reach: all the queries of the plan,
    or [ParallelQuery] of them in each of its rounds. *)
Theorem roundLoop_stops_only_at_target `{U : !Unicode} (cfg : Config)
    (beyond : string → string) (chat : ChatOracle)
    (searcher : search.Searcher) (fuel : nat) (queries : list string)
    (roundsLeft round : nat) (st st' : RoundState) (n n' : nat) :
  rs_queryIndex st <= length queries →
  roundLoop cfg beyond chat searcher fuel queries roundsLeft round st n
    = Some (st', n') →
  length (sources (rs_agent st')) < MinResults cfg →
  rs_queryIndex st'
  = (rs_queryIndex st + roundsLeft * ParallelQuery cfg) `min` length queries.
Proof.
  revert round st n.
  induction roundsLeft as [|roundsLeft IH]; intros round st n Hidx Hrun Hfew.
  - injection Hrun as <- <-. lia.
  - cbn [roundLoop] in Hrun. case_decide as Hlt.
    2:{ injection Hrun as <- <-. lia. }
    pose proof (roundQueriesOf_index cfg queries (rs_queryIndex st)) as Hhi.
    assert ((roundQueriesOf cfg queries (rs_queryIndex st)).2
            = (rs_queryIndex st + ParallelQuery cfg) `min` length queries)
      as Hqi by (unfold roundQueriesOf; simpl; case_decide; lia).
    destruct (roundQueriesOf cfg queries (rs_queryIndex st)) as [rq qi].
    simpl in Hhi, Hqi. llm_unfold.
    destruct (searchWithPagination cfg beyond chat searcher (rs_agent st) rq n)
      as [[out n1]|]; [|done].
    destruct (compressIfLarge cfg chat fuel _ n1) as [[ctx n2]|]; [|done].
    case_decide as Htarget.
    + injection Hrun as <- <-. simpl in Hfew. lia.
    + apply IH in Hrun; [|simpl; lia|done]. simpl in Hrun.
      rewrite Hrun, Hqi. rewrite Nat.mul_succ_l. lia.
Qed.

Lemma roundLoop_stops_only_at_target_witness :
  ∃ st' n',
    roundLoop (U := ascii_unicode) cfg_small id chat_verbose searcher_two_urls
      2 ["flats"; "rooms"; "studios"] 3 0
      {| rs_agent := fresh_agent; rs_context := ""; rs_queryIndex := 0;
         rs_totalURLsFound := 0; rs_totalDuplicates := 0 |} 0
    = Some (st', n')
    ∧ length (sources (rs_agent st')) < MinResults cfg_small
    ∧ rs_queryIndex st' = 3.
Proof.
  assert (match
            roundLoop (U := ascii_unicode) cfg_small id chat_verbose
              searcher_two_urls 2 ["flats"; "rooms"; "studios"] 3 0
              {| rs_agent := fresh_agent; rs_context := "";
                 rs_queryIndex := 0; rs_totalURLsFound := 0;
                 rs_totalDuplicates := 0 |} 0
          with
          | Some (st', _) =>
              length (sources (rs_agent st')) < MinResults cfg_small
          | None => False
          end) as Hfew by (vm_compute; lia).
  set (st := {| rs_agent := fresh_agent; rs_context := "";
                rs_queryIndex := 0; rs_totalURLsFound := 0;
                rs_totalDuplicates := 0 |}) in *.
  destruct (roundLoop (U := ascii_unicode) cfg_small id chat_verbose
              searcher_two_urls 2 ["flats"; "rooms"; "studios"] 3 0 st 0)
    as [[st' n']|] eqn:Hrun; [|destruct Hfew].
  exists st', n'. split; [reflexivity|]. split; [exact Hfew|].
  assert (rs_queryIndex st <= length ["flats"; "rooms"; "studios"]) as Hidx
    by (simpl; lia).
  exact (roundLoop_stops_only_at_target (U := ascii_unicode) cfg_small id
    chat_verbose searcher_two_urls 2 ["flats"; "rooms"; "studios"] 3 0 st st'
    0 n' Hidx Hrun Hfew).
Defined.
